(** * lipsync-engine: ring buffer and frequency analyzer

    A shallow embedding of the two stateful classes of the engine,
    [RingBuffer] and [FrequencyAnalyzer] (both in
    [src/utils/EventEmitter.js]) and of the static viseme tables
    ([src/core/visemes.js]), together with the properties that the
    specification states about them; then of the rest of these files
    and of what uses them: the other methods of the ring buffer, the
    phoneme table and [interpolateShapes], sequences of analysis
    cycles, [EventEmitter], [CanvasRenderer], the listeners of
    [LipSyncEngine] and [CSSClassRenderer].

    Conventions.
    - Integer-valued JavaScript numbers (cursors, counters, lengths) are
      [Z]; [%] on them is [Z.rem], JavaScript's truncated remainder.
    - A [Float32Array] is a [list] of samples of fixed length; a store
      outside its bounds is ignored and a load outside its bounds yields
      [undefined], which a later store into a [Float32Array] turns into
      NaN.  The sample type is abstract: the buffer, the written arrays
      and the read targets are all [Float32Array]s, so stores copy.
    - Methods that mutate [this] take the object and return the new
      object next to the returned value.
    - The other JavaScript numbers (amplitudes, energies, scores) are an
      abstract type with the operations the code uses on them, the class
      [Number]; its instance [float_Number] is IEEE 754 binary64
      arithmetic, which is what JavaScript computes, and [Q_Number] is
      exact rational arithmetic.  What is proved for every instance
      holds for both.  Bounds on doubles are proved by evaluation where
      the values are finitely many, and from the standard library's
      specification of the primitive operations ([FloatAxioms],
      [SpecFloat]) where they are not: see [Binary64].
    - Object literals used as tables are lists of entries in source
      order, looked up through [gmap]s built from them. *)

From Stdlib Require Import ZArith Lia QArith Qabs Qminmax Lqa Floats.
From stdpp Require Import base list gmap strings.

Set Warnings "-inexact-float".

Local Open Scope Z_scope.

(** ** Counted [for] loops *)

(** [for (let i = i0; i < i0 + n; i++) s = body(i, s)] *)
Fixpoint for_loop {St : Type} (n : nat) (i : Z) (body : Z -> St -> St) (s : St) : St :=
  match n with
  | O => s
  | S n' => for_loop n' (i + 1) body (body i s)
  end.

(** [for (let i = 0; i < bound; i++) ...]: no iteration when [bound <= 0]. *)
Definition for_upto {St : Type} (bound : Z) (body : Z -> St -> St) (s : St) : St :=
  for_loop (Z.to_nat bound) 0 body s.

(** Invariant rule for counted loops. *)
Lemma for_loop_inv {St : Type} (P : Z -> St -> Prop) (body : Z -> St -> St) :
  forall (n : nat) (i : Z) (s : St),
    P i s ->
    (forall k t, i <= k < i + Z.of_nat n -> P k t -> P (k + 1) (body k t)) ->
    P (i + Z.of_nat n) (for_loop n i body s).
Proof.
  induction n as [|n IH]; intros i s Hi Hstep; simpl for_loop.
  - replace (i + Z.of_nat 0) with i by lia. exact Hi.
  - replace (i + Z.of_nat (S n)) with ((i + 1) + Z.of_nat n) by lia.
    apply IH.
    + apply Hstep; [lia | exact Hi].
    + intros k t Hk. apply Hstep. lia.
Qed.

Lemma for_upto_inv {St : Type} (P : Z -> St -> Prop) (body : Z -> St -> St)
    (bound : Z) (s : St) :
  0 <= bound ->
  P 0 s ->
  (forall k t, 0 <= k < bound -> P k t -> P (k + 1) (body k t)) ->
  P bound (for_upto bound body s).
Proof.
  intros Hb H0 Hstep. unfold for_upto.
  replace bound with (0 + Z.of_nat (Z.to_nat bound)) at 1 by lia.
  apply for_loop_inv; [exact H0|].
  intros k t Hk. apply Hstep. lia.
Qed.

(** A decidable closed proposition, by evaluation. *)
Ltac by_decide := apply (bool_decide_unpack _); vm_compute; exact I.

(** ** RingBuffer *)

Section RingBuffer.

(** Samples; [zero] is the value a fresh [Float32Array] holds and [nan]
    the value stored when the right-hand side is [undefined]. *)
Context {sample : Type} (zero nan : sample).

(** [a[i]] as a value about to be stored into a [Float32Array]. *)
Definition f32_get (a : list sample) (i : Z) : sample :=
  if i <? 0 then nan else default nan (a !! Z.to_nat i).

(** [a[i] = x] on a [Float32Array]. *)
Definition f32_set (a : list sample) (i : Z) (x : sample) : list sample :=
  if i <? 0 then a else <[Z.to_nat i := x]> a.

Record RingBuffer := mkRingBuffer {
  buffer : list sample;
  capacity : Z;
  readPtr : Z;
  writePtr : Z;
  available : Z
}.

Definition with_buffer (b : list sample) (rb : RingBuffer) : RingBuffer :=
  mkRingBuffer b (capacity rb) (readPtr rb) (writePtr rb) (available rb).
Definition with_readPtr (p : Z) (rb : RingBuffer) : RingBuffer :=
  mkRingBuffer (buffer rb) (capacity rb) p (writePtr rb) (available rb).
Definition with_writePtr (p : Z) (rb : RingBuffer) : RingBuffer :=
  mkRingBuffer (buffer rb) (capacity rb) (readPtr rb) p (available rb).
Definition with_available (n : Z) (rb : RingBuffer) : RingBuffer :=
  mkRingBuffer (buffer rb) (capacity rb) (readPtr rb) (writePtr rb) n.

(** [new RingBuffer(capacity)].  ([new Float32Array(capacity)] throws
    for a negative capacity and [%] by a zero capacity is NaN: what is
    proved below is about buffers of positive capacity.) *)
Definition new_RingBuffer (cap : Z) : RingBuffer :=
  mkRingBuffer (replicate (Z.to_nat cap) zero) cap 0 0 0.

(** The getters [free], [empty] and [full]. *)
Definition free (rb : RingBuffer) : Z := capacity rb - available rb.
Definition empty (rb : RingBuffer) : bool := available rb =? 0.
Definition full (rb : RingBuffer) : bool := available rb =? capacity rb.

(** [this.buffer[this.writePtr] = x; this.writePtr = (this.writePtr + 1) % this.capacity] *)
Definition store_sample (x : sample) (rb : RingBuffer) : RingBuffer :=
  let rb1 := with_buffer (f32_set (buffer rb) (writePtr rb) x) rb in
  with_writePtr (Z.rem (writePtr rb1 + 1) (capacity rb1)) rb1.

(** [this.readPtr = (this.readPtr + 1) % this.capacity] *)
Definition advance_read (rb : RingBuffer) : RingBuffer :=
  with_readPtr (Z.rem (readPtr rb + 1) (capacity rb)) rb.

(** [write(samples)]: returns the number of samples written. *)
Definition write (samples : list sample) (rb : RingBuffer) : Z * RingBuffer :=
  let toWrite := Z.min (Z.of_nat (length samples)) (free rb) in
  let rb1 := for_upto toWrite (fun i rb => store_sample (f32_get samples i) rb) rb in
  (toWrite, with_available (available rb1 + toWrite) rb1).

(** One iteration of the loop of [writeOverflow]; the loop state is the
    buffer and the local [overwritten]. *)
Definition writeOverflow_body (samples : list sample) (i : Z)
    (st : RingBuffer * Z) : RingBuffer * Z :=
  let '(rb, overwritten) := st in
  let '(rb1, overwritten1) :=
    if available rb >=? capacity rb
    then (advance_read rb, overwritten + 1)
    else (with_available (available rb + 1) rb, overwritten) in
  (store_sample (f32_get samples i) rb1, overwritten1).

(** [writeOverflow(samples)]: returns the number of samples overwritten. *)
Definition writeOverflow (samples : list sample) (rb : RingBuffer) : Z * RingBuffer :=
  let '(rb1, overwritten) :=
    for_upto (Z.of_nat (length samples)) (writeOverflow_body samples) (rb, 0) in
  (overwritten, rb1).

(** One iteration of the loop of [read]; the loop state is the buffer
    and the target array. *)
Definition read_body (offset : Z) (i : Z)
    (st : RingBuffer * list sample) : RingBuffer * list sample :=
  let '(rb, target) := st in
  let target1 := f32_set target (offset + i) (f32_get (buffer rb) (readPtr rb)) in
  (advance_read rb, target1).

(** [count ?? (target.length - offset)]: the number of samples a [read]
    call asks for; [count] is [None] when the argument is omitted. *)
Definition requested (target : list sample) (offset : Z) (count : option Z) : Z :=
  default (Z.of_nat (length target) - offset) count.

(** [read(target, offset, count)]; the default [offset = 0] is supplied
    by the caller.  Returns the number of samples read and the target
    array after the call. *)
Definition read (target : list sample) (offset : Z) (count : option Z)
    (rb : RingBuffer) : Z * list sample * RingBuffer :=
  let toRead := Z.min (requested target offset count) (available rb) in
  let '(rb1, target1) := for_upto toRead (read_body offset) (rb, target) in
  (toRead, target1, with_available (available rb1 - toRead) rb1).

(** [readOne()] *)
Definition readOne (rb : RingBuffer) : sample * RingBuffer :=
  if available rb =? 0 then (zero, rb)
  else
    let x := f32_get (buffer rb) (readPtr rb) in
    let rb1 := advance_read rb in
    (x, with_available (available rb1 - 1) rb1).

(** One iteration of the loop of [peek]; the loop state is the result
    array and the local cursor [ptr]. *)
Definition peek_body (rb : RingBuffer) (i : Z)
    (st : list sample * Z) : list sample * Z :=
  let '(result, ptr) := st in
  (f32_set result i (f32_get (buffer rb) ptr), Z.rem (ptr + 1) (capacity rb)).

(** [peek(count)]: [new Float32Array(n)] throws a [RangeError] for a
    negative [n], which is the [None] result; the buffer itself is never
    modified. *)
Definition peek (count : Z) (rb : RingBuffer) : option (list sample) :=
  let n := Z.min count (available rb) in
  if n <? 0 then None
  else
    let result := replicate (Z.to_nat n) zero in
    Some (fst (for_upto n (peek_body rb) (result, readPtr rb))).

(** [clear()] *)
Definition clear (rb : RingBuffer) : RingBuffer :=
  with_available 0 (with_writePtr 0 (with_readPtr 0 rb)).

(** *** Sequences of operations *)

Inductive op : Type :=
| OpWrite (samples : list sample)
| OpWriteOverflow (samples : list sample)
| OpRead (target : list sample) (offset : Z) (count : option Z)
| OpReadOne
| OpPeek (count : Z)
| OpClear.

(** The buffer after one operation (return values dropped; [peek] only
    reads). *)
Definition step (o : op) (rb : RingBuffer) : RingBuffer :=
  match o with
  | OpWrite s => snd (write s rb)
  | OpWriteOverflow s => snd (writeOverflow s rb)
  | OpRead t off c => snd (read t off c rb)
  | OpReadOne => snd (readOne rb)
  | OpPeek _ => rb
  | OpClear => clear rb
  end.

(** The buffers observed after each operation of a sequence. *)
Fixpoint trace (ops : list op) (rb : RingBuffer) : list RingBuffer :=
  match ops with
  | [] => []
  | o :: ops' => let rb' := step o rb in rb' :: trace ops' rb'
  end.

(** An operation whose [read] asks for a non-negative number of samples. *)
Definition op_ok (o : op) : Prop :=
  match o with
  | OpRead t off c => 0 <= requested t off c
  | _ => True
  end.


(** *** The unread samples and the representation invariant *)

(** [n] samples of the circular array, from cursor [p] on. *)
Fixpoint window (buf : list sample) (cap : Z) (p : Z) (n : nat) : list sample :=
  match n with
  | O => []
  | S n' => f32_get buf p :: window buf cap (Z.rem (p + 1) cap) n'
  end.

(** The unread samples, oldest first. *)
Definition contents (rb : RingBuffer) : list sample :=
  window (buffer rb) (capacity rb) (readPtr rb) (Z.to_nat (available rb)).

(** The representation invariant, which the constructor establishes
    for a positive capacity and every method keeps ([read] when it is
    asked for a non-negative number of samples): the cursors index the
    array and the write cursor is [available] slots after the read
    cursor. *)
Record rb_inv (rb : RingBuffer) : Prop := mk_rb_inv {
  inv_cap : 0 < capacity rb;
  inv_len : Z.of_nat (length (buffer rb)) = capacity rb;
  inv_read : 0 <= readPtr rb < capacity rb;
  inv_avail : 0 <= available rb <= capacity rb;
  inv_write : writePtr rb = (readPtr rb + available rb) mod capacity rb
}.

Lemma length_f32_set (a : list sample) i x : length (f32_set a i x) = length a.
Proof. unfold f32_set. destruct (i <? 0); [reflexivity | apply length_insert]. Qed.

Lemma f32_get_set_eq (a : list sample) i x :
  0 <= i < Z.of_nat (length a) -> f32_get (f32_set a i x) i = x.
Proof.
  intros Hi. unfold f32_get, f32_set.
  destruct (Z.ltb_spec i 0) as [?|_]; [lia|].
  rewrite list_lookup_insert_eq by lia. reflexivity.
Qed.

Lemma f32_get_set_ne (a : list sample) i j x :
  i <> j -> f32_get (f32_set a i x) j = f32_get a j.
Proof.
  intros Hne. unfold f32_get, f32_set.
  destruct (Z.ltb_spec j 0) as [?|Hj]; [reflexivity|].
  destruct (Z.ltb_spec i 0) as [?|Hi]; [reflexivity|].
  rewrite list_lookup_insert_ne by lia. reflexivity.
Qed.

Lemma f32_get_lookup (a : list sample) (i : nat) x :
  a !! i = Some x -> f32_get a (Z.of_nat i) = x.
Proof.
  intros H. unfold f32_get.
  destruct (Z.ltb_spec (Z.of_nat i) 0) as [?|_]; [lia|].
  rewrite Nat2Z.id, H. reflexivity.
Qed.

Lemma rem_succ p cap : 0 <= p -> 0 < cap -> Z.rem (p + 1) cap = (p + 1) mod cap.
Proof. intros. apply Z.rem_mod_nonneg; lia. Qed.

Lemma mod_succ_l p k cap : 0 < cap -> ((p + 1) mod cap + k) mod cap = (p + (1 + k)) mod cap.
Proof. intros. rewrite Zplus_mod_idemp_l. f_equal. lia. Qed.

Lemma mod_inj_window p i n cap :
  0 <= i < n -> n < cap -> (p + i) mod cap <> (p + n) mod cap.
Proof.
  intros Hi Hn Heq.
  assert (H : (n - i) mod cap = 0).
  { replace (n - i) with ((p + n) - (p + i)) by lia.
    rewrite Zminus_mod, Heq, Z.sub_diag. apply Z.mod_0_l. lia. }
  rewrite Z.mod_small in H by lia. lia.
Qed.

Lemma length_window buf cap p n : length (window buf cap p n) = n.
Proof. revert p. induction n as [|n IH]; intros p; simpl; [reflexivity | by rewrite IH]. Qed.

Lemma window_lookup buf cap p n (i : nat) :
  0 < cap -> 0 <= p < cap -> (i < n)%nat ->
  window buf cap p n !! i = Some (f32_get buf ((p + Z.of_nat i) mod cap)).
Proof.
  intros Hcap. revert p i. induction n as [|n IH]; intros p i Hp Hi; [lia|].
  destruct i as [|i]; simpl.
  - rewrite Z.add_0_r, Z.mod_small by lia. reflexivity.
  - rewrite rem_succ by lia. rewrite IH.
    + rewrite mod_succ_l by lia. do 3 f_equal. lia.
    + apply Z.mod_pos_bound. lia.
    + lia.
Qed.

(** Two arrays that agree on the slots of a window have the same window. *)
Lemma window_ext buf buf' cap p n :
  0 < cap -> 0 <= p < cap ->
  (forall i, 0 <= i < Z.of_nat n ->
     f32_get buf ((p + i) mod cap) = f32_get buf' ((p + i) mod cap)) ->
  window buf cap p n = window buf' cap p n.
Proof.
  intros Hcap Hp Hagree. apply list_eq. intros i.
  destruct (Nat.lt_ge_cases i n) as [Hi|Hi].
  - rewrite !window_lookup by assumption. f_equal. apply Hagree. lia.
  - rewrite !lookup_ge_None_2 by (rewrite length_window; lia). reflexivity.
Qed.

Lemma window_snoc buf cap p n :
  0 < cap -> 0 <= p < cap ->
  window buf cap p (S n) =
  window buf cap p n ++ [f32_get buf ((p + Z.of_nat n) mod cap)].
Proof.
  intros Hcap Hp. apply list_eq. intros i.
  destruct (Nat.lt_ge_cases i n) as [Hi|Hi].
  - rewrite lookup_app_l by (rewrite length_window; lia).
    rewrite !window_lookup by (assumption || lia). reflexivity.
  - destruct (Nat.eq_dec i n) as [->|Hne].
    + rewrite window_lookup by (assumption || lia).
      rewrite lookup_app_r by (rewrite length_window; lia).
      rewrite length_window, Nat.sub_diag. reflexivity.
    + rewrite !lookup_ge_None_2; [reflexivity | |];
        rewrite ?length_app, length_window; simpl; lia.
Qed.

(** Storing into the slot just after a window that does not fill the
    array appends the stored sample to the window. *)
Lemma window_store buf cap p n x :
  0 < cap -> 0 <= p < cap -> Z.of_nat (length buf) = cap -> Z.of_nat n < cap ->
  window (f32_set buf ((p + Z.of_nat n) mod cap) x) cap p (S n) =
  window buf cap p n ++ [x].
Proof.
  intros Hcap Hp Hlen Hn.
  pose proof (Z.mod_pos_bound (p + Z.of_nat n) cap Hcap) as Hb.
  rewrite window_snoc by assumption.
  rewrite f32_get_set_eq by lia. f_equal.
  apply window_ext; [assumption..|].
  intros i Hi. apply f32_get_set_ne.
  intros Heq. symmetry in Heq. revert Heq. apply mod_inj_window; lia.
Qed.

(** The last [c] elements of a list (all of it when it is shorter). *)
Definition lastn (c : nat) (l : list sample) : list sample :=
  drop (length l - c) l.

Lemma lastn_short c l : (length l <= c)%nat -> lastn c l = l.
Proof. intros H. unfold lastn. replace (length l - c)%nat with 0%nat by lia. reflexivity. Qed.

Lemma lastn_snoc_short c l x : (length l < c)%nat -> lastn c (l ++ [x]) = lastn c l ++ [x].
Proof.
  intros H. rewrite !lastn_short; [reflexivity | lia |].
  rewrite length_app. simpl. lia.
Qed.

Lemma lastn_snoc_full c l x :
  (0 < c <= length l)%nat -> lastn c (l ++ [x]) = drop 1 (lastn c l) ++ [x].
Proof.
  intros H. unfold lastn. rewrite drop_drop, length_app. simpl.
  replace (length l + 1 - c)%nat with (length l - c + 1)%nat by lia.
  rewrite drop_app_le by lia. reflexivity.
Qed.

Lemma lastn_app_long c l1 l2 : (c <= length l2)%nat -> lastn c (l1 ++ l2) = lastn c l2.
Proof.
  intros H. unfold lastn. rewrite length_app.
  replace (length l1 + length l2 - c)%nat with (length l1 + (length l2 - c))%nat by lia.
  apply drop_app_add.
Qed.

Lemma lastn_0 l : lastn 0 l = [].
Proof. unfold lastn. rewrite Nat.sub_0_r. apply drop_all. Qed.

Lemma lastn_succ_snoc c l x :
  (c <= length l)%nat -> lastn (S c) (l ++ [x]) = lastn c l ++ [x].
Proof.
  intros Hc. unfold lastn. rewrite length_app. simpl.
  replace (length l + 1 - S c)%nat with (length l - c)%nat by lia.
  apply drop_app_le. lia.
Qed.

Lemma length_lastn c l : length (lastn c l) = Nat.min c (length l).
Proof. unfold lastn. rewrite length_drop. lia. Qed.

Lemma take_succ_get (l : list sample) (k : Z) :
  0 <= k < Z.of_nat (length l) ->
  take (Z.to_nat (k + 1)) l = take (Z.to_nat k) l ++ [f32_get l k].
Proof.
  intros Hk.
  destruct (lookup_lt_is_Some_2 l (Z.to_nat k)) as [x Hx]; [lia|].
  replace (Z.to_nat (k + 1)) with (S (Z.to_nat k)) by lia.
  rewrite (take_S_r _ _ _ Hx). f_equal. f_equal.
  rewrite <- (f32_get_lookup _ _ _ Hx). f_equal. lia.
Qed.

Lemma length_contents rb : length (contents rb) = Z.to_nat (available rb).
Proof. apply length_window. Qed.

(** *** The constructor and the methods, in terms of [contents] *)

Lemma new_RingBuffer_inv cap : 0 < cap -> rb_inv (new_RingBuffer cap).
Proof.
  intros H. constructor; simpl; try lia.
  - rewrite length_replicate. lia.
  - rewrite Z.mod_0_l; lia.
Qed.

Lemma new_RingBuffer_contents cap : contents (new_RingBuffer cap) = [].
Proof. reflexivity. Qed.

(** One store at the write cursor, seen from a window that starts at
    [p], holds [n] samples and ends at the write cursor. *)
Lemma store_sample_spec x rb p n :
  0 < capacity rb -> Z.of_nat (length (buffer rb)) = capacity rb ->
  0 <= p < capacity rb -> Z.of_nat n < capacity rb ->
  writePtr rb = (p + Z.of_nat n) mod capacity rb ->
  let rb' := store_sample x rb in
  capacity rb' = capacity rb /\ readPtr rb' = readPtr rb /\
  available rb' = available rb /\
  Z.of_nat (length (buffer rb')) = capacity rb /\
  writePtr rb' = (p + Z.of_nat n + 1) mod capacity rb /\
  window (buffer rb') (capacity rb) p (S n) =
    window (buffer rb) (capacity rb) p n ++ [x].
Proof.
  intros Hcap Hlen Hp Hn Hw. simpl.
  repeat split.
  - rewrite length_f32_set. exact Hlen.
  - rewrite Hw.
    rewrite rem_succ; [| apply Z.mod_pos_bound; lia | lia].
    apply Zplus_mod_idemp_l.
  - rewrite Hw. apply window_store; assumption.
Qed.

Lemma write_spec samples rb :
  rb_inv rb ->
  let n := Z.min (Z.of_nat (length samples)) (free rb) in
  fst (write samples rb) = n /\
  rb_inv (snd (write samples rb)) /\
  capacity (snd (write samples rb)) = capacity rb /\
  available (snd (write samples rb)) = available rb + n /\
  contents (snd (write samples rb)) = contents rb ++ take (Z.to_nat n) samples.
Proof.
  intros [Hcap Hlen Hr Ha Hw] n. unfold write. fold n. simpl fst. simpl snd.
  assert (Hn : 0 <= n) by (unfold n, free; lia).
  set (P := fun (k : Z) (t : RingBuffer) =>
    capacity t = capacity rb /\ readPtr t = readPtr rb /\
    available t = available rb /\
    Z.of_nat (length (buffer t)) = capacity rb /\
    writePtr t = (readPtr rb + (available rb + k)) mod capacity rb /\
    window (buffer t) (capacity rb) (readPtr rb) (Z.to_nat (available rb + k)) =
      contents rb ++ take (Z.to_nat k) samples).
  assert (HP : P n (for_upto n (fun i t => store_sample (f32_get samples i) t) rb)).
  { apply for_upto_inv; [exact Hn | |].
    - unfold P. rewrite !Z.add_0_r. simpl. rewrite app_nil_r. repeat split; assumption.
    - intros k t Hk (Hc & Hrd & Hav & Hl & Hwp & Hwin).
      unfold n, free in Hk.
      destruct (store_sample_spec (f32_get samples k) t (readPtr rb)
                  (Z.to_nat (available rb + k))) as (Hc' & Hrd' & Hav' & Hl' & Hwp' & Hwin');
        rewrite ?Hc, ?Z2Nat.id; try lia; try assumption.
      unfold P. rewrite Hc in *. rewrite Z2Nat.id in * by lia.
      repeat split; try congruence.
      + rewrite Hwp'. f_equal. lia.
      + replace (Z.to_nat (available rb + (k + 1))) with (S (Z.to_nat (available rb + k))) by lia.
        rewrite Hwin', Hwin, take_succ_get by lia. rewrite <- app_assoc. reflexivity. }
  set (rb1 := for_upto n _ rb) in *.
  destruct HP as (Hc & Hrd & Hav & Hl & Hwp & Hwin).
  assert (Hfree : n <= capacity rb - available rb) by (unfold n, free; lia).
  split; [reflexivity|]. split; [|split; [|split]].
  - constructor; simpl; rewrite ?Hc, ?Hrd, ?Hav; try assumption; try lia.
  - exact Hc.
  - simpl. rewrite Hav. reflexivity.
  - unfold contents at 1. simpl. rewrite Hc, Hrd, Hav. exact Hwin.
Qed.

Lemma writeOverflow_body_spec samples rb k t ow :
  let cap := capacity rb in
  let l := contents rb ++ take (Z.to_nat k) samples in
  rb_inv rb -> 0 <= k < Z.of_nat (length samples) ->
  rb_inv t -> capacity t = cap ->
  available t = Z.min cap (available rb + k) ->
  ow = Z.max 0 (available rb + k - cap) ->
  contents t = lastn (Z.to_nat cap) l ->
  let '(t', ow') := writeOverflow_body samples k (t, ow) in
  rb_inv t' /\ capacity t' = cap /\
  available t' = Z.min cap (available rb + (k + 1)) /\
  ow' = Z.max 0 (available rb + (k + 1) - cap) /\
  contents t' =
    lastn (Z.to_nat cap) (contents rb ++ take (Z.to_nat (k + 1)) samples).
Proof.
  intros cap l Hrb Hk [Hcap Hlen Hr Ha Hw] Hc Hav How Hcont.
  pose proof (inv_avail _ Hrb) as Ha0.
  assert (Hll : length l = Z.to_nat (available rb + k)).
  { unfold l. rewrite length_app, length_contents, length_take. lia. }
  rewrite take_succ_get, app_assoc by lia. fold l.
  set (x := f32_get samples k).
  unfold writeOverflow_body. fold x. rewrite Hc in *.
  destruct (Z.geb_spec (available t) cap) as [Hfull|Hroom].
  - (* full: the oldest sample is dropped *)
    assert (Hat : available t = cap) by lia.
    set (r1 := Z.rem (readPtr t + 1) cap).
    assert (Hr1 : r1 = (readPtr t + 1) mod cap) by (apply rem_succ; lia).
    assert (Hr1b : 0 <= r1 < cap) by (rewrite Hr1; apply Z.mod_pos_bound; lia).
    destruct (store_sample_spec x (advance_read t) r1 (Z.to_nat (cap - 1)))
      as (Hc' & Hrd' & Hav' & Hl' & Hwp' & Hwin'); simpl; rewrite ?Hc; try lia.
    { fold r1. rewrite Hw, Hat, Z2Nat.id, Hr1, Zplus_mod_idemp_l by lia.
      f_equal. lia. }
    set (t' := store_sample x (advance_read t)) in *.
    simpl (capacity (advance_read t)) in *. simpl (readPtr (advance_read t)) in *.
    simpl (available (advance_read t)) in *. simpl (buffer (advance_read t)) in *.
    fold r1 in Hrd'. rewrite Hc in *. rewrite Z2Nat.id in Hwp' by lia.
    split; [|split; [|split; [|split]]]; try lia.
    + constructor; rewrite ?Hc', ?Hrd', ?Hav'; try lia.
      rewrite Hwp', Hat. f_equal. lia.
    + unfold contents. rewrite Hc', Hrd', Hav', Hat. fold r1.
      replace (window (buffer t') cap r1 (Z.to_nat cap))
        with (window (buffer t) cap r1 (Z.to_nat (cap - 1)) ++ [x])
        by (rewrite <- Hwin'; f_equal; lia).
      rewrite lastn_snoc_full by lia. rewrite <- Hcont.
      f_equal. unfold contents. rewrite Hc, Hat.
      replace (Z.to_nat cap) with (S (Z.to_nat (cap - 1))) by lia.
      reflexivity.
  - (* room left: the sample is appended *)
    destruct (store_sample_spec x (with_available (available t + 1) t)
                (readPtr t) (Z.to_nat (available t)))
      as (Hc' & Hrd' & Hav' & Hl' & Hwp' & Hwin'); simpl; rewrite ?Hc;
      rewrite ?Z2Nat.id; try lia; try assumption.
    set (t0 := with_available (available t + 1) t) in *.
    set (t' := store_sample x t0) in *.
    simpl (capacity t0) in *. simpl (readPtr t0) in *.
    simpl (available t0) in *. simpl (buffer t0) in *.
    rewrite Hc in *. rewrite Z2Nat.id in Hwp' by lia.
    split; [|split; [|split; [|split]]]; try lia.
    + constructor; rewrite ?Hc', ?Hrd', ?Hav'; try lia.
      rewrite Hwp'. f_equal. lia.
    + unfold contents at 1. rewrite Hc', Hrd', Hav'.
      replace (Z.to_nat (available t + 1)) with (S (Z.to_nat (available t))) by lia.
      rewrite Hwin'. rewrite lastn_snoc_short by lia. rewrite <- Hcont.
      unfold contents. rewrite Hc. reflexivity.
Qed.

Lemma writeOverflow_spec samples rb :
  rb_inv rb ->
  let cap := capacity rb in
  let n := Z.of_nat (length samples) in
  fst (writeOverflow samples rb) = Z.max 0 (available rb + n - cap) /\
  rb_inv (snd (writeOverflow samples rb)) /\
  capacity (snd (writeOverflow samples rb)) = cap /\
  available (snd (writeOverflow samples rb)) = Z.min cap (available rb + n) /\
  contents (snd (writeOverflow samples rb)) =
    lastn (Z.to_nat cap) (contents rb ++ samples).
Proof.
  intros Hrb cap n. unfold writeOverflow. fold n.
  set (Q := fun (k : Z) (st : RingBuffer * Z) =>
    rb_inv (fst st) /\ capacity (fst st) = cap /\
    available (fst st) = Z.min cap (available rb + k) /\
    snd st = Z.max 0 (available rb + k - cap) /\
    contents (fst st) =
      lastn (Z.to_nat cap) (contents rb ++ take (Z.to_nat k) samples)).
  assert (HQ : Q n (for_upto n (writeOverflow_body samples) (rb, 0))).
  { pose proof (inv_avail _ Hrb) as Ha0.
    apply for_upto_inv; [lia | |].
    - unfold Q. simpl. rewrite app_nil_r, Z.add_0_r.
      split; [exact Hrb|]. split; [reflexivity|].
      split; [fold cap; lia|]. split; [fold cap; lia|].
      rewrite lastn_short; [reflexivity|]. rewrite length_contents. fold cap. lia.
    - intros k [t ow] Hk (Hi & Hc & Hav & How & Hcont). simpl in Hi, Hc, Hav, How, Hcont.
      pose proof (writeOverflow_body_spec samples rb k t ow Hrb Hk Hi Hc Hav How Hcont) as H.
      destruct (writeOverflow_body samples k (t, ow)) as [t' ow']. exact H. }
  destruct (for_upto n (writeOverflow_body samples) (rb, 0)) as [rb1 ow].
  destruct HQ as (Hi & Hc & Hav & How & Hcont). simpl in *.
  split; [exact How|]. split; [exact Hi|]. split; [exact Hc|]. split; [exact Hav|].
  rewrite Hcont. unfold n. rewrite Nat2Z.id, firstn_all. reflexivity.
Qed.

Lemma window_drop buf cap p k m :
  0 < cap -> 0 <= p < cap ->
  drop k (window buf cap p (k + m)) =
  window buf cap ((p + Z.of_nat k) mod cap) m.
Proof.
  intros Hcap Hp. apply list_eq. intros i. rewrite lookup_drop.
  destruct (Nat.lt_ge_cases i m) as [Hi|Hi].
  - rewrite !window_lookup; try lia; [|apply Z.mod_pos_bound; lia].
    rewrite Zplus_mod_idemp_l. do 3 f_equal. lia.
  - rewrite !lookup_ge_None_2; [reflexivity | |]; rewrite length_window; lia.
Qed.

(** The target array of a [read] that copied the samples [src] to the
    indices [offset], [offset + 1], ...; indices outside the target are
    skipped. *)
Definition overlay (offset : Z) (src target : list sample) : list sample :=
  imap (fun j y =>
          if bool_decide (offset <= Z.of_nat j)
          then default y (src !! Z.to_nat (Z.of_nat j - offset))
          else y) target.

Lemma length_overlay offset src target : length (overlay offset src target) = length target.
Proof. apply length_imap. Qed.

Lemma overlay_nil offset target : overlay offset [] target = target.
Proof.
  apply list_eq. intros j. unfold overlay. rewrite list_lookup_imap.
  destruct (target !! j) as [y|]; simpl; [|reflexivity].
  case_bool_decide; reflexivity.
Qed.

Lemma overlay_all src target :
  length src = length target -> overlay 0 src target = src.
Proof.
  intros Hlen. apply list_eq. intros j. unfold overlay. rewrite list_lookup_imap.
  destruct (target !! j) as [y|] eqn:Hy; simpl.
  - rewrite bool_decide_eq_true_2 by lia.
    replace (Z.to_nat (Z.of_nat j - 0)) with j by lia.
    apply lookup_lt_Some in Hy.
    destruct (lookup_lt_is_Some_2 src j) as [x Hx]; [lia|].
    rewrite Hx. reflexivity.
  - apply lookup_ge_None in Hy. symmetry. apply lookup_ge_None. lia.
Qed.

Lemma overlay_store offset src target x :
  f32_set (overlay offset src target) (offset + Z.of_nat (length src)) x =
  overlay offset (src ++ [x]) target.
Proof.
  apply list_eq. intros j. unfold f32_set, overlay.
  destruct (Z.ltb_spec (offset + Z.of_nat (length src)) 0) as [Hneg|Hpos].
  - rewrite !list_lookup_imap. destruct (target !! j) as [y|]; simpl; [|reflexivity].
    case_bool_decide; [|reflexivity].
    rewrite !lookup_ge_None_2; [reflexivity | | lia].
    rewrite length_app. simpl. lia.
  - destruct (decide (j = Z.to_nat (offset + Z.of_nat (length src)))) as [->|Hne].
    + destruct (Nat.lt_ge_cases (Z.to_nat (offset + Z.of_nat (length src))) (length target))
        as [Hin|Hout].
      * rewrite list_lookup_insert_eq by (rewrite length_imap; lia).
        rewrite list_lookup_imap.
        destruct (lookup_lt_is_Some_2 target _ Hin) as [y ->]. simpl.
        rewrite bool_decide_eq_true_2 by lia.
        replace (Z.to_nat (Z.of_nat (Z.to_nat (offset + Z.of_nat (length src))) - offset))
          with (length src) by lia.
        rewrite lookup_app_r, Nat.sub_diag by lia. reflexivity.
      * rewrite !lookup_ge_None_2; [reflexivity | |];
          rewrite ?length_insert, length_imap; lia.
    + rewrite list_lookup_insert_ne by lia.
      rewrite !list_lookup_imap. destruct (target !! j) as [y|]; simpl; [|reflexivity].
      case_bool_decide; [|reflexivity]. f_equal.
      destruct (Nat.lt_ge_cases (Z.to_nat (Z.of_nat j - offset)) (length src)) as [Hlt|Hge].
      * rewrite lookup_app_l by lia. reflexivity.
      * rewrite !lookup_ge_None_2; [reflexivity | | lia].
        rewrite length_app. simpl. lia.
Qed.

Lemma read_spec target offset count rb :
  rb_inv rb -> 0 <= requested target offset count ->
  let n := Z.min (requested target offset count) (available rb) in
  let '(r, target', rb') := read target offset count rb in
  r = n /\
  target' = overlay offset (take (Z.to_nat n) (contents rb)) target /\
  rb_inv rb' /\ capacity rb' = capacity rb /\
  available rb' = available rb - n /\
  contents rb' = drop (Z.to_nat n) (contents rb).
Proof.
  intros [Hcap Hlen Hr Ha Hw] Hreq n. unfold read. fold n.
  assert (Hn : 0 <= n <= available rb) by (unfold n; lia).
  set (R := fun (k : Z) (st : RingBuffer * list sample) =>
    buffer (fst st) = buffer rb /\ capacity (fst st) = capacity rb /\
    writePtr (fst st) = writePtr rb /\ available (fst st) = available rb /\
    readPtr (fst st) = (readPtr rb + k) mod capacity rb /\
    snd st = overlay offset (take (Z.to_nat k) (contents rb)) target).
  assert (HR : R n (for_upto n (read_body offset) (rb, target))).
  { apply for_upto_inv; [lia | |].
    - unfold R. simpl. rewrite Z.add_0_r, Z.mod_small, overlay_nil by lia.
      repeat split.
    - intros k [t tgt] Hk (Hb & Hc & Hwp & Hav & Hrd & Htgt). simpl in *.
      unfold R. simpl. rewrite Hb, Hc, Hrd. repeat split; try assumption.
      + rewrite rem_succ; [| apply Z.mod_pos_bound; lia | lia].
        rewrite Zplus_mod_idemp_l. f_equal. lia.
      + assert (Hx : contents rb !! Z.to_nat k =
                     Some (f32_get (buffer rb) ((readPtr rb + k) mod capacity rb))).
        { unfold contents. rewrite window_lookup by lia. rewrite Z2Nat.id by lia. reflexivity. }
        replace (Z.to_nat (k + 1)) with (S (Z.to_nat k)) by lia.
        rewrite (take_S_r _ _ _ Hx), <- overlay_store, Htgt.
        rewrite length_take, length_contents. do 2 f_equal. lia. }
  destruct (for_upto n (read_body offset) (rb, target)) as [rb1 target1].
  destruct HR as (Hb & Hc & Hwp & Hav & Hrd & Htgt). simpl in *.
  split; [reflexivity|]. split; [exact Htgt|].
  split; [|split; [exact Hc|split; [lia|]]].
  - constructor; simpl; rewrite ?Hb, ?Hc, ?Hrd, ?Hav, ?Hwp; try assumption; try lia.
    + apply Z.mod_pos_bound. lia.
    + rewrite Hw, Zplus_mod_idemp_l. f_equal. lia.
  - unfold contents. simpl. rewrite Hb, Hc, Hrd, Hav.
    replace (Z.of_nat 0) with 0 by reflexivity.
    rewrite <- (Z2Nat.id n) at 1 by lia.
    rewrite <- window_drop by lia. f_equal. f_equal. lia.
Qed.

Lemma readOne_spec rb :
  rb_inv rb ->
  let '(x, rb') := readOne rb in
  rb_inv rb' /\ capacity rb' = capacity rb /\
  (available rb = 0 -> x = zero /\ rb' = rb) /\
  (available rb <> 0 ->
     available rb' = available rb - 1 /\ contents rb = x :: contents rb').
Proof.
  intros [Hcap Hlen Hr Ha Hw]. unfold readOne.
  destruct (Z.eqb_spec (available rb) 0) as [H0|Hne].
  - split; [constructor; assumption|]. split; [reflexivity|].
    split; [auto | intros; contradiction].
  - split; [|split; [reflexivity|split; [intros; contradiction|]]].
    + constructor; simpl; try assumption; try lia.
      * apply Z.rem_bound_pos; lia.
      * rewrite rem_succ, Hw, Zplus_mod_idemp_l by lia. f_equal. lia.
    + intros _. split; [reflexivity|]. unfold contents. simpl.
      replace (Z.to_nat (available rb)) with (S (Z.to_nat (available rb - 1))) by lia.
      reflexivity.
Qed.

Lemma clear_spec rb :
  rb_inv rb ->
  rb_inv (clear rb) /\ capacity (clear rb) = capacity rb /\
  available (clear rb) = 0 /\ contents (clear rb) = [].
Proof.
  intros [Hcap Hlen Hr Ha Hw]. split; [|repeat split].
  constructor; simpl; try assumption; try lia.
  rewrite Z.mod_0_l; lia.
Qed.

Lemma peek_spec count rb :
  rb_inv rb -> 0 <= count ->
  peek count rb = Some (take (Z.to_nat count) (contents rb)).
Proof.
  intros [Hcap Hlen Hr Ha Hw] Hcount. unfold peek.
  set (n := Z.min count (available rb)).
  destruct (Z.ltb_spec n 0) as [?|_]; [unfold n in *; lia|].
  assert (Hn : 0 <= n <= available rb) by (unfold n; lia).
  f_equal.
  set (c := contents rb).
  set (I := fun (k : Z) (st : list sample * Z) =>
    snd st = (readPtr rb + k) mod capacity rb /\
    fst st = take (Z.to_nat k) c ++ replicate (Z.to_nat (n - k)) zero).
  assert (HI : I n (for_upto n (peek_body rb) (replicate (Z.to_nat n) zero, readPtr rb))).
  { apply for_upto_inv; [lia | |].
    - unfold I. simpl. rewrite Z.add_0_r, Z.mod_small, Z.sub_0_r by lia. split; reflexivity.
    - intros k [res ptr] Hk [Hptr Hres]. simpl in Hptr, Hres. unfold I. simpl.
      split.
      + rewrite Hptr, rem_succ; [| apply Z.mod_pos_bound; lia | lia].
        rewrite Zplus_mod_idemp_l. f_equal. lia.
      + assert (Hx : c !! Z.to_nat k = Some (f32_get (buffer rb) ptr)).
        { unfold c, contents. rewrite window_lookup by lia.
          rewrite Z2Nat.id, Hptr by lia. reflexivity. }
        replace (Z.to_nat (k + 1)) with (S (Z.to_nat k)) by lia.
        rewrite (take_S_r _ _ _ Hx), Hres. unfold f32_set.
        destruct (Z.ltb_spec k 0) as [?|_]; [lia|].
        assert (Hlt : length (take (Z.to_nat k) c) = Z.to_nat k).
        { rewrite length_take. unfold c. rewrite length_contents. lia. }
        rewrite insert_app_r_alt by lia. rewrite Hlt, Nat.sub_diag.
        replace (Z.to_nat (n - k)) with (S (Z.to_nat (n - (k + 1)))) by lia.
        simpl. rewrite <- app_assoc. reflexivity. }
  destruct HI as [_ Hres]. rewrite Hres, Z.sub_diag. simpl. rewrite app_nil_r.
  unfold n. destruct (Z.le_ge_cases count (available rb)) as [Hle|Hge].
  - rewrite Z.min_l by lia. reflexivity.
  - rewrite Z.min_r by lia.
    rewrite !take_ge; [reflexivity | |]; unfold c; rewrite length_contents; lia.
Qed.

(** Every operation that asks [read] for a non-negative number of samples
    maintains the invariant and the capacity. *)
Lemma step_inv o rb :
  rb_inv rb -> op_ok o ->
  rb_inv (step o rb) /\ capacity (step o rb) = capacity rb.
Proof.
  intros Hrb Hok. destruct o as [s|s|t off c| |n|]; simpl.
  - destruct (write_spec s rb Hrb) as (_ & Hi & Hc & _). split; assumption.
  - destruct (writeOverflow_spec s rb Hrb) as (_ & Hi & Hc & _). split; assumption.
  - pose proof (read_spec t off c rb Hrb Hok) as H.
    destruct (read t off c rb) as [[r t'] rb']. simpl.
    destruct H as (_ & _ & Hi & Hc & _). split; assumption.
  - pose proof (readOne_spec rb Hrb) as H.
    destruct (readOne rb) as [x rb']. simpl.
    destruct H as (Hi & Hc & _). split; assumption.
  - split; [assumption | reflexivity].
  - destruct (clear_spec rb Hrb) as (Hi & Hc & _). split; assumption.
Qed.

Lemma trace_inv ops rb :
  rb_inv rb -> Forall op_ok ops ->
  Forall (fun rb' => rb_inv rb' /\ capacity rb' = capacity rb) (trace ops rb).
Proof.
  revert rb. induction ops as [|o ops IH]; intros rb Hrb Hok; simpl.
  - constructor.
  - inversion Hok as [|? ? Ho Hops]; subst.
    destruct (step_inv o rb Hrb Ho) as [Hi Hc].
    constructor; [split; assumption|].
    rewrite <- Hc. apply IH; assumption.
Qed.

(** *** Properties of the specification *)

(** C1 (amended): starting from a freshly constructed buffer of capacity
    [cap > 0], after every operation of a sequence of [write],
    [writeOverflow], [read], [readOne], [peek] and [clear] calls in
    which every [read] asks for a non-negative number of samples,
    [0 <= available <= cap]. *)
Theorem available_within_capacity (cap : Z) (ops : list op) :
  0 < cap -> Forall op_ok ops ->
  Forall (fun rb => 0 <= available rb <= cap) (trace ops (new_RingBuffer cap)).
Proof.
  intros Hcap Hok.
  pose proof (trace_inv ops _ (new_RingBuffer_inv cap Hcap) Hok) as H.
  eapply Forall_impl; [exact H|].
  intros rb [Hi Hc]. simpl in Hc. rewrite <- Hc. apply (inv_avail _ Hi).
Qed.

(** C2 (amended): on a buffer that satisfies the invariant, [write] of
    an array [samples] that fits into the free space followed by [read]
    into a target of the same length writes and reads [length samples]
    samples, and the target then holds the first [length samples]
    samples of the unread contents followed by [samples]; when the
    buffer was empty these are exactly [samples], in order. *)
Theorem write_read_fifo (samples target : list sample) (rb : RingBuffer) :
  rb_inv rb ->
  Z.of_nat (length samples) <= free rb ->
  length target = length samples ->
  let '(w, rb1) := write samples rb in
  let '(r, target', rb2) := read target 0 None rb1 in
  w = Z.of_nat (length samples) /\ r = Z.of_nat (length samples) /\
  target' = take (length samples) (contents rb ++ samples) /\
  (available rb = 0 -> target' = samples).
Proof.
  intros Hrb Hfree Hlen.
  destruct (write_spec samples rb Hrb) as (Hw & Hi1 & Hc1 & Ha1 & Hcont1).
  destruct (write samples rb) as [w rb1]. simpl in Hw, Hi1, Hc1, Ha1, Hcont1.
  rewrite Z.min_l in Hw, Ha1, Hcont1 by lia.
  rewrite Nat2Z.id, firstn_all in Hcont1.
  pose proof (inv_avail _ Hrb) as Ha.
  assert (Hreq : requested target 0 None = Z.of_nat (length samples))
    by (unfold requested; simpl; lia).
  pose proof (read_spec target 0 None rb1 Hi1) as H.
  rewrite Hreq, Ha1 in H. rewrite Z.min_l in H by lia.
  specialize (H ltac:(lia)).
  destruct (read target 0 None rb1) as [[r target'] rb2].
  destruct H as (Hr & Ht & _).
  rewrite Nat2Z.id, Hcont1 in Ht.
  assert (Ht' : target' = take (length samples) (contents rb ++ samples)).
  { rewrite Ht. apply overlay_all. rewrite length_take, length_app. lia. }
  split; [exact Hw|]. split; [exact Hr|]. split; [exact Ht'|].
  intros H0. rewrite Ht'.
  assert (Hnil : contents rb = []).
  { apply nil_length_inv. rewrite length_contents, H0. reflexivity. }
  rewrite Hnil. simpl. apply firstn_all.
Qed.

(** C3 (amended): on a buffer of capacity [C] that satisfies the
    invariant, [writeOverflow] of [N > C] samples leaves
    [available = C] and the buffer holding exactly the last [C] samples
    of the input, in order (as [contents] and as [peek(C)] returns
    them), and returns [N - C] when the buffer started empty and [N]
    when it started full. *)
Theorem writeOverflow_keeps_last (samples : list sample) (rb : RingBuffer) :
  rb_inv rb ->
  capacity rb < Z.of_nat (length samples) ->
  let C := capacity rb in
  let N := Z.of_nat (length samples) in
  let '(overwritten, rb') := writeOverflow samples rb in
  available rb' = C /\
  contents rb' = drop (Z.to_nat (N - C)) samples /\
  peek C rb' = Some (drop (Z.to_nat (N - C)) samples) /\
  (available rb = 0 -> overwritten = N - C) /\
  (available rb = C -> overwritten = N).
Proof.
  intros Hrb HN C N.
  destruct (writeOverflow_spec samples rb Hrb) as (How & Hi & Hc & Hav & Hcont).
  destruct (writeOverflow samples rb) as [ow rb']. simpl in How, Hi, Hc, Hav, Hcont.
  pose proof (inv_avail _ Hrb) as Ha. pose proof (inv_cap _ Hrb) as Hcap.
  fold C N in How, Hc, Hav, Hcont, Ha, Hcap, HN.
  assert (Hlast : contents rb' = drop (Z.to_nat (N - C)) samples).
  { rewrite Hcont, lastn_app_long by lia. unfold lastn. f_equal. lia. }
  split; [lia|]. split; [exact Hlast|]. split; [|split; intros; lia].
  replace (peek C rb') with (peek (capacity rb') rb') by (rewrite Hc; reflexivity).
  rewrite peek_spec by (assumption || lia).
  rewrite take_ge; [f_equal; exact Hlast|].
  rewrite length_contents. lia.
Qed.

(** *** The methods one by one *)

(** The getter [length]. *)
Definition rb_length (rb : RingBuffer) : Z := available rb.

Lemma with_available_same rb : with_available (available rb + 0) rb = rb.
Proof. destruct rb. unfold with_available. simpl. rewrite Z.add_0_r. reflexivity. Qed.

Lemma for_upto_nonpos {St : Type} (bound : Z) (body : Z -> St -> St) (s : St) :
  bound <= 0 -> for_upto bound body s = s.
Proof. intros Hb. unfold for_upto. replace (Z.to_nat bound) with 0%nat by lia. reflexivity. Qed.

(** Two counted loops that run in step keep a relation between their
    states. *)
Lemma for_loop_rel {A B : Type} (R : Z -> A -> B -> Prop)
    (f : Z -> A -> A) (g : Z -> B -> B) :
  forall (n : nat) (i : Z) (a : A) (b : B),
    R i a b ->
    (forall k x y, i <= k < i + Z.of_nat n -> R k x y -> R (k + 1) (f k x) (g k y)) ->
    R (i + Z.of_nat n) (for_loop n i f a) (for_loop n i g b).
Proof.
  induction n as [|n IH]; intros i a b Hi Hstep; simpl for_loop.
  - replace (i + Z.of_nat 0) with i by lia. exact Hi.
  - replace (i + Z.of_nat (S n)) with ((i + 1) + Z.of_nat n) by lia.
    apply IH.
    + apply Hstep; [lia | exact Hi].
    + intros k x y Hk. apply Hstep. lia.
Qed.

(** X1: on a buffer that satisfies the invariant, [write] returns
    [min(samples.length, free)], appends exactly that many samples, the
    first ones of the array, behind the unread samples and drops the
    rest; the free space shrinks by the number returned; an array that
    fits is appended whole; and on a full buffer [write] returns 0 and
    leaves the buffer as it is. *)
Theorem write_appends_what_fits (samples : list sample) (rb : RingBuffer) :
  rb_inv rb ->
  let n := Z.min (Z.of_nat (length samples)) (free rb) in
  fst (write samples rb) = n /\
  contents (snd (write samples rb)) = contents rb ++ take (Z.to_nat n) samples /\
  free (snd (write samples rb)) = free rb - n /\
  (Z.of_nat (length samples) <= free rb ->
     contents (snd (write samples rb)) = contents rb ++ samples) /\
  (full rb = true -> write samples rb = (0, rb)).
Proof.
  intros Hrb n.
  destruct (write_spec samples rb Hrb) as (Hw & _ & Hc & Ha & Hcont). fold n in Hw, Ha, Hcont.
  split; [exact Hw|]. split; [exact Hcont|]. split; [|split].
  - unfold free. rewrite Hc, Ha. lia.
  - intros Hfit. rewrite Hcont. f_equal. apply take_ge. unfold n. lia.
  - intros Hfull. apply Z.eqb_eq in Hfull. unfold write.
    replace (Z.min (Z.of_nat (length samples)) (free rb)) with 0 by (unfold free; lia).
    rewrite for_upto_nonpos by lia. rewrite with_available_same. reflexivity.
Qed.

(** X2: on a buffer that satisfies the invariant, [read] asked for a
    non-negative number of samples returns
    [n = min(requested, available)], copies the [n] oldest unread
    samples, oldest first, to [target[offset]], [target[offset + 1]],
    ..., leaves every other slot of the target (and its length) as it
    was, and removes those [n] samples from the buffer, keeping the
    later ones in order. *)
Theorem read_takes_oldest (target : list sample) (offset : Z) (count : option Z)
    (rb : RingBuffer) :
  rb_inv rb -> 0 <= requested target offset count ->
  let n := Z.min (requested target offset count) (available rb) in
  let '(r, target', rb') := read target offset count rb in
  r = n /\
  length target' = length target /\
  (forall j : nat, (j < length target)%nat ->
     target' !! j =
       if bool_decide (offset <= Z.of_nat j < offset + n)
       then contents rb !! Z.to_nat (Z.of_nat j - offset)
       else target !! j) /\
  contents rb' = drop (Z.to_nat n) (contents rb) /\
  available rb' = available rb - n /\
  rb_inv rb'.
Proof.
  intros Hrb Hreq n.
  pose proof (read_spec target offset count rb Hrb Hreq) as H. fold n in H.
  destruct (read target offset count rb) as [[r target'] rb'].
  destruct H as (Hr & Ht & Hi & _ & Ha & Hcont).
  pose proof (inv_avail _ Hrb) as Hav.
  assert (Hn : 0 <= n <= available rb) by (unfold n; lia).
  split; [exact Hr|]. split; [rewrite Ht; apply length_overlay|].
  split; [|split; [exact Hcont | split; [exact Ha | exact Hi]]].
  intros j Hj. rewrite Ht. unfold overlay. rewrite list_lookup_imap.
  destruct (lookup_lt_is_Some_2 target j Hj) as [y Hy]. rewrite Hy. simpl.
  case_bool_decide as Hlo.
  - case_bool_decide as Hin.
    + rewrite lookup_take_lt by lia.
      destruct (lookup_lt_is_Some_2 (contents rb) (Z.to_nat (Z.of_nat j - offset))) as [x Hx].
      { rewrite length_contents. lia. }
      rewrite Hx. reflexivity.
    + rewrite lookup_take_ge by lia. reflexivity.
  - rewrite bool_decide_eq_false_2 by lia. reflexivity.
Qed.

(** X3: no method checks its arguments.  When [read] is asked for a
    negative number of samples (a negative [count], or an [offset]
    beyond the end of the target), it copies nothing, leaves the target
    and both cursors as they were, returns that negative number and
    subtracts it from [available], which therefore grows. *)
Theorem read_negative_request (target : list sample) (offset : Z) (count : option Z)
    (rb : RingBuffer) :
  0 <= available rb -> requested target offset count < 0 ->
  let req := requested target offset count in
  read target offset count rb = (req, target, with_available (available rb - req) rb) /\
  available rb < available (snd (read target offset count rb)).
Proof.
  intros Ha Hreq req.
  assert (Heq : read target offset count rb =
                (req, target, with_available (available rb - req) rb)).
  { unfold read. fold req. rewrite Z.min_l by lia.
    rewrite for_upto_nonpos by lia. reflexivity. }
  split; [exact Heq|]. rewrite Heq. simpl. lia.
Qed.

(** X4: [readOne] on a buffer with unread samples returns the oldest
    one and removes it, exactly as [read] into a one-element target
    does; on an empty buffer it returns 0 and changes nothing. *)
Theorem readOne_is_read_of_one (y : sample) (rb : RingBuffer) :
  rb_inv rb ->
  (available rb = 0 -> readOne rb = (zero, rb)) /\
  (0 < available rb ->
     exists x rest,
       contents rb = x :: rest /\
       fst (readOne rb) = x /\
       contents (snd (readOne rb)) = rest /\
       read [y] 0 None rb = (1, [x], snd (readOne rb))).
Proof.
  intros Hrb. split.
  - intros H0. unfold readOne. rewrite H0. reflexivity.
  - intros Hpos.
    pose proof (readOne_spec rb Hrb) as H.
    assert (Hone : readOne rb =
              (f32_get (buffer rb) (readPtr rb),
               with_available (available (advance_read rb) - 1) (advance_read rb))).
    { unfold readOne. destruct (Z.eqb_spec (available rb) 0); [lia | reflexivity]. }
    rewrite Hone in H. destruct H as (_ & _ & _ & Hne).
    destruct Hne as [_ Hcont]; [lia|].
    exists (f32_get (buffer rb) (readPtr rb)),
           (contents (with_available (available (advance_read rb) - 1) (advance_read rb))).
    split; [exact Hcont|]. rewrite Hone. split; [reflexivity|]. split; [reflexivity|].
    unfold read, requested. cbn [default length].
    rewrite (Z.min_l (Z.of_nat 1 - 0)) by lia. reflexivity.
Qed.

(** X5: [peek(count)] on a buffer that satisfies the invariant throws
    for a negative [count]; otherwise it returns a new array with the
    [min(count, available)] oldest unread samples, oldest first, which
    are the samples that [read] of [count] samples then delivers. *)
Theorem peek_previews_read (count : Z) (rb : RingBuffer) :
  rb_inv rb ->
  (count < 0 -> peek count rb = None) /\
  (0 <= count ->
     let n := Z.to_nat (Z.min count (available rb)) in
     peek count rb = Some (take n (contents rb)) /\
     length (take n (contents rb)) = n /\
     forall target, length target = n ->
       snd (fst (read target 0 (Some count) rb)) = take n (contents rb)).
Proof.
  intros Hrb. pose proof (inv_avail _ Hrb) as Ha. split.
  - intros Hneg. unfold peek. rewrite Z.min_l by lia.
    destruct (Z.ltb_spec count 0); [reflexivity | lia].
  - intros Hcount n.
    assert (Htake : take (Z.to_nat count) (contents rb) = take n (contents rb)).
    { unfold n. destruct (Z.le_ge_cases count (available rb)).
      - rewrite Z.min_l by lia. reflexivity.
      - rewrite Z.min_r by lia. rewrite !take_ge; [reflexivity | |];
          rewrite length_contents; lia. }
    assert (Hlen : length (take n (contents rb)) = n).
    { rewrite length_take, length_contents. unfold n. lia. }
    split; [rewrite peek_spec by assumption; f_equal; exact Htake|].
    split; [exact Hlen|].
    intros target Htarget.
    pose proof (read_spec target 0 (Some count) rb Hrb Hcount) as H.
    destruct (read target 0 (Some count) rb) as [[r target'] rb'].
    destruct H as (_ & Ht & _). simpl. rewrite Ht.
    change (requested target 0 (Some count)) with count. fold n.
    apply overlay_all. rewrite Hlen, Htarget. reflexivity.
Qed.

(** X6: [clear] resets the cursors and the count and leaves the array
    itself untouched: on a buffer that satisfies the invariant, no
    sample is unread afterwards, the whole capacity is free, [readOne]
    returns 0, and a following [write] stores the first [capacity]
    samples of its argument and nothing else. *)
Theorem clear_discards_everything (samples : list sample) (rb : RingBuffer) :
  rb_inv rb ->
  rb_inv (clear rb) /\
  contents (clear rb) = [] /\
  free (clear rb) = capacity rb /\
  buffer (clear rb) = buffer rb /\
  readOne (clear rb) = (zero, clear rb) /\
  contents (snd (write samples (clear rb))) = take (Z.to_nat (capacity rb)) samples.
Proof.
  intros Hrb. destruct (clear_spec rb Hrb) as (Hi & Hc & Ha & Hcont).
  split; [exact Hi|]. split; [exact Hcont|].
  split; [unfold free; rewrite Hc, Ha; lia|]. split; [reflexivity|].
  split; [reflexivity|].
  destruct (write_spec samples (clear rb) Hi) as (_ & _ & _ & _ & Hw).
  rewrite Hw, Hcont. simpl app. unfold free. rewrite Hc, Ha, Z.sub_0_r.
  destruct (Z.le_ge_cases (Z.of_nat (length samples)) (capacity rb)).
  - rewrite Z.min_l by lia. rewrite !take_ge by lia. reflexivity.
  - rewrite Z.min_r by lia. reflexivity.
Qed.

(** X7: [writeOverflow] of any array, on a buffer of capacity [C] that
    satisfies the invariant, keeps the last [C] samples of the unread
    samples followed by the array, returns the number of samples that
    fell out, [max(0, available + N - C)], and leaves
    [available = min(C, available + N)]: every sample that was unread
    or is written is afterwards either unread or counted as
    overwritten. *)
Theorem writeOverflow_sliding_window (samples : list sample) (rb : RingBuffer) :
  rb_inv rb ->
  let C := capacity rb in
  let N := Z.of_nat (length samples) in
  let '(overwritten, rb') := writeOverflow samples rb in
  overwritten = Z.max 0 (available rb + N - C) /\
  available rb' = Z.min C (available rb + N) /\
  contents rb' = lastn (Z.to_nat C) (contents rb ++ samples) /\
  available rb + N = available rb' + overwritten /\
  rb_inv rb'.
Proof.
  intros Hrb C N.
  destruct (writeOverflow_spec samples rb Hrb) as (How & Hi & _ & Hav & Hcont).
  destruct (writeOverflow samples rb) as [ow rb']. simpl in How, Hi, Hav, Hcont.
  fold C N in How, Hav, Hcont.
  split; [exact How|]. split; [exact Hav|]. split; [exact Hcont|].
  split; [lia | exact Hi].
Qed.

Lemma store_loop_available samples n rb :
  let rb1 := for_upto n (fun i t => store_sample (f32_get samples i) t) rb in
  available rb1 = available rb /\ capacity rb1 = capacity rb.
Proof.
  intros rb1. subst rb1. unfold for_upto.
  generalize (Z.to_nat n) as m. intros m. generalize 0 as i. revert rb.
  induction m as [|m IH]; intros rb i; simpl; [split; reflexivity|].
  destruct (IH (store_sample (f32_get samples i) rb) (i + 1)) as [-> ->].
  split; reflexivity.
Qed.

(** X8: when the array fits into the free space, [writeOverflow]
    overwrites nothing and leaves the buffer in exactly the state that
    [write] leaves it in; no invariant is needed for this. *)
Theorem writeOverflow_fits_is_write (samples : list sample) (rb : RingBuffer) :
  Z.of_nat (length samples) <= free rb ->
  writeOverflow samples rb = (0, snd (write samples rb)).
Proof.
  intros Hfit. unfold writeOverflow, write. simpl snd.
  rewrite Z.min_l by lia.
  set (N := Z.of_nat (length samples)).
  set (store := fun i t => store_sample (f32_get samples i) t).
  set (R := fun (k : Z) (st : RingBuffer * Z) (t : RingBuffer) =>
    st = (with_available (available rb + k) t, 0) /\
    available t = available rb /\ capacity t = capacity rb).
  assert (HR : R N (for_upto N (writeOverflow_body samples) (rb, 0)) (for_upto N store rb)).
  { unfold for_upto. replace N with (0 + Z.of_nat (Z.to_nat N)) at 1 by lia.
    apply for_loop_rel.
    - unfold R. rewrite with_available_same. repeat split.
    - intros k st t Hk (-> & Ha & Hc). unfold R, store.
      split; [|split; [exact Ha | exact Hc]].
      unfold writeOverflow_body.
      change (available (with_available (available rb + k) t)) with (available rb + k).
      change (capacity (with_available (available rb + k) t)) with (capacity t).
      rewrite Hc. unfold free in Hfit.
      destruct (Z.geb_spec (available rb + k) (capacity rb)) as [Hge|_]; [lia|].
      rewrite Z.add_assoc. reflexivity. }
  destruct HR as (-> & Ha & _). rewrite Ha. reflexivity.
Qed.

(** *** The buffer as a bounded queue *)

(** The buffer after a sequence of operations. *)
Definition run (ops : list op) (rb : RingBuffer) : RingBuffer :=
  foldl (fun rb o => step o rb) rb ops.

(** The operations on a first-in first-out queue [q] that holds at most
    [cap] samples, oldest first. *)
Definition queue_step (cap : Z) (q : list sample) (o : op) : list sample :=
  match o with
  | OpWrite s => q ++ take (Z.to_nat (cap - Z.of_nat (length q))) s
  | OpWriteOverflow s => lastn (Z.to_nat cap) (q ++ s)
  | OpRead t off c => drop (Z.to_nat (requested t off c)) q
  | OpReadOne => drop 1 q
  | OpPeek _ => q
  | OpClear => []
  end.

Lemma step_queue o rb :
  rb_inv rb -> op_ok o ->
  contents (step o rb) = queue_step (capacity rb) (contents rb) o.
Proof.
  intros Hrb Hok. pose proof (inv_avail _ Hrb) as Ha.
  destruct o as [s|s|t off c| |n|]; cbn [step queue_step].
  - destruct (write_spec s rb Hrb) as (_ & _ & _ & _ & ->). f_equal.
    rewrite length_contents, Z2Nat.id by lia. fold (free rb).
    destruct (Z.le_ge_cases (Z.of_nat (length s)) (free rb)).
    + rewrite Z.min_l by lia. rewrite !take_ge by lia. reflexivity.
    + rewrite Z.min_r by lia. reflexivity.
  - destruct (writeOverflow_spec s rb Hrb) as (_ & _ & _ & _ & ->). reflexivity.
  - pose proof (read_spec t off c rb Hrb Hok) as H.
    destruct (read t off c rb) as [[r t'] rb']. simpl.
    destruct H as (_ & _ & _ & _ & _ & ->). simpl in Hok.
    destruct (Z.le_ge_cases (requested t off c) (available rb)).
    + rewrite Z.min_l by lia. reflexivity.
    + rewrite Z.min_r by lia. rewrite !drop_ge; [reflexivity | |];
        rewrite length_contents; lia.
  - pose proof (readOne_spec rb Hrb) as H.
    destruct (readOne rb) as [x rb']. simpl.
    destruct H as (_ & _ & H0 & Hne).
    destruct (Z.eq_dec (available rb) 0) as [Hz|Hnz].
    + destruct (H0 Hz) as [_ ->].
      assert (Hnil : contents rb = []).
      { apply nil_length_inv. rewrite length_contents, Hz. reflexivity. }
      rewrite Hnil. reflexivity.
    + destruct (Hne Hnz) as [_ ->]. reflexivity.
  - reflexivity.
  - reflexivity.
Qed.

(** X9: a buffer of capacity [cap > 0] is a first-in first-out queue of
    at most [cap] samples.  After any sequence of [write],
    [writeOverflow], [read], [readOne], [peek] and [clear] calls on a
    new buffer, every [read] being asked for a non-negative number of
    samples, the unread samples are what the same operations leave in
    the queue ([write] appends what fits, [writeOverflow] appends and
    keeps the last [cap], [read] and [readOne] remove from the front);
    [length] is their number; both cursors index the array, whose
    length is still [cap], and the write cursor is [available] slots
    after the read cursor, modulo [cap]. *)
Theorem ring_buffer_is_bounded_queue (cap : Z) (ops : list op) :
  0 < cap -> Forall op_ok ops ->
  let rb := run ops (new_RingBuffer cap) in
  contents rb = foldl (queue_step cap) [] ops /\
  rb_length rb = Z.of_nat (length (contents rb)) /\
  (length (contents rb) <= Z.to_nat cap)%nat /\
  rb_inv rb /\ capacity rb = cap.
Proof.
  intros Hcap Hok rb.
  assert (H : contents rb = foldl (queue_step cap) [] ops /\ rb_inv rb /\ capacity rb = cap).
  { subst rb. unfold run. revert Hok.
    induction ops as [|o ops IH] using rev_ind; intros Hok.
    - split; [reflexivity|]. split; [exact (new_RingBuffer_inv cap Hcap) | reflexivity].
    - apply Forall_app in Hok as [Hops Ho].
      inversion Ho as [|? ? Ho' _]; subst.
      rewrite !foldl_app. cbn [foldl]. destruct (IH Hops) as (IHc & IHi & IHcap).
      destruct (step_inv o _ IHi Ho') as [Hi Hc].
      rewrite step_queue by assumption. rewrite IHc, IHcap.
      split; [reflexivity|]. split; [exact Hi | congruence]. }
  destruct H as (Hq & Hi & Hc). pose proof (inv_avail _ Hi) as Ha.
  split; [exact Hq|].
  split; [unfold rb_length; rewrite length_contents; lia|].
  split; [rewrite length_contents; lia|]. split; assumption.
Qed.

End RingBuffer.

(** *** Concrete buffers of double-precision samples *)

Module RingBufferExamples.

Local Open Scope float_scope.

Abbreviation new := (new_RingBuffer (sample := float) 0).
Abbreviation write := (write nan).
Abbreviation writeOverflow := (writeOverflow nan).
Abbreviation read := (read nan).
Abbreviation trace := (trace 0 nan).

(** A buffer of capacity 4 after [write([1])]. *)
Definition one_unread : RingBuffer := snd (write [1] (new 4)).

Lemma one_unread_inv : rb_inv one_unread.
Proof. constructor; vm_compute; try split; congruence || reflexivity. Qed.

(** A full buffer of capacity 4. *)
Definition full_buffer : RingBuffer := snd (write [1; 2; 3; 4] (new 4)).

Lemma full_buffer_inv : rb_inv full_buffer.
Proof. constructor; vm_compute; try split; congruence || reflexivity. Qed.

(** C1, as stated, fails: on a fresh buffer of capacity 4,
    [write([1, 2])] followed by [read(target, 0, -5)] leaves
    [available = 7]. *)
Lemma available_exceeds_capacity :
  ~ Forall (fun rb => 0 <= available rb <= 4)%Z
      (trace [OpWrite [1; 2]; OpRead [0; 0] 0%Z (Some (-5)%Z)] (new 4)).
Proof.
  intros H. inversion H as [|? ? _ H1]; subst.
  inversion H1 as [|? ? Hbad _]; subst.
  vm_compute in Hbad. destruct Hbad as [_ Hbad]. apply Hbad. reflexivity.
Qed.

(** The amended C1 on a sequence that uses every operation. *)
Lemma available_within_capacity_witness :
  let ops := [OpWrite [1; 2; 3]; OpRead [0; 0] 0%Z None;
              OpWriteOverflow [4; 5; 6; 7; 8; 9]; OpReadOne; OpPeek 2%Z;
              OpRead [0; 0; 0] 1%Z (Some 5%Z); OpClear] in
  (0 < 4)%Z /\ Forall op_ok ops /\
  Forall (fun rb => 0 <= available rb <= 4)%Z (trace ops (new 4)).
Proof.
  intros ops.
  assert (Hcap : (0 < 4)%Z) by lia.
  assert (Hok : Forall op_ok ops) by (repeat constructor; simpl; lia).
  split; [exact Hcap|]. split; [exact Hok|].
  exact (available_within_capacity 0 nan 4 ops Hcap Hok).
Defined.

(** C2, as stated, fails on a buffer that is not empty: after
    [write([1])], [write([2])] fits into the free space and the [read]
    of one sample that follows returns [1], the older sample. *)
Lemma write_read_returns_older :
  rb_inv one_unread /\
  (Z.of_nat (length [2]) <= free one_unread)%Z /\
  let '(_, rb1) := write [2] one_unread in
  let '(_, target', _) := read [0] 0%Z None rb1 in
  target' = [1] /\ target' <> [2].
Proof.
  split; [exact one_unread_inv|]. split; [vm_compute; congruence|].
  vm_compute. split; [reflexivity | discriminate].
Qed.

(** The amended C2 on a buffer with one unread sample and on an empty
    buffer. *)
Lemma write_read_fifo_witness :
  (let '(_, rb1) := write [2; 3] one_unread in
   let '(_, target', _) := read [0; 0] 0%Z None rb1 in
   target' = [1; 2]) /\
  (let '(_, rb1) := write [2; 3] (new 4) in
   let '(_, target', _) := read [0; 0] 0%Z None rb1 in
   target' = [2; 3]).
Proof.
  split.
  - pose proof (write_read_fifo nan [2; 3] [0; 0] one_unread one_unread_inv
                  ltac:(vm_compute; congruence) eq_refl) as H.
    destruct (write [2; 3] one_unread) as [w rb1].
    destruct (read [0; 0] 0%Z None rb1) as [[r target'] rb2].
    destruct H as (_ & _ & H & _). exact H.
  - pose proof (write_read_fifo nan [2; 3] [0; 0] (new 4)
                  (new_RingBuffer_inv 0 4 ltac:(lia))
                  ltac:(vm_compute; congruence) eq_refl) as H.
    destruct (write [2; 3] (new 4)) as [w rb1].
    destruct (read [0; 0] 0%Z None rb1) as [[r target'] rb2].
    destruct H as (_ & _ & _ & H). exact (H eq_refl).
Defined.

(** A buffer of capacity 4 after [write([1, 2])] and
    [read(target, 0, -5)]: the negative count has raised [available]
    to 7. *)
Definition over_read : RingBuffer :=
  snd (read [0; 0] 0%Z (Some (-5)%Z) (snd (write [1; 2] (new 4)))).

(** C3, as stated, fails on that buffer, which does not satisfy the
    invariant: [writeOverflow] of the six samples 4 to 9 returns 6 and
    leaves [available = 7], not 4, and [peek(4)] then returns
    [8, 9, 6, 7], not the last four samples in order. *)
Lemma writeOverflow_after_negative_read :
  capacity over_read = 4%Z /\
  (capacity over_read < Z.of_nat (length [4; 5; 6; 7; 8; 9]))%Z /\
  ~ rb_inv over_read /\
  let '(overwritten, rb') := writeOverflow [4; 5; 6; 7; 8; 9] over_read in
  overwritten = 6%Z /\
  available rb' = 7%Z /\ available rb' <> capacity over_read /\
  peek 0 nan 4 rb' = Some [8; 9; 6; 7] /\
  peek 0 nan 4 rb' <> Some [6; 7; 8; 9].
Proof.
  split; [reflexivity|]. split; [vm_compute; reflexivity|]. split.
  - intros H. pose proof (inv_avail _ H) as [_ Hle]. vm_compute in Hle.
    apply Hle. reflexivity.
  - vm_compute. split; [reflexivity|]. split; [reflexivity|].
    split; [discriminate|]. split; [reflexivity | discriminate].
Qed.

(** The amended C3 on buffers of capacity 4, each given six samples:
    one with one unread sample, an empty one and a full one. *)
Lemma writeOverflow_keeps_last_witness :
  (let '(overwritten, rb') := writeOverflow [4; 5; 6; 7; 8; 9] one_unread in
   available rb' = 4%Z /\ peek 0 nan 4 rb' = Some [6; 7; 8; 9]) /\
  (let '(overwritten, rb') := writeOverflow [4; 5; 6; 7; 8; 9] (new 4) in
   overwritten = 2%Z) /\
  (let '(overwritten, rb') := writeOverflow [4; 5; 6; 7; 8; 9] full_buffer in
   overwritten = 6%Z).
Proof.
  split; [|split].
  - pose proof (writeOverflow_keeps_last 0 nan [4; 5; 6; 7; 8; 9] one_unread
                  one_unread_inv ltac:(vm_compute; congruence)) as H.
    cbv zeta in H.
    destruct (writeOverflow [4; 5; 6; 7; 8; 9] one_unread) as [ow rb'].
    destruct H as (Ha & _ & Hp & _). split; [exact Ha | exact Hp].
  - pose proof (writeOverflow_keeps_last 0 nan [4; 5; 6; 7; 8; 9] (new 4)
                  (new_RingBuffer_inv 0 4 ltac:(lia))
                  ltac:(vm_compute; congruence)) as H.
    cbv zeta in H.
    destruct (writeOverflow [4; 5; 6; 7; 8; 9] (new 4)) as [ow rb'].
    destruct H as (_ & _ & _ & H & _). exact (H eq_refl).
  - pose proof (writeOverflow_keeps_last 0 nan [4; 5; 6; 7; 8; 9] full_buffer
                  full_buffer_inv ltac:(vm_compute; congruence)) as H.
    cbv zeta in H.
    destruct (writeOverflow [4; 5; 6; 7; 8; 9] full_buffer) as [ow rb'].
    destruct H as (_ & _ & _ & _ & H). exact (H eq_refl).
Defined.

End RingBufferExamples.

(** *** The methods on concrete buffers *)

Module RingBufferCases.

Import RingBufferExamples.

Local Open Scope float_scope.

(** X1 on a buffer of capacity 4 with one unread sample: of five
    samples, three are written. *)
Lemma write_appends_what_fits_witness :
  rb_inv one_unread /\
  fst (write [2; 3; 4; 5; 6] one_unread) = 3%Z /\
  contents nan (snd (write [2; 3; 4; 5; 6] one_unread)) = [1; 2; 3; 4].
Proof.
  split; [exact one_unread_inv|].
  destruct (write_appends_what_fits nan [2; 3; 4; 5; 6] one_unread one_unread_inv)
    as (Hn & Hc & _).
  split; [exact Hn | exact Hc].
Defined.

(** X2 on a full buffer: two samples read into the middle of a target
    of five. *)
Lemma read_takes_oldest_witness :
  rb_inv full_buffer /\
  (0 <= requested [0; 0; 0; 0; 0] 1 (Some 2))%Z /\
  let '(r, target', rb') := read [0; 0; 0; 0; 0] 1%Z (Some 2%Z) full_buffer in
  r = 2%Z /\ target' !! 1%nat = Some 1 /\ target' !! 3%nat = Some 0 /\
  contents nan rb' = [3; 4].
Proof.
  assert (Hreq : (0 <= requested [0; 0; 0; 0; 0] 1 (Some 2))%Z) by (vm_compute; congruence).
  split; [exact full_buffer_inv|]. split; [exact Hreq|].
  pose proof (read_takes_oldest nan [0; 0; 0; 0; 0] 1%Z (Some 2%Z) full_buffer
                full_buffer_inv Hreq) as H.
  cbv zeta in H.
  destruct (read [0; 0; 0; 0; 0] 1%Z (Some 2%Z) full_buffer) as [[r target'] rb'].
  destruct H as (Hr & _ & Ht & Hc & _).
  split; [exact Hr|].
  split; [exact (Ht 1%nat ltac:(simpl; lia))|].
  split; [exact (Ht 3%nat ltac:(simpl; lia)) | exact Hc].
Defined.

(** X3 on a buffer with one unread sample: [read(target, 0, -5)]. *)
Lemma read_negative_request_witness :
  (0 <= available one_unread)%Z /\
  (requested [0; 0] 0 (Some (-5)) < 0)%Z /\
  read [0; 0] 0%Z (Some (-5)%Z) one_unread =
    ((-5)%Z, [0; 0], with_available 6 one_unread).
Proof.
  assert (Ha : (0 <= available one_unread)%Z) by (vm_compute; congruence).
  assert (Hreq : (requested [0; 0] 0 (Some (-5)) < 0)%Z) by reflexivity.
  split; [exact Ha|]. split; [exact Hreq|].
  exact (proj1 (read_negative_request nan [0; 0] 0%Z (Some (-5)%Z) one_unread Ha Hreq)).
Defined.

(** X4 on a buffer with one unread sample. *)
Lemma readOne_is_read_of_one_witness :
  rb_inv one_unread /\ (0 < available one_unread)%Z /\
  read [0] 0%Z None one_unread = (1%Z, [1], snd (readOne 0 nan one_unread)).
Proof.
  assert (Ha : (0 < available one_unread)%Z) by reflexivity.
  split; [exact one_unread_inv|]. split; [exact Ha|].
  destruct (proj2 (readOne_is_read_of_one 0 nan 0 one_unread one_unread_inv) Ha)
    as (x & rest & Hc & _ & _ & Hr).
  injection Hc as <- _. exact Hr.
Defined.

(** X5 on a full buffer. *)
Lemma peek_previews_read_witness :
  rb_inv full_buffer /\ (0 <= 2)%Z /\
  peek 0 nan 2 full_buffer = Some [1; 2] /\
  snd (fst (read [0; 0] 0%Z (Some 2%Z) full_buffer)) = [1; 2].
Proof.
  assert (H2 : (0 <= 2)%Z) by lia.
  split; [exact full_buffer_inv|]. split; [exact H2|].
  destruct (proj2 (peek_previews_read 0 nan 2 full_buffer full_buffer_inv) H2)
    as (Hp & _ & Hr).
  split; [exact Hp | exact (Hr [0; 0] eq_refl)].
Defined.

(** X6 on a full buffer. *)
Lemma clear_discards_everything_witness :
  rb_inv full_buffer /\
  contents nan (clear full_buffer) = [] /\
  contents nan (snd (write [7; 8; 9; 10; 11] (clear full_buffer))) = [7; 8; 9; 10].
Proof.
  split; [exact full_buffer_inv|].
  destruct (clear_discards_everything 0 nan [7; 8; 9; 10; 11] full_buffer full_buffer_inv)
    as (_ & Hc & _ & _ & _ & Hw).
  split; [exact Hc | exact Hw].
Defined.

(** X7 on a buffer of capacity 4 with one unread sample: two samples
    fit, four push the oldest sample out. *)
Lemma writeOverflow_sliding_window_witness :
  rb_inv one_unread /\
  (let '(overwritten, rb') := writeOverflow [2; 3] one_unread in
   overwritten = 0%Z /\ contents nan rb' = [1; 2; 3]) /\
  (let '(overwritten, rb') := writeOverflow [2; 3; 4; 5] one_unread in
   overwritten = 1%Z /\ contents nan rb' = [2; 3; 4; 5]).
Proof.
  split; [exact one_unread_inv|]. split.
  - pose proof (writeOverflow_sliding_window nan [2; 3] one_unread one_unread_inv) as H.
    cbv zeta in H. destruct (writeOverflow [2; 3] one_unread) as [ow rb'].
    destruct H as (How & _ & Hc & _). split; [exact How | exact Hc].
  - pose proof (writeOverflow_sliding_window nan [2; 3; 4; 5] one_unread one_unread_inv) as H.
    cbv zeta in H. destruct (writeOverflow [2; 3; 4; 5] one_unread) as [ow rb'].
    destruct H as (How & _ & Hc & _). split; [exact How | exact Hc].
Defined.

(** X8 on a buffer with three free slots. *)
Lemma writeOverflow_fits_is_write_witness :
  (Z.of_nat (length [2; 3]) <= free one_unread)%Z /\
  writeOverflow [2; 3] one_unread = (0%Z, snd (write [2; 3] one_unread)).
Proof.
  assert (Hfit : (Z.of_nat (length [2; 3]) <= free one_unread)%Z) by (vm_compute; congruence).
  split; [exact Hfit|].
  exact (writeOverflow_fits_is_write nan [2; 3] one_unread Hfit).
Defined.

(** X9 on a sequence that uses every operation. *)
Lemma ring_buffer_is_bounded_queue_witness :
  let ops := [OpWrite [1; 2; 3]; OpRead [0; 0] 0%Z None;
              OpWriteOverflow [4; 5; 6; 7; 8; 9]; OpReadOne; OpPeek 2%Z;
              OpRead [0; 0; 0] 1%Z (Some 1%Z); OpClear; OpWrite [10; 11]] in
  (0 < 4)%Z /\ Forall op_ok ops /\
  contents nan (run 0 nan ops (new 4)) = [10; 11].
Proof.
  intros ops.
  assert (Hcap : (0 < 4)%Z) by lia.
  assert (Hok : Forall op_ok ops) by (repeat constructor; simpl; lia).
  split; [exact Hcap|]. split; [exact Hok|].
  exact (proj1 (ring_buffer_is_bounded_queue 0 nan 4 ops Hcap Hok)).
Defined.

End RingBufferCases.

(** ** Viseme tables ([src/core/visemes.js]) *)

Local Open Scope string_scope.

Record ExtendedViseme := mkExtendedViseme {
  ev_label : string;
  ev_description : string
}.

Definition EXTENDED_VISEMES : list (string * ExtendedViseme) := [
  ("sil", mkExtendedViseme "Silent" "Mouth closed, neutral");
  ("PP", mkExtendedViseme "P/B/M" "Lips pressed together");
  ("FF", mkExtendedViseme "F/V" "Lower lip to upper teeth");
  ("TH", mkExtendedViseme "TH" "Tongue between teeth");
  ("DD", mkExtendedViseme "D/T/N/L" "Tongue to upper palate");
  ("kk", mkExtendedViseme "K/G" "Back of tongue raised");
  ("CH", mkExtendedViseme "CH/SH/J" "Lips pursed forward");
  ("SS", mkExtendedViseme "S/Z" "Teeth close, slight smile");
  ("nn", mkExtendedViseme "N/NG" "Mouth slightly open, nasal");
  ("RR", mkExtendedViseme "R" "Lips slightly rounded");
  ("aa", mkExtendedViseme "AA/AH" "Wide open mouth");
  ("E", mkExtendedViseme "EH/AE" "Mouth open, slight smile");
  ("I", mkExtendedViseme "IH/IY" "Small opening, smile");
  ("O", mkExtendedViseme "OH/AO" "Rounded, medium open");
  ("U", mkExtendedViseme "UW/OW" "Small rounded opening")
].

(** [Object.keys(EXTENDED_VISEMES)] *)
Definition EXTENDED_VISEME_KEYS : list string := EXTENDED_VISEMES.*1.

Record SimpleViseme := mkSimpleViseme {
  sv_label : string;
  extendedMap : list string
}.

Definition SIMPLE_VISEMES : list (string * SimpleViseme) := [
  ("A", mkSimpleViseme "Rest / M/B/P closed" ["sil"]);
  ("B", mkSimpleViseme "M / B / P" ["PP"; "nn"]);
  ("C", mkSimpleViseme "EE / S / soft sounds" ["E"; "I"; "SS"]);
  ("D", mkSimpleViseme "AH / wide open" ["aa"; "DD"; "kk"]);
  ("E", mkSimpleViseme "OH / round" ["O"; "RR"; "CH"]);
  ("F", mkSimpleViseme "OO / F / V / tight" ["FF"; "TH"; "U"])
].

(** [Object.keys(SIMPLE_VISEMES)] *)
Definition SIMPLE_VISEME_KEYS : list string := SIMPLE_VISEMES.*1.

(** The table filled by the two nested loops over
    [Object.entries(SIMPLE_VISEMES)] and each [def.extendedMap]:
    [EXTENDED_TO_SIMPLE[ext] = simpleKey]. *)
Definition EXTENDED_TO_SIMPLE : gmap string string :=
  foldl (fun tbl '(simpleKey, def) =>
           foldl (fun tbl ext => <[ext := simpleKey]> tbl) tbl (extendedMap def))
        ∅ SIMPLE_VISEMES.

Local Close Scope string_scope.

(** ** JavaScript numbers *)

Class Number (num : Type) := {
  (** a decimal literal of the source *)
  lit : Q -> num;
  nadd : num -> num -> num;
  nsub : num -> num -> num;
  nmul : num -> num -> num;
  ndiv : num -> num -> num;
  (** [Math.abs] and [Math.min] *)
  nabs : num -> num;
  nmin : num -> num -> num;
  (** [x < y] *)
  nltb : num -> num -> bool;
  (** [!x]: the number is falsy (a zero or NaN) *)
  nfalsy : num -> bool
}.

Arguments lit {num _} _%_Q.

Declare Scope js_scope.
Delimit Scope js_scope with js.
Notation "x + y" := (nadd x y) : js_scope.
Notation "x - y" := (nsub x y) : js_scope.
Notation "x * y" := (nmul x y) : js_scope.
Notation "x / y" := (ndiv x y) : js_scope.
Notation "x < y" := (nltb x y) : js_scope.
Notation "x > y" := (nltb y x) : js_scope.

(** [x || 0] *)
Definition or_zero {num : Type} `{Number num} (x : num) : num :=
  if nfalsy x then lit 0 else x.

(** IEEE 754 binary64.  The quotient of two integers below [2^53] is
    the double nearest to the fraction, which is the value of the
    decimal literal (the literals of the source are not negative). *)
Definition float_lit (q : Q) : float :=
  (PrimFloat.of_uint63 (Uint63.of_Z (Qnum q)) /
   PrimFloat.of_uint63 (Uint63.of_Z (Z.pos (Qden q))))%float.

(** [Math.min]: NaN when an argument is NaN, and [-0] below [+0]. *)
Definition float_min (x y : float) : float :=
  if PrimFloat.is_nan x || PrimFloat.is_nan y then PrimFloat.nan
  else if PrimFloat.ltb x y then x
  else if PrimFloat.ltb y x then y
  else match PrimFloat.classify x with PZero => y | _ => x end.

Definition float_falsy (x : float) : bool :=
  PrimFloat.eqb x 0%float || PrimFloat.is_nan x.

#[export] Instance float_Number : Number float := {
  lit := float_lit;
  nadd := PrimFloat.add;
  nsub := PrimFloat.sub;
  nmul := PrimFloat.mul;
  ndiv := PrimFloat.div;
  nabs := PrimFloat.abs;
  nmin := float_min;
  nltb := PrimFloat.ltb;
  nfalsy := float_falsy
}.

(** Exact rational arithmetic. *)
Definition Qltb (x y : Q) : bool := negb (Qle_bool y x).

#[export] Instance Q_Number : Number Q := {
  lit := fun q => q;
  nadd := Qplus;
  nsub := Qminus;
  nmul := Qmult;
  ndiv := Qdiv;
  nabs := Qabs;
  nmin := Qmin;
  nltb := Qltb;
  nfalsy := fun x => Qeq_bool x 0
}.

(** ** FrequencyAnalyzer ([src/utils/EventEmitter.js]) *)

Section FrequencyAnalyzer.

Context {num : Type} `{Number num}.

(** [smoothValue] and [clamp] are imported from [utils/audio-utils.js],
    which is not among the sources: the analyzer is modelled for any
    such pair of functions. *)
Variable smoothValue : num -> num -> num -> num.
Variable clamp : num -> num -> num -> num.

Local Open Scope string_scope.
Local Open Scope js_scope.

Record Bands := mkBands {
  sub : num;
  low : num;
  mid : num;
  high : num;
  veryHigh : num
}.

Record Shape := mkShape {
  open : num;
  width : num;
  round : num
}.

Definition VISEME_SHAPES : gmap string Shape := list_to_map [
  ("sil", mkShape (lit 0.00) (lit 0.50) (lit 0.0));
  ("PP", mkShape (lit 0.00) (lit 0.40) (lit 0.0));
  ("FF", mkShape (lit 0.05) (lit 0.55) (lit 0.0));
  ("TH", mkShape (lit 0.10) (lit 0.50) (lit 0.0));
  ("DD", mkShape (lit 0.20) (lit 0.50) (lit 0.0));
  ("kk", mkShape (lit 0.25) (lit 0.45) (lit 0.0));
  ("CH", mkShape (lit 0.15) (lit 0.35) (lit 0.6));
  ("SS", mkShape (lit 0.05) (lit 0.60) (lit 0.0));
  ("nn", mkShape (lit 0.15) (lit 0.50) (lit 0.0));
  ("RR", mkShape (lit 0.20) (lit 0.40) (lit 0.4));
  ("aa", mkShape (lit 0.90) (lit 0.60) (lit 0.0));
  ("E", mkShape (lit 0.50) (lit 0.65) (lit 0.0));
  ("I", mkShape (lit 0.25) (lit 0.70) (lit 0.0));
  ("O", mkShape (lit 0.60) (lit 0.40) (lit 0.8));
  ("U", mkShape (lit 0.20) (lit 0.30) (lit 0.9))
].

(** [VISEME_SHAPES.sil] *)
Definition VISEME_SHAPES_sil : Shape := mkShape (lit 0.00) (lit 0.50) (lit 0.0).

Definition TRANSITION_WEIGHTS : gmap string (gmap string num) := list_to_map [
  ("sil", list_to_map [("aa", lit 0.3); ("E", lit 0.3); ("I", lit 0.3); ("O", lit 0.3);
                       ("U", lit 0.3); ("PP", lit 0.2); ("FF", lit 0.2)]);
  ("aa", list_to_map [("sil", lit 0.4); ("E", lit 0.5); ("O", lit 0.6); ("I", lit 0.5);
                      ("PP", lit 0.3); ("SS", lit 0.3)]);
  ("PP", list_to_map [("aa", lit 0.2); ("sil", lit 0.2); ("E", lit 0.3); ("FF", lit 0.4)]);
  ("FF", list_to_map [("aa", lit 0.3); ("PP", lit 0.4); ("sil", lit 0.2)]);
  ("SS", list_to_map [("sil", lit 0.2); ("aa", lit 0.3); ("CH", lit 0.6)])
].

(** [TRANSITION_WEIGHTS[from]?.[to] ?? 0.35] *)
Definition getTransitionWeight (from to : string) : num :=
  match TRANSITION_WEIGHTS !! from with
  | Some row => default (lit 0.35) (row !! to)
  | None => lit 0.35
  end.

(** The options the analyzer reads; [fftSize] and [energySmoothing]
    only configure the analyser node. *)
Record Options := mkOptions {
  fftSize : Z;
  silenceThreshold : num;
  smoothingFactor : num;
  holdFrames : Z;
  intensitySmoothing : num;
  energySmoothing : num
}.

Definition DEFAULTS : Options :=
  mkOptions 256 (lit 0.015) (lit 0.35) 2 (lit 0.2) (lit 0.5).

(** The analyzer object: its options and its state. *)
Record FrequencyAnalyzer := mkFrequencyAnalyzer {
  opts : Options;
  _currentViseme : string;
  _currentIntensity : num;
  _holdCounter : Z;
  _smoothedAmplitude : num;
  _smoothedBands : Bands;
  _previousViseme : string;
  _transitionProgress : num;
  _frameCount : Z
}.

Definition zero_bands : Bands := mkBands (lit 0) (lit 0) (lit 0) (lit 0) (lit 0).

(** The state the constructor sets up; [options] is the merged
    [{ ...DEFAULTS, ...options }]. *)
Definition new_FrequencyAnalyzer (options : Options) : FrequencyAnalyzer :=
  mkFrequencyAnalyzer options "sil" (lit 0) 0 (lit 0) zero_bands "sil" (lit 1) 0.

(** An assignment to one field of the state: [this._x = v]. *)
Definition with_currentViseme (v : string) (this : FrequencyAnalyzer) : FrequencyAnalyzer :=
  mkFrequencyAnalyzer (opts this) v (_currentIntensity this) (_holdCounter this)
    (_smoothedAmplitude this) (_smoothedBands this) (_previousViseme this)
    (_transitionProgress this) (_frameCount this).

Definition with_currentIntensity (x : num) (this : FrequencyAnalyzer) : FrequencyAnalyzer :=
  mkFrequencyAnalyzer (opts this) (_currentViseme this) x (_holdCounter this)
    (_smoothedAmplitude this) (_smoothedBands this) (_previousViseme this)
    (_transitionProgress this) (_frameCount this).

Definition with_holdCounter (n : Z) (this : FrequencyAnalyzer) : FrequencyAnalyzer :=
  mkFrequencyAnalyzer (opts this) (_currentViseme this) (_currentIntensity this) n
    (_smoothedAmplitude this) (_smoothedBands this) (_previousViseme this)
    (_transitionProgress this) (_frameCount this).

Definition with_smoothedAmplitude (x : num) (this : FrequencyAnalyzer) : FrequencyAnalyzer :=
  mkFrequencyAnalyzer (opts this) (_currentViseme this) (_currentIntensity this)
    (_holdCounter this) x (_smoothedBands this) (_previousViseme this)
    (_transitionProgress this) (_frameCount this).

Definition with_smoothedBands (b : Bands) (this : FrequencyAnalyzer) : FrequencyAnalyzer :=
  mkFrequencyAnalyzer (opts this) (_currentViseme this) (_currentIntensity this)
    (_holdCounter this) (_smoothedAmplitude this) b (_previousViseme this)
    (_transitionProgress this) (_frameCount this).

Definition with_previousViseme (v : string) (this : FrequencyAnalyzer) : FrequencyAnalyzer :=
  mkFrequencyAnalyzer (opts this) (_currentViseme this) (_currentIntensity this)
    (_holdCounter this) (_smoothedAmplitude this) (_smoothedBands this) v
    (_transitionProgress this) (_frameCount this).

Definition with_transitionProgress (x : num) (this : FrequencyAnalyzer) : FrequencyAnalyzer :=
  mkFrequencyAnalyzer (opts this) (_currentViseme this) (_currentIntensity this)
    (_holdCounter this) (_smoothedAmplitude this) (_smoothedBands this)
    (_previousViseme this) x (_frameCount this).

Definition with_frameCount (n : Z) (this : FrequencyAnalyzer) : FrequencyAnalyzer :=
  mkFrequencyAnalyzer (opts this) (_currentViseme this) (_currentIntensity this)
    (_holdCounter this) (_smoothedAmplitude this) (_smoothedBands this)
    (_previousViseme this) (_transitionProgress this) n.

(** [reset()]: its eight assignments, in the order of the source.  The
    options, the analyser node and the two data arrays are left as they
    are. *)
Definition reset (this : FrequencyAnalyzer) : FrequencyAnalyzer :=
  let this := with_currentViseme "sil" this in
  let this := with_currentIntensity (lit 0) this in
  let this := with_holdCounter 0 this in
  let this := with_smoothedAmplitude (lit 0) this in
  let this :=
    with_smoothedBands (mkBands (lit 0) (lit 0) (lit 0) (lit 0) (lit 0)) this in
  let this := with_previousViseme "sil" this in
  let this := with_transitionProgress (lit 1) this in
  with_frameCount 0 this.

Record Transition := mkTransition {
  from : string;
  to : string;
  progress : num
}.

Record VisemeFrame := mkVisemeFrame {
  viseme : string;
  simpleViseme : string;
  intensity : num;
  confidence : num;
  amplitude : num;
  bands : Bands;
  shape : Shape;
  transition : Transition;
  frame : Z
}.

(** What [calculateRMS] and [extractBandEnergies] (also from
    [utils/audio-utils.js]) return for the analyser node's data of one
    analysis cycle. *)
Record AudioFrame := mkAudioFrame {
  rawAmplitude : num;
  rawBands : Bands
}.

Definition totalEnergy (b : Bands) : num :=
  sub b + low b + mid b + high b + veryHigh b.

Definition sibilantScore (b : Bands) : num :=
  (high b + veryHigh b) / (totalEnergy b + lit 0.001).

Definition fricativeScore (b : Bands) : num :=
  (mid b + high b) / (totalEnergy b + lit 0.001).

Definition flatness (b : Bands) : num :=
  lit 1 - nabs (high b - low b) / (totalEnergy b + lit 0.001).

(** [_classifyViseme(bands, intensity)]: the proposed label and its
    confidence. *)
Definition _classifyViseme (this : FrequencyAnalyzer) (bands : Bands)
    (intensity : num) : string * num :=
  let '(mkBands sub low mid high veryHigh) := bands in
  if totalEnergy bands < lit 0.01 then ("sil", lit 0.9)
  else if (sibilantScore bands > lit 0.55) && (high > lit 0.15) then
    if veryHigh > high * lit 0.8 then ("SS", sibilantScore bands)
    else ("CH", sibilantScore bands * lit 0.85)
  else if (fricativeScore bands > lit 0.5) && (high > lit 0.1) && (low < lit 0.15) then
    ("FF", fricativeScore bands * lit 0.8)
  else if (intensity > lit 0.6) && (flatness bands > lit 0.7)
          && (_smoothedAmplitude this > lit 0.08) then
    if low > mid then ("PP", lit 0.6) else ("DD", lit 0.6)
  else if (sub > lit 0.2) && (low > lit 0.15) && (high < lit 0.08)
          && (mid < low * lit 0.7) then
    ("nn", lit 0.65)
  else if (low > lit 0.2) && (mid > lit 0.15) && (intensity > lit 0.5) then
    ("aa", lit 0.7)
  else if (mid > low) && (mid > lit 0.15) && (intensity > lit 0.3) then
    ("E", lit 0.65)
  else if (sub > mid) && (low > mid) && (intensity > lit 0.3) then
    ("O", lit 0.6)
  else if (mid > lit 0.1) && (high > low * lit 0.5) && (intensity > lit 0.2) then
    ("I", lit 0.55)
  else if (sub > lit 0.15) && (high < lit 0.05) then
    ("U", lit 0.5)
  else if intensity > lit 0.5 then ("aa", lit 0.4)
  else if intensity > lit 0.3 then ("E", lit 0.35)
  else if intensity > lit 0.15 then ("I", lit 0.3)
  else ("sil", lit 0.5).

(** [VISEME_SHAPES[v] || VISEME_SHAPES.sil] *)
Definition shape_of (v : string) : Shape :=
  default VISEME_SHAPES_sil (VISEME_SHAPES !! v).

(** [a + (b - a) * t] *)
Definition lerp (a b t : num) : num := a + (b - a) * t.

(** [_emitViseme(viseme, intensity, bands, confidence = 0.5)]: the
    frame and the analyzer after the call; [confidence] is [None] when
    the caller omits it. *)
Definition _emitViseme (this : FrequencyAnalyzer) (viseme : string)
    (intensity : num) (bands : Bands) (confidence : option num)
    : VisemeFrame * FrequencyAnalyzer :=
  let confidence := default (lit 0.5) confidence in
  let '(previousViseme, currentViseme, transitionProgress) :=
    if bool_decide (viseme <> _currentViseme this)
    then (_currentViseme this, viseme, lit 0)
    else
      let weight := getTransitionWeight (_previousViseme this) (_currentViseme this) in
      (_previousViseme this, _currentViseme this,
       nmin (lit 1) (_transitionProgress this + (lit 1 - weight) * lit 0.3)) in
  let currentIntensity :=
    smoothValue (_currentIntensity this) intensity (intensitySmoothing (opts this)) in
  let this' :=
    mkFrequencyAnalyzer (opts this) currentViseme currentIntensity
      (_holdCounter this) (_smoothedAmplitude this) (_smoothedBands this)
      previousViseme transitionProgress (_frameCount this) in
  let prevShape := shape_of previousViseme in
  let currShape := shape_of currentViseme in
  let t := transitionProgress in
  (mkVisemeFrame currentViseme
     (default "A" (EXTENDED_TO_SIMPLE !! currentViseme))
     currentIntensity confidence (_smoothedAmplitude this') (_smoothedBands this')
     (mkShape (lerp (open prevShape) (open currShape) t)
              (lerp (width prevShape) (width currShape) t)
              (lerp (round prevShape) (round currShape) t))
     (mkTransition previousViseme currentViseme transitionProgress)
     (_frameCount this'),
   this').

(** The hold-off block that ends [analyze()], for the proposal
    [(viseme, confidence)] of the classifier. *)
Definition holdOff (this : FrequencyAnalyzer) (viseme : string) (confidence : num)
    (intensity : num) (bands : Bands) : VisemeFrame * FrequencyAnalyzer :=
  if bool_decide (viseme <> _currentViseme this) then
    let this1 := with_holdCounter (_holdCounter this + 1) this in
    if (_holdCounter this1 <? holdFrames (opts this1))%Z then
      _emitViseme this1 (_currentViseme this1) intensity bands None
    else
      _emitViseme (with_holdCounter 0 this1) viseme intensity bands (Some confidence)
  else
    _emitViseme (with_holdCounter 0 this) viseme intensity bands (Some confidence).

(** The smoothing loop over [Object.keys(rawBands)], the five bands. *)
Definition smooth_bands (factor : num) (smoothed raw : Bands) : Bands :=
  mkBands (smoothValue (or_zero (sub smoothed)) (sub raw) factor)
          (smoothValue (or_zero (low smoothed)) (low raw) factor)
          (smoothValue (or_zero (mid smoothed)) (mid raw) factor)
          (smoothValue (or_zero (high smoothed)) (high raw) factor)
          (smoothValue (or_zero (veryHigh smoothed)) (veryHigh raw) factor).

(** The analyzer after the first half of [analyze()]: frame counter
    incremented, amplitude and bands smoothed. *)
Definition smooth (this : FrequencyAnalyzer) (input : AudioFrame) : FrequencyAnalyzer :=
  let factor := smoothingFactor (opts this) in
  mkFrequencyAnalyzer (opts this) (_currentViseme this) (_currentIntensity this)
    (_holdCounter this)
    (smoothValue (_smoothedAmplitude this) (rawAmplitude input) factor)
    (smooth_bands factor (_smoothedBands this) (rawBands input))
    (_previousViseme this) (_transitionProgress this) (_frameCount this + 1).

(** [analyze()] *)
Definition analyze (this : FrequencyAnalyzer) (input : AudioFrame)
    : VisemeFrame * FrequencyAnalyzer :=
  let this := smooth this input in
  let bands := _smoothedBands this in
  if _smoothedAmplitude this < silenceThreshold (opts this) then
    _emitViseme this "sil" (lit 0) bands None
  else
    let intensity := clamp (_smoothedAmplitude this * lit 3) (lit 0) (lit 1) in
    let '(viseme, confidence) := _classifyViseme this bands intensity in
    holdOff this viseme confidence intensity bands.

(** *** What [_emitViseme] does to the state and puts into the frame *)

Lemma emit_current this v i b c :
  _currentViseme (snd (_emitViseme this v i b c)) = v.
Proof. unfold _emitViseme. case_bool_decide as Hv; simpl; [reflexivity | congruence]. Qed.

Lemma emit_viseme this v i b c : viseme (fst (_emitViseme this v i b c)) = v.
Proof. unfold _emitViseme. case_bool_decide as Hv; simpl; [reflexivity | congruence]. Qed.

Lemma emit_confidence this v i b c :
  confidence (fst (_emitViseme this v i b c)) = default (lit 0.5) c.
Proof. unfold _emitViseme. case_bool_decide; reflexivity. Qed.

Lemma emit_holdCounter this v i b c :
  _holdCounter (snd (_emitViseme this v i b c)) = _holdCounter this.
Proof. unfold _emitViseme. case_bool_decide; reflexivity. Qed.

Lemma emit_opts this v i b c : opts (snd (_emitViseme this v i b c)) = opts this.
Proof. unfold _emitViseme. case_bool_decide; reflexivity. Qed.

(** *** The silence gate *)

(** C4 (amended): when the amplitude smoothed in this cycle is below
    [silenceThreshold], [analyze()] returns what
    [_emitViseme('sil', 0, bands)] returns on the smoothed state: a frame
    whose viseme is ['sil'] and whose confidence is the default [0.5] of
    [_emitViseme] (the [0] passed is the intensity); neither the
    classifier nor the hold-off runs, and the hold counter is left as it
    was. *)
Theorem silence_gate (this : FrequencyAnalyzer) (input : AudioFrame) :
  let this1 := smooth this input in
  nltb (_smoothedAmplitude this1) (silenceThreshold (opts this)) = true ->
  analyze this input = _emitViseme this1 "sil" (lit 0) (_smoothedBands this1) None /\
  viseme (fst (analyze this input)) = "sil" /\
  confidence (fst (analyze this input)) = lit 0.5 /\
  _holdCounter (snd (analyze this input)) = _holdCounter this.
Proof.
  intros this1 Hgate.
  assert (Heq : analyze this input =
                _emitViseme this1 "sil" (lit 0) (_smoothedBands this1) None).
  { unfold analyze. fold this1.
    change (opts this1) with (opts this). rewrite Hgate. reflexivity. }
  rewrite Heq, emit_viseme, emit_confidence, emit_holdCounter.
  repeat split.
Qed.

(** *** The hold-off *)

Lemma analyze_above_gate this input :
  let this1 := smooth this input in
  let intensity := clamp (_smoothedAmplitude this1 * lit 3) (lit 0) (lit 1) in
  let proposal := _classifyViseme this1 (_smoothedBands this1) intensity in
  nltb (_smoothedAmplitude this1) (silenceThreshold (opts this)) = false ->
  analyze this input =
  holdOff this1 (fst proposal) (snd proposal) intensity (_smoothedBands this1).
Proof.
  intros this1 intensity proposal Hgate. unfold analyze. fold this1.
  change (opts this1) with (opts this). rewrite Hgate.
  fold intensity. fold proposal. destruct proposal; reflexivity.
Qed.

Lemma holdOff_spec this v c i b :
  let cur := _currentViseme this in
  let n := _holdCounter this in
  let frame := fst (holdOff this v c i b) in
  let this' := snd (holdOff this v c i b) in
  (v <> cur -> (n + 1 < holdFrames (opts this))%Z ->
     _holdCounter this' = (n + 1)%Z /\ _currentViseme this' = cur /\
     viseme frame = cur) /\
  (v <> cur -> (holdFrames (opts this) <= n + 1)%Z ->
     _holdCounter this' = 0%Z /\ _currentViseme this' = v /\
     viseme frame = v /\ confidence frame = c) /\
  (v = cur -> _holdCounter this' = 0%Z /\ _currentViseme this' = cur).
Proof.
  intros cur n frame this'. unfold frame, this', holdOff.
  case_bool_decide as Hv; simpl.
  - destruct (Z.ltb_spec (_holdCounter this + 1) (holdFrames (opts this))) as [Hlt|Hge].
    + rewrite emit_holdCounter, emit_current, emit_viseme. simpl.
      split; [auto|]. split; [intros; unfold n in *; lia | intros; contradiction].
    + rewrite emit_holdCounter, emit_current, emit_viseme, emit_confidence. simpl.
      split; [intros; unfold n in *; lia|]. split; [auto | intros; contradiction].
  - rewrite emit_holdCounter, emit_current. simpl.
    split; [intros; contradiction|]. split; [intros; contradiction | auto].
Qed.

(** C6: above the silence gate, when the label proposed by the
    classifier differs from the held label the hold counter is
    incremented and, while it is below [holdFrames], the held label is
    kept; when the incremented counter reaches [holdFrames] the label
    switches to the proposal and the counter is reset to zero; and when
    the proposal equals the held label the counter is reset to zero. *)
Theorem holdoff_rule (this : FrequencyAnalyzer) (input : AudioFrame) :
  let this1 := smooth this input in
  let intensity := clamp (_smoothedAmplitude this1 * lit 3) (lit 0) (lit 1) in
  let proposal := _classifyViseme this1 (_smoothedBands this1) intensity in
  let cur := _currentViseme this in
  let n := _holdCounter this in
  let frame := fst (analyze this input) in
  let this' := snd (analyze this input) in
  nltb (_smoothedAmplitude this1) (silenceThreshold (opts this)) = false ->
  (fst proposal <> cur -> (n + 1 < holdFrames (opts this))%Z ->
     _holdCounter this' = (n + 1)%Z /\ _currentViseme this' = cur /\
     viseme frame = cur) /\
  (fst proposal <> cur -> (holdFrames (opts this) <= n + 1)%Z ->
     _holdCounter this' = 0%Z /\ _currentViseme this' = fst proposal /\
     viseme frame = fst proposal /\ confidence frame = snd proposal) /\
  (fst proposal = cur -> _holdCounter this' = 0%Z /\ _currentViseme this' = cur).
Proof.
  intros this1 intensity proposal cur n frame this' Hgate.
  unfold frame, this'. rewrite (analyze_above_gate this input Hgate).
  fold this1. fold intensity. fold proposal.
  exact (holdOff_spec this1 (fst proposal) (snd proposal) intensity (_smoothedBands this1)).
Qed.

(** A cycle above the silence gate, given by what the classifier
    proposes in it. *)
Record Proposal := mkProposal {
  p_viseme : string;
  p_confidence : num;
  p_intensity : num;
  p_bands : Bands
}.

Definition hold_cycle (this : FrequencyAnalyzer) (p : Proposal) : FrequencyAnalyzer :=
  snd (holdOff this (p_viseme p) (p_confidence p) (p_intensity p) (p_bands p)).

(** The analyzer after a sequence of such cycles. *)
Definition hold_run (ps : list Proposal) (this : FrequencyAnalyzer) : FrequencyAnalyzer :=
  foldl hold_cycle this ps.

Lemma hold_run_snoc ps p this :
  hold_run (ps ++ [p])%list this = hold_cycle (hold_run ps this) p.
Proof. unfold hold_run. rewrite foldl_app. reflexivity. Qed.

Lemma hold_cycle_opts this p : opts (hold_cycle this p) = opts this.
Proof.
  unfold hold_cycle, holdOff. case_bool_decide; [|rewrite emit_opts; reflexivity].
  destruct (_ <? _)%Z; rewrite emit_opts; reflexivity.
Qed.

Lemma hold_run_opts ps this : opts (hold_run ps this) = opts this.
Proof.
  induction ps as [|p ps IH] using rev_ind; [reflexivity|].
  rewrite hold_run_snoc, hold_cycle_opts. exact IH.
Qed.

(** The hold counter counts the proposals that differed, one after the
    other, from the label held since. *)
Lemma hold_run_counter this ps :
  (0 < holdFrames (opts this))%Z -> _holdCounter this = 0%Z ->
  forall n, (n <= length ps)%nat ->
    let st := hold_run (take n ps) this in
    (0 <= _holdCounter st < holdFrames (opts this))%Z /\
    (_holdCounter st <= Z.of_nat n)%Z /\
    Forall (fun q => p_viseme q <> _currentViseme st)
           (lastn (Z.to_nat (_holdCounter st)) (take n ps)).
Proof.
  intros Hhf H0 n. induction n as [|n IH]; intros Hn st.
  - subst st. simpl. rewrite H0. simpl. rewrite lastn_0.
    split; [lia|]. split; [lia|]. constructor.
  - destruct (lookup_lt_is_Some_2 ps n) as [p Hp]; [lia|].
    destruct IH as (Hc & Hcn & Hall); [lia|].
    subst st. rewrite (take_S_r _ _ _ Hp), hold_run_snoc.
    set (st := hold_run (take n ps) this) in *.
    pose proof (holdOff_spec st (p_viseme p) (p_confidence p) (p_intensity p) (p_bands p))
      as (Hhold & Hswitch & Hagree).
    fold (hold_cycle st p) in Hhold, Hswitch, Hagree.
    assert (Hopts : opts st = opts this) by apply hold_run_opts.
    rewrite Hopts in *.
    destruct (decide (p_viseme p = _currentViseme st)) as [Heq|Hne].
    + destruct (Hagree Heq) as [-> _]. simpl. rewrite lastn_0.
      split; [lia|]. split; [lia|]. constructor.
    + destruct (Z.lt_ge_cases (_holdCounter st + 1) (holdFrames (opts this))) as [Hlt|Hge].
      * destruct (Hhold Hne Hlt) as (-> & -> & _).
        split; [lia|]. split; [lia|].
        replace (Z.to_nat (_holdCounter st + 1)) with (S (Z.to_nat (_holdCounter st))) by lia.
        rewrite lastn_succ_snoc by (rewrite length_take; lia).
        apply Forall_app. split; [exact Hall|]. constructor; [exact Hne | constructor].
      * destruct (Hswitch Hne Hge) as (-> & _). simpl. rewrite lastn_0.
        split; [lia|]. split; [lia|]. constructor.
Qed.

(** C5 (amended): for [holdFrames > 1], starting with the hold counter
    at zero, (a) a sequence of proposals in which no two consecutive
    cycles both propose a label different from the held one (such as
    one that alternates between the held label and other labels) never
    changes the held label; and (b) in any sequence, the held label
    changes only in a cycle that completes [holdFrames] consecutive
    cycles whose proposals differ from the held label, whether or not
    they agree with each other. *)
Theorem holdoff_stability (this : FrequencyAnalyzer) (ps : list Proposal) :
  (1 < holdFrames (opts this))%Z -> _holdCounter this = 0%Z ->
  let held := _currentViseme this in
  ((forall i p q, ps !! i = Some p -> ps !! S i = Some q ->
      p_viseme p = held \/ p_viseme q = held) ->
   forall n, _currentViseme (hold_run (take n ps) this) = held) /\
  (forall n p, ps !! n = Some p ->
     let before := hold_run (take n ps) this in
     _currentViseme (hold_cycle before p) <> _currentViseme before ->
     (holdFrames (opts this) <= Z.of_nat (S n))%Z /\
     Forall (fun q => p_viseme q <> _currentViseme before)
            (lastn (Z.to_nat (holdFrames (opts this))) (take (S n) ps))).
Proof.
  intros Hhf H0 held. split.
  - intros Halt.
    assert (Hinv : forall n, (n <= length ps)%nat ->
      let st := hold_run (take n ps) this in
      _currentViseme st = held /\
      (_holdCounter st = 0%Z \/
       _holdCounter st = 1%Z /\
       exists m q, n = S m /\ ps !! m = Some q /\ p_viseme q <> held)).
    { induction n as [|n IH]; intros Hn st.
      - subst st. simpl. split; [reflexivity | left; exact H0].
      - destruct (lookup_lt_is_Some_2 ps n) as [p Hp]; [lia|].
        destruct IH as (Hcur & Hc); [lia|].
        subst st. rewrite (take_S_r _ _ _ Hp), hold_run_snoc.
        set (st := hold_run (take n ps) this) in *.
        pose proof (holdOff_spec st (p_viseme p) (p_confidence p) (p_intensity p) (p_bands p))
          as (Hhold & _ & Hagree).
        fold (hold_cycle st p) in Hhold, Hagree.
        assert (Hopts : opts st = opts this) by apply hold_run_opts.
        rewrite Hopts, Hcur in *.
        destruct (decide (p_viseme p = held)) as [Heq|Hne].
        + destruct (Hagree Heq) as [-> ->]. split; [reflexivity | left; reflexivity].
        + destruct Hc as [Hc|(Hc & m & q & -> & Hq & Hqne)].
          * destruct (Hhold Hne) as (-> & -> & _); [lia|].
            split; [reflexivity|]. right. split; [lia|]. exists n, p. auto.
          * destruct (Halt m q p Hq Hp); contradiction. }
    intros n. destruct (Nat.le_gt_cases n (length ps)) as [Hle|Hgt].
    + apply Hinv. exact Hle.
    + rewrite take_ge by lia. rewrite <- (firstn_all ps). apply Hinv. lia.
  - intros n p Hp before Hchange.
    pose proof (lookup_lt_Some _ _ _ Hp) as Hn.
    destruct (hold_run_counter this ps ltac:(lia) H0 n ltac:(lia)) as (Hc & Hcn & Hall).
    fold before in Hc, Hcn, Hall.
    pose proof (holdOff_spec before (p_viseme p) (p_confidence p) (p_intensity p) (p_bands p))
      as (Hhold & Hswitch & Hagree).
    fold (hold_cycle before p) in Hhold, Hswitch, Hagree.
    assert (Hopts : opts before = opts this) by apply hold_run_opts.
    rewrite Hopts in *.
    destruct (decide (p_viseme p = _currentViseme before)) as [Heq|Hne].
    { destruct (Hagree Heq) as [_ Hsame]. contradiction. }
    destruct (Z.lt_ge_cases (_holdCounter before + 1) (holdFrames (opts this))) as [Hlt|Hge].
    { destruct (Hhold Hne Hlt) as (_ & Hsame & _). contradiction. }
    split; [lia|].
    replace (Z.to_nat (holdFrames (opts this)))
      with (S (Z.to_nat (_holdCounter before))) by lia.
    rewrite (take_S_r _ _ _ Hp), lastn_succ_snoc by (rewrite length_take; lia).
    apply Forall_app. split; [exact Hall|]. constructor; [exact Hne | constructor].
Qed.

(** *** Reachable analyzers and their labels *)

(** The analyzers that the constructor, [analyze()] and [reset()]
    produce for given options. *)
Inductive reachable (options : Options) : FrequencyAnalyzer -> Prop :=
| reachable_new : reachable options (new_FrequencyAnalyzer options)
| reachable_analyze this input :
    reachable options this -> reachable options (snd (analyze this input))
| reachable_reset this :
    reachable options this -> reachable options (reset this).

(** The labels the classifier returns. *)
Definition classifier_labels : list string :=
  ["sil"; "SS"; "CH"; "FF"; "PP"; "DD"; "nn"; "aa"; "E"; "O"; "I"; "U"].

Lemma classify_label this b i : fst (_classifyViseme this b i) ∈ classifier_labels.
Proof.
  unfold _classifyViseme. destruct b as [s l m h v].
  repeat match goal with
         | |- context [if ?c then _ else _] => destruct c
         end; simpl; by_decide.
Qed.

Definition labels_ok (this : FrequencyAnalyzer) : Prop :=
  _currentViseme this ∈ classifier_labels /\ _previousViseme this ∈ classifier_labels.

Lemma emit_labels this v i b c :
  labels_ok this -> v ∈ classifier_labels -> labels_ok (snd (_emitViseme this v i b c)).
Proof.
  intros [Hcur Hprev] Hv. unfold labels_ok, _emitViseme.
  case_bool_decide; simpl; auto.
Qed.

Lemma holdOff_labels this v c i b :
  labels_ok this -> v ∈ classifier_labels -> labels_ok (snd (holdOff this v c i b)).
Proof.
  intros Hok Hv. unfold holdOff.
  case_bool_decide; [destruct (_ <? _)%Z|]; apply emit_labels;
    try exact Hv; try exact Hok; apply Hok.
Qed.

Lemma analyze_labels this input : labels_ok this -> labels_ok (snd (analyze this input)).
Proof.
  intros Hok. unfold analyze.
  set (this1 := smooth this input).
  assert (Hok1 : labels_ok this1) by exact Hok.
  destruct (nltb _ _).
  - apply emit_labels; [exact Hok1 | by_decide].
  - pose proof (classify_label this1 (_smoothedBands this1)
                  (clamp (_smoothedAmplitude this1 * lit 3) (lit 0) (lit 1))) as Hl.
    destruct (_classifyViseme _ _ _) as [v c]. apply holdOff_labels; assumption.
Qed.

Lemma reachable_labels options this : reachable options this -> labels_ok this.
Proof.
  induction 1 as [|this input _ IH|this _ _].
  - split; by_decide.
  - apply analyze_labels, IH.
  - split; by_decide.
Qed.

Lemma analyze_frame_current this input :
  viseme (fst (analyze this input)) = _currentViseme (snd (analyze this input)).
Proof.
  unfold analyze. destruct (nltb _ _).
  - rewrite emit_viseme, emit_current. reflexivity.
  - destruct (_classifyViseme _ _ _) as [v c]. unfold holdOff.
    case_bool_decide; [destruct (_ <? _)%Z|]; rewrite emit_viseme, emit_current; reflexivity.
Qed.

Lemma emit_simpleViseme this v i b c :
  simpleViseme (fst (_emitViseme this v i b c)) = default "A" (EXTENDED_TO_SIMPLE !! v).
Proof.
  unfold _emitViseme.
  case_bool_decide as Hv; cbn [fst simpleViseme]; [reflexivity | rewrite Hv; reflexivity].
Qed.

Lemma analyze_simpleViseme this input :
  simpleViseme (fst (analyze this input)) =
  default "A" (EXTENDED_TO_SIMPLE !! viseme (fst (analyze this input))).
Proof.
  unfold analyze. destruct (nltb _ _).
  - rewrite emit_simpleViseme, emit_viseme. reflexivity.
  - destruct (_classifyViseme _ _ _) as [v c]. unfold holdOff.
    case_bool_decide; [destruct (_ <? _)%Z|];
      rewrite emit_simpleViseme, emit_viseme; reflexivity.
Qed.

(** *** The simple viseme of a frame *)

Lemma extended_keys_mapped :
  Forall (fun k => exists s, EXTENDED_TO_SIMPLE !! k = Some s /\ s ∈ SIMPLE_VISEME_KEYS)
         EXTENDED_VISEME_KEYS.
Proof.
  repeat (constructor; [eexists; split; [vm_compute; reflexivity | by_decide]|]).
  constructor.
Qed.

Lemma simple_values : map_Forall (fun _ s => s ∈ SIMPLE_VISEME_KEYS) EXTENDED_TO_SIMPLE.
Proof. by_decide. Qed.

Lemma classifier_labels_extended : Forall (fun l => l ∈ EXTENDED_VISEME_KEYS) classifier_labels.
Proof. by_decide. Qed.

(** C10: each of the 15 extended viseme keys is assigned a simple key
    by [EXTENDED_TO_SIMPLE]; the [simpleViseme] of every frame that
    [analyze()] returns is one of the six simple keys ['A'] to ['F'],
    and on a reachable analyzer it is the table's entry for the frame's
    viseme, which is an extended key; the ['A'] fallback is used only
    for a label that is not an extended key. *)
Theorem simple_viseme_of_frame :
  length EXTENDED_VISEME_KEYS = 15%nat /\
  (forall k, k ∈ EXTENDED_VISEME_KEYS ->
     exists s, EXTENDED_TO_SIMPLE !! k = Some s /\ s ∈ SIMPLE_VISEME_KEYS) /\
  SIMPLE_VISEME_KEYS = ["A"; "B"; "C"; "D"; "E"; "F"] /\
  (forall this input, simpleViseme (fst (analyze this input)) ∈ SIMPLE_VISEME_KEYS) /\
  (forall options this input, reachable options this ->
     let frame := fst (analyze this input) in
     viseme frame ∈ EXTENDED_VISEME_KEYS /\
     EXTENDED_TO_SIMPLE !! viseme frame = Some (simpleViseme frame)) /\
  (forall label, EXTENDED_TO_SIMPLE !! label = None -> label ∉ EXTENDED_VISEME_KEYS).
Proof.
  pose proof (proj1 (Forall_forall _ _) extended_keys_mapped) as Hkeys.
  split; [reflexivity|].
  split; [exact Hkeys|]. split; [reflexivity|]. split; [|split].
  - intros this input. rewrite analyze_simpleViseme.
    destruct (EXTENDED_TO_SIMPLE !! _) as [s|] eqn:Hs; simpl.
    + exact (simple_values _ _ Hs).
    + by_decide.
  - intros options this input Hreach frame.
    assert (Hext : viseme frame ∈ EXTENDED_VISEME_KEYS).
    { unfold frame. rewrite analyze_frame_current.
      apply (proj1 (Forall_forall _ _) classifier_labels_extended).
      apply (analyze_labels this input (reachable_labels _ _ Hreach)). }
    split; [exact Hext|].
    destruct (Hkeys _ Hext) as (s & Hs & _).
    unfold frame. rewrite analyze_simpleViseme. fold frame. rewrite Hs. reflexivity.
  - intros label Hnone Hin. destruct (Hkeys _ Hin) as (s & Hs & _). congruence.
Qed.

(** *** The frame's shape *)

(** Every call of [analyze()] ends in one call of [_emitViseme], on an
    analyzer with the labels and the transition progress of the given
    one and for a label of the classifier. *)
Lemma analyze_emit this input :
  exists this1 v i b c,
    analyze this input = _emitViseme this1 v i b c /\
    _currentViseme this1 = _currentViseme this /\
    _previousViseme this1 = _previousViseme this /\
    _transitionProgress this1 = _transitionProgress this /\
    (v ∈ classifier_labels \/ v = _currentViseme this).
Proof.
  unfold analyze. set (this1 := smooth this input).
  destruct (nltb _ _).
  - exists this1, "sil", (lit 0), (_smoothedBands this1), None.
    repeat split; try reflexivity. left. by_decide.
  - pose proof (classify_label this1 (_smoothedBands this1)
                  (clamp (_smoothedAmplitude this1 * lit 3) (lit 0) (lit 1))) as Hl.
    destruct (_classifyViseme _ _ _) as [v c]. simpl in Hl. unfold holdOff.
    case_bool_decide; [destruct (_ <? _)%Z|].
    + eexists _, _, _, _, _. split; [reflexivity|]. repeat split; try reflexivity. by right.
    + eexists _, _, _, _, _. split; [reflexivity|]. repeat split; try reflexivity. by left.
    + eexists _, _, _, _, _. split; [reflexivity|]. repeat split; try reflexivity. by left.
Qed.

(** The frame built by [_emitViseme] describes the analyzer it leaves:
    its transition is (previous, current, progress) and its shape is
    the interpolation between the shapes of the two labels. *)
Lemma emit_frame this v i b c :
  let frame := fst (_emitViseme this v i b c) in
  let this' := snd (_emitViseme this v i b c) in
  let a := shape_of (_previousViseme this') in
  let b := shape_of (_currentViseme this') in
  let t := _transitionProgress this' in
  transition frame =
    mkTransition (_previousViseme this') (_currentViseme this') t /\
  shape frame =
    mkShape (lerp (open a) (open b) t) (lerp (width a) (width b) t)
            (lerp (round a) (round b) t).
Proof. unfold _emitViseme. case_bool_decide; split; reflexivity. Qed.

Lemma classifier_labels_shapes :
  Forall (fun l => is_Some (VISEME_SHAPES !! l)) classifier_labels.
Proof. repeat (constructor; [eexists; vm_compute; reflexivity|]). constructor. Qed.

Lemma shape_of_label l :
  l ∈ classifier_labels -> VISEME_SHAPES !! l = Some (shape_of l).
Proof.
  intros Hl. destruct (proj1 (Forall_forall _ _) classifier_labels_shapes l Hl) as [s Hs].
  unfold shape_of. rewrite Hs. reflexivity.
Qed.

(** On a reachable analyzer the shape of the frame is the linear
    interpolation, at the frame's transition progress, between the
    table's shapes of the previous and of the current viseme. *)
Lemma frame_shape_lerp options this input :
  reachable options this ->
  let frame := fst (analyze this input) in
  let this' := snd (analyze this input) in
  let t := progress (transition frame) in
  from (transition frame) = _previousViseme this' /\
  to (transition frame) = _currentViseme this' /\
  t = _transitionProgress this' /\
  exists a b,
    VISEME_SHAPES !! from (transition frame) = Some a /\
    VISEME_SHAPES !! to (transition frame) = Some b /\
    open (shape frame) = (open a + (open b - open a) * t)%js /\
    width (shape frame) = (width a + (width b - width a) * t)%js /\
    round (shape frame) = (round a + (round b - round a) * t)%js.
Proof.
  intros Hreach frame this' t.
  pose proof (analyze_labels this input (reachable_labels _ _ Hreach)) as [Hcur Hprev].
  fold this' in Hcur, Hprev.
  destruct (analyze_emit this input) as (this1 & v & i & b & c & Heq & _).
  pose proof (emit_frame this1 v i b c) as [Htr Hsh]. rewrite <- Heq in Htr, Hsh.
  fold frame this' in Htr, Hsh. subst t. rewrite Htr, Hsh.
  cbn [from to progress open width round].
  split; [reflexivity|]. split; [reflexivity|]. split; [reflexivity|].
  exists (shape_of (_previousViseme this')), (shape_of (_currentViseme this')).
  rewrite !shape_of_label by assumption.
  split; [reflexivity|]. split; [reflexivity|]. unfold lerp. repeat split.
Qed.

End FrequencyAnalyzer.

(** *** The helpers of [utils/audio-utils.js] *)

(** Modelled from the spec: [smoothValue] of [utils/audio-utils.js] is
    not among the sources; the specification gives the exponential
    smoothing as [smoothed + (raw - smoothed) * (1 - factor)]. *)
Definition smoothValue_spec {num : Type} `{Number num} (smoothed raw factor : num) : num :=
  (smoothed + (raw - smoothed) * (lit 1 - factor))%js.

(** Modelled from the spec: [clamp] of [utils/audio-utils.js] is not
    among the sources; the specification keeps the intensity within
    [[0, 1]], so [clamp(x, lo, hi)] is [x] limited to [[lo, hi]]. *)
Definition clamp_spec {num : Type} `{Number num} (x lo hi : num) : num :=
  if (x < lo)%js then lo else if (x > hi)%js then hi else x.

(** ** The classifier and the frame's shape in exact arithmetic *)

Section ExactArithmetic.

Local Open Scope Q_scope.

Variable smoothValue : Q -> Q -> Q -> Q.
Variable clamp : Q -> Q -> Q -> Q.

Lemma Qltb_lt (x y : Q) : Qltb x y = true <-> x < y.
Proof.
  unfold Qltb. rewrite negb_true_iff. split.
  - intros Hb. apply Qnot_le_lt. intros Hle. apply Qle_bool_iff in Hle. congruence.
  - intros Hlt. destruct (Qle_bool y x) eqn:E; [|reflexivity].
    apply Qle_bool_iff in E. lra.
Qed.

Lemma Qltb_ge (x y : Q) : Qltb x y = false <-> y <= x.
Proof.
  unfold Qltb. rewrite negb_false_iff. apply Qle_bool_iff.
Qed.

(** Band energies are mean magnitudes: none is negative (the data
    model has each within [[0, 1]]). *)
Definition valid_bands (b : Bands (num := Q)) : Prop :=
  0 <= sub b /\ 0 <= low b /\ 0 <= mid b /\ 0 <= high b /\ 0 <= veryHigh b.

Ltac exact_ops :=
  cbn [lit nltb nadd nsub nmul ndiv nabs nmin Q_Number
       sub low mid high veryHigh] in *.

Lemma sibilantScore_le_1 (b : Bands) :
  valid_bands b -> 0.01 <= totalEnergy b -> sibilantScore b <= 1.
Proof.
  destruct b as [s l m h v]. unfold valid_bands, sibilantScore, totalEnergy.
  exact_ops. intros Hv Ht. apply Qle_shift_div_r; lra.
Qed.

Lemma fricativeScore_le_1 (b : Bands) :
  valid_bands b -> 0.01 <= totalEnergy b -> fricativeScore b <= 1.
Proof.
  destruct b as [s l m h v]. unfold valid_bands, fricativeScore, totalEnergy.
  exact_ops. intros Hv Ht. apply Qle_shift_div_r; lra.
Qed.

Lemma classify_confidence (this : FrequencyAnalyzer) (b : Bands) (i : Q) :
  valid_bands b -> 0 <= snd (_classifyViseme this b i) <= 1.
Proof.
  intros Hv. unfold _classifyViseme.
  destruct (nltb (totalEnergy b) (lit 0.01)) eqn:Egate.
  { destruct b. exact_ops. cbn [snd]. lra. }
  exact_ops. apply Qltb_ge in Egate.
  pose proof (sibilantScore_le_1 b Hv Egate) as Hsib.
  pose proof (fricativeScore_le_1 b Hv Egate) as Hfric.
  destruct b as [s l m h v]. exact_ops.
  set (B := mkBands s l m h v) in *.
  destruct (Qltb 0.55 (sibilantScore B) && Qltb 0.15 h)%bool eqn:E1.
  { apply andb_true_iff in E1 as [E1 _]. apply Qltb_lt in E1.
    destruct (Qltb _ v); cbn [snd]; lra. }
  destruct (Qltb 0.5 (fricativeScore B) && Qltb 0.1 h && Qltb l 0.15)%bool eqn:E2.
  { apply andb_true_iff in E2 as [E2 _]. apply andb_true_iff in E2 as [E2 _].
    apply Qltb_lt in E2. cbn [snd]. lra. }
  repeat match goal with
         | |- context [if ?c then _ else _] => destruct c
         end; cbn [snd]; lra.
Qed.


(** *** The shape of a frame *)

Definition unit_shape (s : Shape (num := Q)) : Prop :=
  (0 <= open s <= 1) /\ (0 <= width s <= 1) /\ (0 <= round s <= 1).

Definition unit_shapeb (s : Shape (num := Q)) : bool :=
  Qle_bool 0 (open s) && Qle_bool (open s) 1 &&
  Qle_bool 0 (width s) && Qle_bool (width s) 1 &&
  Qle_bool 0 (round s) && Qle_bool (round s) 1.

Lemma unit_shapeb_spec s : unit_shapeb s = true -> unit_shape s.
Proof.
  unfold unit_shapeb, unit_shape. rewrite !andb_true_iff, !Qle_bool_iff. tauto.
Qed.

Lemma table_shapes_unit :
  map_Forall (fun _ s => unit_shapeb s = true) (VISEME_SHAPES (num := Q)).
Proof. by_decide. Qed.

Lemma table_weights_le_1 :
  map_Forall (fun _ row => map_Forall (fun _ w => Qle_bool w 1 = true) row)
             (TRANSITION_WEIGHTS (num := Q)).
Proof. by_decide. Qed.

Lemma weight_le_1 (f t : string) : getTransitionWeight f t <= 1.
Proof.
  unfold getTransitionWeight.
  destruct (TRANSITION_WEIGHTS !! f) as [row|] eqn:Hrow; [|cbn; lra].
  destruct (row !! t) as [w|] eqn:Hw; [|cbn; lra].
  apply Qle_bool_iff. exact (table_weights_le_1 _ _ Hrow _ _ Hw).
Qed.

Definition progress_ok (this : FrequencyAnalyzer (num := Q)) : Prop :=
  0 <= _transitionProgress this <= 1.

Lemma emit_progress_ok this v i b c :
  progress_ok this -> progress_ok (snd (_emitViseme smoothValue this v i b c)).
Proof.
  unfold progress_ok, _emitViseme. intros Ht.
  case_bool_decide; cbn [snd _transitionProgress lit Q_Number nmin nadd nsub nmul]; [lra|].
  pose proof (weight_le_1 (_previousViseme this) (_currentViseme this)) as Hw.
  split; [apply Q.min_glb; nra | apply Q.le_min_l].
Qed.

Lemma reachable_progress_ok options this :
  reachable smoothValue clamp options this -> progress_ok this.
Proof.
  induction 1 as [|this input _ IH|this _ _].
  - unfold progress_ok. cbn. lra.
  - destruct (analyze_emit smoothValue clamp this input)
      as (this1 & v & i & b & c & -> & _ & _ & Ht & _).
    apply emit_progress_ok. unfold progress_ok. rewrite Ht. exact IH.
  - unfold progress_ok. cbn. lra.
Qed.

Lemma lerp_unit (a b t : Q) :
  0 <= a <= 1 -> 0 <= b <= 1 -> 0 <= t <= 1 -> 0 <= a + (b - a) * t <= 1.
Proof. intros. split; nra. Qed.

(** In exact arithmetic the transition progress and the three
    parameters of the shape of a frame lie within [[0, 1]]. *)
Lemma frame_shape_unit_exact (options : Options) (this : FrequencyAnalyzer)
    (input : AudioFrame) :
  reachable smoothValue clamp options this ->
  let frame := fst (analyze smoothValue clamp this input) in
  0 <= progress (transition frame) <= 1 /\
  0 <= open (shape frame) <= 1 /\
  0 <= width (shape frame) <= 1 /\
  0 <= round (shape frame) <= 1.
Proof.
  intros Hreach frame.
  set (this' := snd (analyze smoothValue clamp this input)).
  destruct (frame_shape_lerp smoothValue clamp options this input Hreach)
    as (Hfrom & Hto & Ht & a & b & Ha & Hb & Ho & Hw & Hr).
  fold frame this' in Hfrom, Hto, Ht, Ha, Hb, Ho, Hw, Hr.
  assert (Ht01 : 0 <= progress (transition frame) <= 1).
  { rewrite Ht. apply (reachable_progress_ok options). constructor. exact Hreach. }
  destruct (unit_shapeb_spec _ (table_shapes_unit _ _ Ha)) as (Hao & Haw & Har).
  destruct (unit_shapeb_spec _ (table_shapes_unit _ _ Hb)) as (Hbo & Hbw & Hbr).
  split; [exact Ht01|].
  rewrite Ho, Hw, Hr. cbn [nadd nsub nmul Q_Number].
  repeat split; apply lerp_unit; assumption.
Qed.

End ExactArithmetic.

(** ** The frame's shape in double-precision arithmetic *)

Section DoubleArithmetic.

Local Open Scope string_scope.

Variable smoothValue : float -> float -> float -> float.
Variable clamp : float -> float -> float -> float.

(** The progress after one more frame with the same labels: the
    [else] branch of [_emitViseme]. *)
Definition advance (p c : string) (t : float) : float :=
  nmin (lit 1) (t + (lit 1 - getTransitionWeight p c) * lit 0.3)%js.

(** The progress [k] frames after a change of label from [p] to [c]. *)
Fixpoint progress_after (p c : string) (k : nat) : float :=
  match k with
  | O => lit 0
  | S k' => advance p c (progress_after p c k')
  end.

(** [0 <= x && x <= 1] on doubles (false for NaN). *)
Definition unit_float (x : float) : Prop :=
  PrimFloat.leb 0 x = true /\ PrimFloat.leb x 1 = true.

Definition unit_frame_shape (p c : string) (t : float) : Prop :=
  let a := shape_of p in
  let b := shape_of c in
  unit_float t /\
  unit_float (lerp (open a) (open b) t) /\
  unit_float (lerp (width a) (width b) t) /\
  unit_float (lerp (round a) (round b) t).

(** What is checked, by evaluation, for each pair of labels: the
    progress is 1 after ten frames and stays there, and the shape is
    within bounds up to then. *)
Definition pair_checked (p c : string) : Prop :=
  progress_after p c 10 = 1%float /\
  advance p c 1%float = 1%float /\
  forall k, (k <= 10)%nat -> unit_frame_shape p c (progress_after p c k).

Ltac check_pair :=
  split; [vm_compute; reflexivity|];
  split; [vm_compute; reflexivity|];
  let k := fresh "k" in let Hk := fresh "Hk" in
  intros k Hk;
  do 11 (destruct k as [|k]; [vm_compute; repeat split; reflexivity|]);
  lia.

Lemma pairs_checked p c :
  p ∈ classifier_labels -> c ∈ classifier_labels -> pair_checked p c.
Proof.
  intros Hp Hc. apply list_elem_of_In in Hp, Hc.
  unfold classifier_labels in Hp, Hc. simpl in Hp, Hc.
  repeat (destruct Hp as [<-|Hp]); [..|contradiction];
    (repeat (destruct Hc as [<-|Hc]); [..|contradiction]); check_pair.
Qed.

Lemma progress_saturates p c k :
  pair_checked p c -> (10 <= k)%nat -> progress_after p c k = 1%float.
Proof.
  intros (H10 & H1 & _) Hk.
  induction Hk as [|k Hk IH]; [exact H10|].
  change (progress_after p c (S k)) with (advance p c (progress_after p c k)).
  rewrite IH. exact H1.
Qed.

Lemma progress_shape p c k :
  pair_checked p c -> unit_frame_shape p c (progress_after p c k).
Proof.
  intros Hpc. destruct (Nat.le_gt_cases 10 k) as [Hk|Hk].
  - rewrite (progress_saturates p c k Hpc Hk).
    rewrite <- (proj1 Hpc). apply (proj2 (proj2 Hpc)). lia.
  - apply (proj2 (proj2 Hpc)). lia.
Qed.

(** The transition progress of a reachable analyzer is the progress
    some number of frames after its last change of label. *)
Definition on_orbit (this : FrequencyAnalyzer (num := float)) : Prop :=
  exists k, _transitionProgress this =
            progress_after (_previousViseme this) (_currentViseme this) k.

Lemma emit_on_orbit this v i b c :
  on_orbit this -> on_orbit (snd (_emitViseme smoothValue this v i b c)).
Proof.
  intros [k Hk]. unfold on_orbit, _emitViseme.
  case_bool_decide; cbn [snd _transitionProgress _previousViseme _currentViseme].
  - exists 0%nat. reflexivity.
  - exists (S k).
    change (progress_after (_previousViseme this) (_currentViseme this) (S k))
      with (advance (_previousViseme this) (_currentViseme this)
              (progress_after (_previousViseme this) (_currentViseme this) k)).
    rewrite <- Hk. reflexivity.
Qed.

Lemma fresh_on_orbit options : on_orbit (new_FrequencyAnalyzer options).
Proof. exists 10%nat. vm_compute. reflexivity. Qed.

Lemma reachable_on_orbit options this :
  reachable smoothValue clamp options this -> on_orbit this.
Proof.
  induction 1 as [|this input _ IH|this _ _].
  - apply fresh_on_orbit.
  - destruct (analyze_emit smoothValue clamp this input)
      as (this1 & v & i & b & c & -> & Hc & Hp & Ht & _).
    apply emit_on_orbit. destruct IH as [k Hk]. exists k. rewrite Ht, Hp, Hc. exact Hk.
  - apply fresh_on_orbit.
Qed.

Lemma frame_shape_unit_double options this input :
  reachable smoothValue clamp options this ->
  let frame := fst (analyze smoothValue clamp this input) in
  unit_float (progress (transition frame)) /\
  unit_float (open (shape frame)) /\
  unit_float (width (shape frame)) /\
  unit_float (round (shape frame)).
Proof.
  intros Hreach frame.
  set (this' := snd (analyze smoothValue clamp this input)).
  assert (Hreach' : reachable smoothValue clamp options this') by (constructor; exact Hreach).
  destruct (reachable_labels _ _ _ _ Hreach') as [Hcur Hprev].
  destruct (reachable_on_orbit _ _ Hreach') as [k Hk].
  pose proof (progress_shape _ _ k (pairs_checked _ _ Hprev Hcur)) as Hok.
  rewrite <- Hk in Hok.
  destruct (analyze_emit smoothValue clamp this input)
    as (this1 & v & i & b & c & Heq & _).
  pose proof (emit_frame smoothValue this1 v i b c) as [Htr Hsh].
  rewrite <- Heq in Htr, Hsh. fold frame this' in Htr, Hsh.
  rewrite Htr, Hsh. cbn [progress open width round].
  exact Hok.
Qed.

End DoubleArithmetic.

(** ** Rounding in binary64 *)

(** What the primitive operations on doubles compute is given by the
    axioms of the standard library's [FloatAxioms]: [Prim2SF] maps a
    double to its sign, mantissa and exponent, and on these the
    operations are those of [SpecFloat], with rounding to nearest, ties
    to even.  For doubles that are not negative the module below reads
    a double as a whole number of units of [2^-1074], the smallest
    positive double, and shows that addition is the rounding of the
    exact sum, that rounding is monotone, that the comparisons compare
    these numbers, and that a quotient or product that is below 1
    before rounding is at most 1 after it. *)

Module Binary64.

Lemma iter_pos_nat {A : Type} (f : A -> A) (p : positive) (x : A) :
  SpecFloat.iter_pos f p x = Nat.iter (Pos.to_nat p) f x.
Proof.
  revert x. induction p as [p IH|p IH|]; intros x; simpl SpecFloat.iter_pos.
  - rewrite !IH, Pos2Nat.inj_xI. rewrite <- Nat.iter_add, <- Nat.iter_succ_r.
    f_equal. lia.
  - rewrite !IH, Pos2Nat.inj_xO. rewrite <- Nat.iter_add. f_equal. lia.
  - reflexivity.
Qed.

(** The number of binary digits. *)
Lemma digits2_pos_bounds (p : positive) :
  2 ^ (Zpos (digits2_pos p) - 1) <= Zpos p < 2 ^ Zpos (digits2_pos p).
Proof.
  induction p as [p IH|p IH|]; simpl digits2_pos.
  - rewrite Pos2Z.inj_succ.
    replace (Z.succ (Zpos (digits2_pos p)) - 1) with (Z.succ (Zpos (digits2_pos p) - 1)) by lia.
    rewrite !Z.pow_succ_r by lia. lia.
  - rewrite Pos2Z.inj_succ.
    replace (Z.succ (Zpos (digits2_pos p)) - 1) with (Z.succ (Zpos (digits2_pos p) - 1)) by lia.
    rewrite !Z.pow_succ_r by lia. lia.
  - simpl. lia.
Qed.

Lemma Zdigits2_bounds (v : Z) :
  0 < v -> 2 ^ (Zdigits2 v - 1) <= v < 2 ^ Zdigits2 v.
Proof. destruct v as [|p|p]; try lia. intros _. apply digits2_pos_bounds. Qed.

Lemma Zdigits2_pos (v : Z) : 0 < v -> 0 < Zdigits2 v.
Proof. destruct v; simpl; lia. Qed.

Lemma Zdigits2_unique (v d : Z) : 2 ^ (d - 1) <= v < 2 ^ d -> 0 < d -> Zdigits2 v = d.
Proof.
  intros [Hlo Hhi] Hd.
  assert (Hv : 0 < v) by (pose proof (Z.pow_pos_nonneg 2 (d - 1)); lia).
  pose proof (Zdigits2_bounds v Hv) as [Hlo' Hhi'].
  pose proof (Zdigits2_pos v Hv) as Hd'.
  destruct (Z.lt_trichotomy (Zdigits2 v) d) as [Hlt|[Heq|Hgt]]; [|exact Heq|].
  - assert (2 ^ Zdigits2 v <= 2 ^ (d - 1)) by (apply Z.pow_le_mono_r; lia). lia.
  - assert (2 ^ d <= 2 ^ (Zdigits2 v - 1)) by (apply Z.pow_le_mono_r; lia). lia.
Qed.

Lemma Zdigits2_le (v w : Z) : 0 <= v <= w -> Zdigits2 v <= Zdigits2 w.
Proof.
  intros [Hv Hvw]. destruct (Z.eq_dec v 0) as [->|Hv0].
  - destruct w; simpl; lia.
  - pose proof (Zdigits2_bounds v ltac:(lia)) as [Hlo _].
    pose proof (Zdigits2_bounds w ltac:(lia)) as [_ Hhi].
    destruct (Z.le_gt_cases (Zdigits2 v) (Zdigits2 w)) as [H|H]; [exact H|].
    assert (2 ^ Zdigits2 w <= 2 ^ (Zdigits2 v - 1)) by (apply Z.pow_le_mono_r; lia). lia.
Qed.

Lemma Zdigits2_shift (v k : Z) : 0 < v -> 0 <= k -> Zdigits2 (v * 2 ^ k) = Zdigits2 v + k.
Proof.
  intros Hv Hk. pose proof (Zdigits2_bounds v Hv) as [Hlo Hhi].
  pose proof (Zdigits2_pos v Hv) as Hd.
  pose proof (Z.pow_pos_nonneg 2 k ltac:(lia) Hk) as Hp.
  apply Zdigits2_unique; [|lia].
  replace (Zdigits2 v + k - 1) with (Zdigits2 v - 1 + k) by lia.
  rewrite !Z.pow_add_r by lia. nia.
Qed.
(** Right shifts with round and sticky bits. *)
Lemma shr_1_spec (m : Z) (r s : bool) :
  0 <= m ->
  shr_1 (Build_shr_record m r s) = Build_shr_record (m / 2) (Z.odd m) (r || s).
Proof.
  intros Hm. rewrite <- Z.div2_div.
  destruct m as [|[p|p|]|p]; try lia; reflexivity.
Qed.

Lemma shr_iter_m (n : nat) (mrs : shr_record) :
  0 <= shr_m mrs ->
  shr_m (Nat.iter n shr_1 mrs) = shr_m mrs / 2 ^ Z.of_nat n.
Proof.
  intros Hm. induction n as [|n IH].
  - simpl. rewrite Z.div_1_r. reflexivity.
  - rewrite Nat.iter_succ.
    assert (H0 : 0 <= shr_m (Nat.iter n shr_1 mrs)).
    { rewrite IH. apply Z.div_pos; [exact Hm | apply Z.pow_pos_nonneg; lia]. }
    destruct (Nat.iter n shr_1 mrs) as [m r s]. cbn [shr_m] in *.
    rewrite shr_1_spec by exact H0. cbn [shr_m]. rewrite IH.
    rewrite Nat2Z.inj_succ, Z.pow_succ_r by lia.
    rewrite Z.div_div by (try apply Z.pow_pos_nonneg; lia).
    f_equal. lia.
Qed.

Lemma mod_pow2_succ (m k : Z) :
  0 <= k ->
  m mod 2 ^ (k + 1) = m mod 2 ^ k + 2 ^ k * (if Z.odd (m / 2 ^ k) then 1 else 0).
Proof.
  intros Hk. rewrite Z.pow_add_r by lia. change (2 ^ 1) with 2.
  pose proof (Z.pow_pos_nonneg 2 k ltac:(lia) Hk).
  rewrite Z.rem_mul_r by lia. rewrite Zmod_odd. reflexivity.
Qed.

Lemma shr_iter_exact (n : nat) (m : Z) :
  0 <= m ->
  Nat.iter (S n) shr_1 (Build_shr_record m false false) =
  Build_shr_record (m / 2 ^ Z.of_nat (S n)) (Z.odd (m / 2 ^ Z.of_nat n))
                   (negb (m mod 2 ^ Z.of_nat n =? 0)).
Proof.
  intros Hm. induction n as [|n IH].
  - unfold Nat.iter. cbn [nat_rect]. rewrite shr_1_spec by exact Hm.
    change (Z.of_nat 1) with 1. change (Z.of_nat 0) with 0.
    rewrite Z.pow_0_r, Z.pow_1_r, Z.div_1_r, Z.mod_1_r. reflexivity.
  - rewrite Nat.iter_succ, IH.
    assert (Hp : 0 < 2 ^ Z.of_nat (S n)) by (apply Z.pow_pos_nonneg; lia).
    rewrite shr_1_spec by (apply Z.div_pos; lia).
    f_equal.
    + rewrite (Nat2Z.inj_succ (S n)), Z.pow_succ_r by lia.
      rewrite Z.div_div by lia. f_equal. lia.
    + rewrite (Nat2Z.inj_succ n).
      replace (Z.succ (Z.of_nat n)) with (Z.of_nat n + 1) by lia.
      rewrite (mod_pow2_succ m (Z.of_nat n)) by lia.
      pose proof (Z.mod_pos_bound m (2 ^ Z.of_nat n) ltac:(apply Z.pow_pos_nonneg; lia)) as Hb.
      pose proof (Z.pow_pos_nonneg 2 (Z.of_nat n) ltac:(lia) ltac:(lia)) as Hq.
      destruct (Z.odd (m / 2 ^ Z.of_nat n)); simpl.
      * symmetry. apply negb_true_iff, Z.eqb_neq. lia.
      * rewrite Z.mul_0_r, Z.add_0_r. reflexivity.
Qed.

Lemma rne_bounds (q : Z) (l : location) :
  q <= round_nearest_even q l <= q + 1.
Proof.
  unfold round_nearest_even. destruct l as [|[]]; try destruct (Z.even q); lia.
Qed.
Lemma shr_pos (mrs : shr_record) (e n : Z) :
  0 < n -> shr mrs e n = (Nat.iter (Z.to_nat n) shr_1 mrs, e + n).
Proof.
  intros Hn. destruct n as [|p|p]; try lia. unfold shr.
  rewrite iter_pos_nat. reflexivity.
Qed.

Lemma shr_nonpos (mrs : shr_record) (e n : Z) : n <= 0 -> shr mrs e n = (mrs, e).
Proof. intros Hn. destruct n as [|p|p]; try lia; reflexivity. Qed.

(** The binary64 format: exponents and the value of a float. *)
Lemma fexp_eq (k : Z) : fexp prec emax k = Z.max (k - 53) (-1074).
Proof. reflexivity. Qed.

(** The value of a float that is not negative, in units of [2^emin],
    the smallest positive double; [inf_ulps] stands for infinity. *)
Definition inf_ulps : Z := 2 ^ 2098.

Definition ulps (f : spec_float) : Z :=
  match f with
  | S754_zero _ => 0
  | S754_finite _ m e => Zpos m * 2 ^ (e + 1074)
  | S754_infinity _ => inf_ulps
  | S754_nan => 0
  end.

Definition nonneg (f : spec_float) : Prop :=
  match f with
  | S754_zero _ => True
  | S754_finite s _ _ => s = false
  | S754_infinity s => s = false
  | S754_nan => False
  end.

(** Rounding to nearest, ties to even, of a whole number of units to
    53 significant bits. *)
Definition nearest (v : Z) : Z :=
  let n := Zdigits2 v - 53 in
  if n <=? 0 then v
  else
    let q := v / 2 ^ n in
    let mrs := Build_shr_record q (Z.odd (v / 2 ^ (n - 1)))
                                (negb (v mod 2 ^ (n - 1) =? 0)) in
    round_nearest_even q (loc_of_shr_record mrs) * 2 ^ n.

Definition rounded (v : Z) : Z := Z.min inf_ulps (nearest v).
Lemma nearest_small (v : Z) : Zdigits2 v <= 53 -> nearest v = v.
Proof.
  intros H. unfold nearest. destruct (Z.leb_spec (Zdigits2 v - 53) 0); [reflexivity | lia].
Qed.

Lemma bits_rem (v n : Z) :
  0 < n ->
  let rem := v mod 2 ^ n in
  let half := 2 ^ (n - 1) in
  0 <= rem < 2 * half /\
  (Z.odd (v / half) = true -> half <= rem /\ (v mod half =? 0) = (rem =? half)) /\
  (Z.odd (v / half) = false -> rem < half).
Proof.
  intros Hn rem half.
  assert (Hh : 0 < half) by (apply Z.pow_pos_nonneg; lia).
  assert (Hp : 2 ^ n = 2 * half).
  { unfold half. rewrite <- Z.pow_succ_r by lia. f_equal. lia. }
  pose proof (mod_pow2_succ v (n - 1) ltac:(lia)) as Hm.
  replace (n - 1 + 1) with n in Hm by lia. fold rem half in Hm.
  pose proof (Z.mod_pos_bound v half Hh) as Hb.
  split; [|split].
  - unfold rem. rewrite Hp. apply Z.mod_pos_bound. lia.
  - intros Ho. rewrite Ho in Hm. split; [lia|].
    destruct (Z.eqb_spec (v mod half) 0), (Z.eqb_spec rem half); try reflexivity; lia.
  - intros Ho. rewrite Ho in Hm. lia.
Qed.

(** [nearest] on a number of more than 53 bits: the quotient by
    [2^n], plus one when the remainder is above the half, or at the
    half with an odd quotient. *)
Lemma nearest_big (v : Z) :
  0 < v -> 53 < Zdigits2 v ->
  let n := Zdigits2 v - 53 in
  let q := v / 2 ^ n in
  let rem := v mod 2 ^ n in
  let half := 2 ^ (n - 1) in
  2 ^ 52 <= q < 2 ^ 53 /\
  exists u, (u = 0 \/ u = 1) /\
    nearest v = (q + u) * 2 ^ n /\
    (u = 1 <-> half < rem \/ (rem = half /\ Z.odd q = true)).
Proof.
  intros Hv Hd n q rem half.
  assert (Hn : 0 < n) by (unfold n; lia).
  assert (Hp : 0 < 2 ^ n) by (apply Z.pow_pos_nonneg; lia).
  pose proof (Zdigits2_bounds v Hv) as [Hlo Hhi].
  assert (Hq : 2 ^ 52 <= q < 2 ^ 53).
  { replace (Zdigits2 v - 1) with (52 + n) in Hlo by (unfold n; lia).
    replace (Zdigits2 v) with (53 + n) in Hhi by (unfold n; lia).
    rewrite Z.pow_add_r in Hlo, Hhi by lia. unfold q. split.
    - apply Z.div_le_lower_bound; lia.
    - apply Z.div_lt_upper_bound; lia. }
  split; [exact Hq|].
  destruct (bits_rem v n Hn) as (Hrem & Hodd & Heven). fold rem half in Hrem, Hodd, Heven.
  unfold nearest. fold n. destruct (Z.leb_spec n 0) as [?|_]; [lia|]. fold q half.
  destruct (Z.odd (v / half)) eqn:Er.
  - destruct (Hodd eq_refl) as [Hge Hs]. rewrite Hs.
    destruct (Z.eqb_spec rem half) as [Heq|Hne]; cbn [negb loc_of_shr_record round_nearest_even].
    + rewrite <- Z.negb_odd. destruct (Z.odd q) eqn:Eq; cbn [negb].
      * exists 1. split; [auto|]. split; [reflexivity|]. split; [auto | reflexivity].
      * exists 0. split; [auto|]. split; [f_equal; lia|].
        split; [discriminate | intros [?|[_ ?]]; [lia | discriminate]].
    + exists 1. split; [auto|]. split; [reflexivity|]. split; [intros _; left; lia | reflexivity].
  - pose proof (Heven eq_refl) as Hlt.
    exists 0. split; [auto|]. split.
    + destruct (negb _); cbn [loc_of_shr_record round_nearest_even]; f_equal; lia.
    + split; [discriminate | intros [?|[? _]]; lia].
Qed.

(** [nearest] is monotone. *)
Lemma nearest_mono (v w : Z) : 0 <= v <= w -> nearest v <= nearest w.
Proof.
  intros [Hv Hvw].
  pose proof (Zdigits2_le v w (conj Hv Hvw)) as Hd.
  destruct (Z.le_gt_cases (Zdigits2 w) 53) as [Hws|Hwb].
  { rewrite !nearest_small by lia. exact Hvw. }
  assert (Hw0 : 0 < w) by (destruct w; simpl in *; lia).
  destruct (nearest_big w Hw0 Hwb) as (Hqw & uw & Huw & Hnw & Hupw).
  set (nw := Zdigits2 w - 53) in *.
  assert (Hpw : 0 < 2 ^ nw) by (apply Z.pow_pos_nonneg; unfold nw; lia).
  destruct (Z.le_gt_cases (Zdigits2 v) 53) as [Hvs|Hvb].
  { rewrite nearest_small by exact Hvs.
    pose proof (Z_div_mod_eq_full w (2 ^ nw)) as Hw.
    pose proof (Z.mod_pos_bound w (2 ^ nw) Hpw) as Hr.
    destruct (Z.eq_dec v 0) as [->|Hv0]; [rewrite Hnw; nia|].
    pose proof (Zdigits2_bounds v ltac:(lia)) as [_ Hhi].
    assert (2 ^ Zdigits2 v <= 2 ^ 53) by (apply Z.pow_le_mono_r; lia).
    rewrite Hnw. assert (2 ^ 52 * 2 ^ nw <= (w / 2 ^ nw + uw) * 2 ^ nw) by nia.
    assert (2 ^ 53 <= 2 ^ 52 * 2 ^ nw).
    { change (2 ^ 53) with (2 ^ 52 * 2 ^ 1). apply Z.mul_le_mono_nonneg_l; [lia|].
      apply Z.pow_le_mono_r; unfold nw; lia. }
    lia. }
  assert (Hv0 : 0 < v) by (destruct v; simpl in *; lia).
  destruct (nearest_big v Hv0 Hvb) as (Hqv & uv & Huv & Hnv & Hupv).
  set (nv := Zdigits2 v - 53) in *.
  assert (Hpv : 0 < 2 ^ nv) by (apply Z.pow_pos_nonneg; unfold nv; lia).
  rewrite Hnv, Hnw.
  destruct (Z.eq_dec nv nw) as [Heq|Hne].
  - rewrite Heq in *. clear Heq.
    pose proof (Z_div_mod_eq_full v (2 ^ nw)) as Hve.
    pose proof (Z_div_mod_eq_full w (2 ^ nw)) as Hwe.
    pose proof (Z.mod_pos_bound v (2 ^ nw) Hpw) as Hrv.
    pose proof (Z.mod_pos_bound w (2 ^ nw) Hpw) as Hrw.
    assert (Hq : v / 2 ^ nw <= w / 2 ^ nw) by (apply Z.div_le_mono; lia).
    destruct (Z.eq_dec (v / 2 ^ nw) (w / 2 ^ nw)) as [Hqe|Hqne].
    + rewrite Hqe in *. apply Z.mul_le_mono_nonneg_r; [lia|].
      assert (Hrem : v mod 2 ^ nw <= w mod 2 ^ nw) by lia.
      destruct Huv as [-> | ->]; [destruct Huw; lia|].
      destruct (proj1 Hupv eq_refl) as [Hgt|[Hhalf Hodd]].
      * assert (uw = 1) by (apply Hupw; left; lia). lia.
      * assert (uw = 1); [|lia]. apply Hupw.
        destruct (Z.eq_dec (w mod 2 ^ nw) (2 ^ (nw - 1))); [right; auto | left; lia].
    + assert ((v / 2 ^ nw + uv) <= w / 2 ^ nw + uw) by (destruct Huv, Huw; lia). nia.
  - assert (Hlt : nv < nw) by (unfold nv, nw in *; lia).
    assert (Hpow : 2 ^ 53 * 2 ^ nv <= 2 ^ 52 * 2 ^ nw).
    { change (2 ^ 53) with (2 ^ 52 * 2 ^ 1). rewrite <- Z.mul_assoc, <- Z.pow_add_r by (unfold nv; lia).
      apply Z.mul_le_mono_nonneg_l; [lia|]. apply Z.pow_le_mono_r; unfold nv in *; lia. }
    assert ((v / 2 ^ nv + uv) * 2 ^ nv <= 2 ^ 53 * 2 ^ nv) by (destruct Huv; nia).
    assert (2 ^ 52 * 2 ^ nw <= (w / 2 ^ nw + uw) * 2 ^ nw) by (destruct Huw; nia).
    lia.
Qed.
Lemma nearest_repr (m k : Z) :
  0 <= m -> Zdigits2 m <= 53 -> 0 <= k -> nearest (m * 2 ^ k) = m * 2 ^ k.
Proof.
  intros Hm Hd Hk. destruct (Z.eq_dec m 0) as [->|Hm0]; [reflexivity|].
  assert (Hpk : 0 < 2 ^ k) by (apply Z.pow_pos_nonneg; lia).
  pose proof (Zdigits2_shift m k ltac:(lia) Hk) as Hs.
  destruct (Z.le_gt_cases (Zdigits2 (m * 2 ^ k)) 53) as [Hsmall|Hbig].
  { apply nearest_small. exact Hsmall. }
  destruct (nearest_big (m * 2 ^ k) ltac:(nia) Hbig) as (_ & u & Hu & -> & Hup).
  set (n := Zdigits2 (m * 2 ^ k) - 53) in *.
  assert (Hn : 0 < n <= k) by (unfold n; lia).
  assert (Hpn : 0 < 2 ^ n) by (apply Z.pow_pos_nonneg; lia).
  assert (Hsplit : m * 2 ^ k = m * 2 ^ (k - n) * 2 ^ n).
  { rewrite <- Z.mul_assoc, <- Z.pow_add_r by lia. do 2 f_equal. lia. }
  assert (Hrem : (m * 2 ^ k) mod 2 ^ n = 0) by (rewrite Hsplit; apply Z_mod_mult).
  assert (Hq : m * 2 ^ k / 2 ^ n = m * 2 ^ (k - n)).
  { rewrite Hsplit at 1. apply Z_div_mult_full. lia. }
  assert (Hh : 0 < 2 ^ (n - 1)) by (apply Z.pow_pos_nonneg; lia).
  assert (Hu0 : u = 0).
  { destruct Hu as [?|Hu1]; [assumption|].
    apply Hup in Hu1. rewrite Hrem in Hu1. lia. }
  rewrite Hu0, Hq, Z.add_0_r. symmetry. exact Hsplit.
Qed.

Lemma inf_ulps_eq : inf_ulps = 1 * 2 ^ 2098.
Proof. unfold inf_ulps. lia. Qed.

Lemma nearest_inf : nearest inf_ulps = inf_ulps.
Proof. rewrite inf_ulps_eq. apply nearest_repr; simpl; lia. Qed.

Lemma rounded_mono (v w : Z) : 0 <= v <= w -> rounded v <= rounded w.
Proof.
  intros H. unfold rounded. pose proof (nearest_mono v w H). lia.
Qed.

Lemma rounded_inf (v : Z) : inf_ulps <= v -> rounded v = inf_ulps.
Proof.
  intros H. unfold rounded.
  assert (0 <= inf_ulps) by (unfold inf_ulps; apply Z.pow_nonneg; lia).
  pose proof (nearest_mono inf_ulps v ltac:(lia)) as Hm. rewrite nearest_inf in Hm. lia.
Qed.

Lemma rounded_0 : rounded 0 = 0.
Proof.
  unfold rounded. rewrite nearest_small by (simpl; lia).
  assert (0 < inf_ulps) by (unfold inf_ulps; apply Z.pow_pos_nonneg; lia). lia.
Qed.

(** Valid floats. *)
Lemma valid_finite (s : bool) (m : positive) (e : Z) :
  valid_binary (S754_finite s m e) = true ->
  -1074 <= e <= 971 /\ Zdigits2 (Zpos m) <= 53 /\
  (e = -1074 \/ Zdigits2 (Zpos m) = 53).
Proof.
  unfold SpecFloat.valid_binary, bounded, canonical_mantissa.
  rewrite andb_true_iff, Z.eqb_eq, Z.leb_le, fexp_eq.
  change (emax - prec) with 971. cbn [Zdigits2]. lia.
Qed.

Lemma ulps_finite (s : bool) (m : positive) (e : Z) :
  valid_binary (S754_finite s m e) = true ->
  0 < ulps (S754_finite s m e) < inf_ulps.
Proof.
  intros Hv. destruct (valid_finite s m e Hv) as (He & Hd & _).
  pose proof (digits2_pos_bounds m) as [_ Hhi]. cbn [Zdigits2] in Hd.
  cbn [ulps].
  assert (Hp : 0 < 2 ^ (e + 1074)) by (apply Z.pow_pos_nonneg; lia).
  split; [lia|].
  assert (H1 : 2 ^ Zpos (digits2_pos m) <= 2 ^ 53) by (apply Z.pow_le_mono_r; lia).
  assert (H2 : 2 ^ (e + 1074) <= 2 ^ 2045) by (apply Z.pow_le_mono_r; lia).
  unfold inf_ulps. change (2 ^ 2098) with (2 ^ 53 * 2 ^ 2045).
  apply Z.le_lt_trans with (Zpos m * 2 ^ 2045).
  - apply Z.mul_le_mono_nonneg_l; lia.
  - apply Z.mul_lt_mono_pos_r; [apply Z.pow_pos_nonneg|]; lia.
Qed.

Lemma rounded_ulps (f : spec_float) :
  valid_binary f = true -> nonneg f -> rounded (ulps f) = ulps f.
Proof.
  intros Hv Hn. destruct f as [s|s| |s m e]; cbn [ulps].
  - apply rounded_0.
  - apply rounded_inf. lia.
  - destruct Hn.
  - pose proof (ulps_finite s m e Hv) as Hb. cbn [ulps] in Hb.
    destruct (valid_finite s m e Hv) as (He & Hd & _).
    unfold rounded. rewrite nearest_repr by lia. lia.
Qed.
Lemma pow2_split (a b : Z) : 0 <= a -> 0 <= b -> 2 ^ (a + b) = 2 ^ a * 2 ^ b.
Proof. intros. apply Z.pow_add_r; assumption. Qed.

(** [binary_round] of a whole number of units. *)
Lemma binary_round_units (v : positive) :
  let r := binary_round prec emax false v (-1074) in
  nonneg r /\ ulps r = rounded (Zpos v).
Proof.
  intros r. subst r. unfold binary_round.
  set (d := Zpos (digits2_pos v)).
  pose proof (digits2_pos_bounds v) as Hv. fold d in Hv.
  assert (Hd : 0 < d) by (unfold d; lia).
  rewrite fexp_eq.
  assert (Hal : shl_align v (-1074) (Z.max (d + -1074 - 53) (-1074)) = (v, -1074)).
  { unfold shl_align. destruct (Z.max (d + -1074 - 53) (-1074) - -1074) eqn:E; try reflexivity. lia. }
  rewrite Hal. unfold binary_round_aux, shr_fexp.
  cbn [Zdigits2 shr_record_of_loc]. fold d. rewrite fexp_eq.
  assert (Htop : inf_ulps = 2 ^ 53 * 2 ^ 2045) by reflexivity.
  destruct (Z.le_gt_cases d 53) as [Hsmall|Hbig].
  - rewrite shr_nonpos by lia.
    cbn [shr_m loc_of_shr_record round_nearest_even Zdigits2 shr_record_of_loc]. fold d.
    rewrite fexp_eq, shr_nonpos by lia. cbn [shr_m].
    change (-1074 <=? emax - prec) with true. cbn [nonneg ulps].
    split; [reflexivity|].
    change (-1074 + 1074) with 0. rewrite Z.pow_0_r, Z.mul_1_r.
    unfold rounded. rewrite nearest_small by (cbn [Zdigits2]; fold d; lia).
    assert (2 ^ d <= 2 ^ 53) by (apply Z.pow_le_mono_r; lia).
    assert (0 < 2 ^ 2045) by (apply Z.pow_pos_nonneg; lia). nia.
  - set (n := d - 53).
    assert (Hn : 0 < n) by (unfold n; lia).
    replace (Z.max (d + -1074 - 53) (-1074) - -1074) with n by (unfold n; lia).
    rewrite shr_pos by exact Hn.
    replace (Z.to_nat n) with (S (Z.to_nat (n - 1))) by lia.
    rewrite shr_iter_exact by lia.
    replace (Z.of_nat (S (Z.to_nat (n - 1)))) with n by lia.
    replace (Z.of_nat (Z.to_nat (n - 1))) with (n - 1) by lia.
    cbn [shr_m].
    destruct (nearest_big (Zpos v) ltac:(lia) ltac:(cbn [Zdigits2]; fold d; lia))
      as (Hq & u & Hu & Hnear & _).
    cbn [Zdigits2] in Hq, Hnear. fold d n in Hq, Hnear.
    assert (Hm1 : round_nearest_even (Zpos v / 2 ^ n)
                    (loc_of_shr_record
                       {| shr_m := Zpos v / 2 ^ n;
                          shr_r := Z.odd (Zpos v / 2 ^ (n - 1));
                          shr_s := negb (Zpos v mod 2 ^ (n - 1) =? 0) |}) =
                  Zpos v / 2 ^ n + u).
    { assert (Hpn : 0 < 2 ^ n) by (apply Z.pow_pos_nonneg; lia).
      unfold nearest in Hnear. cbn [Zdigits2] in Hnear. fold d n in Hnear.
      destruct (Z.leb_spec n 0) as [?|_]; [lia|].
      apply Z.mul_reg_r in Hnear; [exact Hnear | lia]. }
    rewrite Hm1. set (m1 := Zpos v / 2 ^ n + u) in *.
    assert (Hb1 : 2 ^ 52 <= m1 <= 2 ^ 53) by (unfold m1; destruct Hu; lia).
    assert (Hpn : 0 < 2 ^ n) by (apply Z.pow_pos_nonneg; lia).
    unfold rounded. rewrite Hnear. rewrite fexp_eq.
    destruct (Z.eq_dec m1 (2 ^ 53)) as [Hcarry|Hno].
    + rewrite Hcarry. change (Zdigits2 (2 ^ 53)) with 54.
      replace (Z.max (54 + (-1074 + n) - 53) (-1074) - (-1074 + n)) with 1 by lia.
      rewrite shr_pos by lia. change (Z.to_nat 1) with 1%nat.
      unfold Nat.iter. cbn [nat_rect]. rewrite shr_1_spec by lia. cbn [shr_m].
      change (2 ^ 53 / 2) with (Zpos (2 ^ 52)).
      change (emax - prec) with 971.
      destruct (Z.leb_spec (-1074 + n + 1) 971) as [Hfin|Hinf]; cbn [nonneg ulps].
      * split; [reflexivity|].
        replace (-1074 + n + 1 + 1074) with (n + 1) by lia.
        rewrite pow2_split by lia. change (Zpos (2 ^ 52)) with (2 ^ 52).
        assert (2 ^ n <= 2 ^ 2044) by (apply Z.pow_le_mono_r; lia).
        change (2 ^ 2045) with (2 ^ 1 * 2 ^ 2044) in Htop. lia.
      * split; [reflexivity|].
        assert (2 ^ 2045 <= 2 ^ n) by (apply Z.pow_le_mono_r; lia). nia.
    + assert (Hdig : Zdigits2 m1 = 53) by (apply Zdigits2_unique; simpl; lia).
      rewrite Hdig. rewrite shr_nonpos by lia. cbn [shr_m].
      destruct m1 as [|m1'|m1'] eqn:Em1; try lia.
      change (emax - prec) with 971.
      destruct (Z.leb_spec (-1074 + n) 971) as [Hfin|Hinf]; cbn [nonneg ulps].
      * split; [reflexivity|].
        replace (-1074 + n + 1074) with n by lia.
        assert (2 ^ n <= 2 ^ 2045) by (apply Z.pow_le_mono_r; lia). nia.
      * split; [reflexivity|].
        assert (2 ^ 2046 <= 2 ^ n) by (apply Z.pow_le_mono_r; lia).
        change (2 ^ 2046) with (2 ^ 1 * 2 ^ 2045) in H. nia.
Qed.
Lemma pos_iter_xO (m d : positive) : Zpos (Pos.iter xO m d) = Zpos m * 2 ^ Zpos d.
Proof.
  induction d as [|d IH] using Pos.peano_ind.
  - simpl. lia.
  - rewrite Pos.iter_succ, Pos2Z.inj_succ, Z.pow_succ_r by lia.
    rewrite Pos2Z.inj_xO, IH. lia.
Qed.

Lemma nat_iter_xO (m : positive) (k : nat) :
  Zpos (Nat.iter k xO m) = Zpos m * 2 ^ Z.of_nat k.
Proof.
  induction k as [|k IH].
  - simpl. lia.
  - rewrite Nat.iter_succ, Nat2Z.inj_succ, Z.pow_succ_r by lia.
    rewrite Pos2Z.inj_xO, IH. lia.
Qed.

Lemma xO_half (m : positive) : Zpos m~0 / 2 = Zpos m.
Proof. rewrite <- Z.div2_div. reflexivity. Qed.

(** [binary_round] depends only on the value [m * 2^e]. *)
Lemma binary_round_double (s : bool) (m : positive) (e : Z) :
  binary_round prec emax s (m~0) (e - 1) = binary_round prec emax s m e.
Proof.
  unfold binary_round. cbn [digits2_pos]. rewrite Pos2Z.inj_succ.
  replace (Z.succ (Zpos (digits2_pos m)) + (e - 1)) with (Zpos (digits2_pos m) + e) by lia.
  set (E := fexp prec emax (Zpos (digits2_pos m) + e)).
  unfold shl_align.
  destruct (E - e) as [|p|p] eqn:He.
  - replace (E - (e - 1)) with 1 by lia.
    unfold binary_round_aux, shr_fexp. cbn [Zdigits2 digits2_pos shr_record_of_loc].
    rewrite Pos2Z.inj_succ.
    replace (Z.succ (Zpos (digits2_pos m)) + (e - 1)) with (Zpos (digits2_pos m) + e) by lia.
    fold E. replace (E - (e - 1)) with 1 by lia. replace (E - e) with 0 by lia.
    rewrite (shr_pos _ (e - 1) 1) by lia. rewrite (shr_nonpos _ e 0) by lia.
    change (Z.to_nat 1) with 1%nat.
    unfold Nat.iter. cbn [nat_rect]. rewrite shr_1_spec by lia.
    replace (e - 1 + 1) with e by lia.
    rewrite xO_half. reflexivity.
  - replace (E - (e - 1)) with (Zpos (p + 1)) by lia.
    unfold binary_round_aux, shr_fexp. cbn [Zdigits2 digits2_pos shr_record_of_loc].
    rewrite Pos2Z.inj_succ.
    replace (Z.succ (Zpos (digits2_pos m)) + (e - 1)) with (Zpos (digits2_pos m) + e) by lia.
    fold E. replace (E - (e - 1)) with (Zpos p + 1) by lia. rewrite He.
    rewrite (shr_pos _ (e - 1) (Zpos p + 1)) by lia. rewrite (shr_pos _ e (Zpos p)) by lia.
    replace (Z.to_nat (Zpos p + 1)) with (S (Z.to_nat (Zpos p))) by lia.
    rewrite Nat.iter_succ_r, shr_1_spec by lia.
    rewrite xO_half. cbn [Z.odd orb].
    replace (e - 1 + (Zpos p + 1)) with (e + Zpos p) by lia. reflexivity.
  - destruct (E - (e - 1)) as [|q|q] eqn:He'; try lia.
    + replace (e - 1) with E by lia.
      replace p with 1%positive by lia. reflexivity.
    + replace p with (Pos.succ q) by lia.
      rewrite Pos.iter_succ_r. reflexivity.
Qed.

Lemma binary_round_scale (s : bool) (m : positive) (e : Z) (k : nat) :
  binary_round prec emax s (Nat.iter k xO m) (e - Z.of_nat k) = binary_round prec emax s m e.
Proof.
  induction k as [|k IH].
  - simpl. f_equal. lia.
  - rewrite Nat.iter_succ, Nat2Z.inj_succ.
    replace (e - Z.succ (Z.of_nat k)) with (e - Z.of_nat k - 1) by lia.
    rewrite binary_round_double. exact IH.
Qed.

Lemma shl_align_fst (m : positive) (e e' : Z) :
  e' <= e -> Zpos (fst (shl_align m e e')) = Zpos m * 2 ^ (e - e').
Proof.
  intros He. unfold shl_align. destruct (e' - e) as [|p|p] eqn:E; try lia.
  - replace (e - e') with 0 by lia. simpl. lia.
  - cbn [fst]. rewrite pos_iter_xO. f_equal. f_equal. lia.
Qed.

(** The sum of two floats that are not negative. *)
Lemma SFadd_ulps (x y : spec_float) :
  valid_binary x = true -> valid_binary y = true -> nonneg x -> nonneg y ->
  nonneg (SF64add x y) /\ ulps (SF64add x y) = rounded (ulps x + ulps y).
Proof.
  intros Hvx Hvy Hx Hy. unfold SF64add.
  assert (Ht : 0 < inf_ulps) by (unfold inf_ulps; apply Z.pow_pos_nonneg; lia).
  destruct x as [sx|sx| |sx mx ex], y as [sy|sy| |sy my ey];
    cbn [nonneg] in Hx, Hy; try contradiction; subst.
  - (* zero + zero *)
    unfold SFadd. destruct sx, sy; cbn [nonneg ulps]; change (0 + 0) with 0; rewrite rounded_0; auto.
  - split; [reflexivity|]. cbn [SFadd ulps]. rewrite rounded_inf; lia.
  - cbn [SFadd]. split; [reflexivity|].
    rewrite Z.add_0_l. symmetry. apply rounded_ulps; [exact Hvy | reflexivity].
  - split; [reflexivity|]. cbn [SFadd ulps]. rewrite rounded_inf; lia.
  - split; [reflexivity|]. cbn [SFadd ulps]. rewrite rounded_inf; lia.
  - pose proof (ulps_finite _ _ _ Hvy).
    split; [reflexivity|]. cbn [SFadd]. cbn [ulps] in *. rewrite rounded_inf; lia.
  - cbn [SFadd]. split; [reflexivity|]. change (ulps (S754_zero sy)) with 0.
    rewrite Z.add_0_r. symmetry. apply rounded_ulps; [exact Hvx | reflexivity].
  - pose proof (ulps_finite _ _ _ Hvx).
    split; [reflexivity|]. cbn [SFadd]. cbn [ulps] in *. rewrite rounded_inf; lia.
  - (* finite + finite *)
    destruct (valid_finite _ _ _ Hvx) as (Hex & _).
    destruct (valid_finite _ _ _ Hvy) as (Hey & _).
    cbn [SFadd cond_Zopp]. set (ez := Z.min ex ey).
    set (a := fst (shl_align mx ex ez)). set (b := fst (shl_align my ey ez)).
    change (Zpos a + Zpos b) with (Zpos (a + b)). cbn [binary_normalize].
    rewrite <- (binary_round_scale false (a + b) ez (Z.to_nat (ez + 1074))).
    replace (ez - Z.of_nat (Z.to_nat (ez + 1074))) with (-1074) by (unfold ez; lia).
    destruct (binary_round_units (Nat.iter (Z.to_nat (ez + 1074)) xO (a + b)%positive))
      as [Hn Hu].
    split; [exact Hn|]. rewrite Hu. f_equal.
    rewrite nat_iter_xO, Pos2Z.inj_add. unfold a, b.
    rewrite !shl_align_fst by (unfold ez; lia).
    rewrite Z2Nat.id by (unfold ez; lia). cbn [ulps].
    rewrite Z.mul_add_distr_r, <- !Z.mul_assoc, <- !pow2_split by (unfold ez; lia).
    f_equal; do 2 f_equal; lia.
Qed.
(** Comparison of floats that are not negative. *)
Lemma ulps_exp_lt (sx sy : bool) (mx my : positive) (ex ey : Z) :
  valid_binary (S754_finite sx mx ex) = true ->
  valid_binary (S754_finite sy my ey) = true ->
  ex < ey ->
  ulps (S754_finite sx mx ex) < ulps (S754_finite sy my ey).
Proof.
  intros Hvx Hvy Hlt. cbn [ulps].
  destruct (valid_finite _ _ _ Hvx) as (Hex & Hdx & _).
  destruct (valid_finite _ _ _ Hvy) as (Hey & _ & [Hey'|Hdy]); [lia|].
  cbn [Zdigits2] in Hdx, Hdy.
  pose proof (digits2_pos_bounds mx) as [_ Hx].
  pose proof (digits2_pos_bounds my) as [Hy _]. rewrite Hdy in Hy.
  assert (H1 : 2 ^ Zpos (digits2_pos mx) <= 2 ^ 53) by (apply Z.pow_le_mono_r; lia).
  replace (ey + 1074) with ((ey - ex - 1) + 1 + (ex + 1074)) by lia.
  rewrite (pow2_split (ey - ex - 1 + 1) (ex + 1074)), (pow2_split (ey - ex - 1) 1) by lia.
  change (2 ^ 1) with 2. change (53 - 1) with 52 in Hy.
  assert (Hp : 0 < 2 ^ (ex + 1074)) by (apply Z.pow_pos_nonneg; lia).
  assert (Hq : 0 < 2 ^ (ey - ex - 1)) by (apply Z.pow_pos_nonneg; lia).
  change (2 ^ 53) with (2 * 2 ^ 52) in H1.
  assert (Zpos mx < 2 * Zpos my) by lia.
  assert (2 * Zpos my <= Zpos my * (2 ^ (ey - ex - 1) * 2)) by nia.
  nia.
Qed.

Lemma SFcompare_ulps (x y : spec_float) :
  valid_binary x = true -> valid_binary y = true -> nonneg x -> nonneg y ->
  SFcompare x y = Some (ulps x ?= ulps y).
Proof.
  intros Hvx Hvy Hx Hy.
  assert (Ht : 0 < inf_ulps) by (unfold inf_ulps; apply Z.pow_pos_nonneg; lia).
  destruct x as [sx|sx| |sx mx ex], y as [sy|sy| |sy my ey];
    cbn [nonneg] in Hx, Hy; try contradiction; subst; cbn [SFcompare ulps].
  - reflexivity.
  - rewrite (proj2 (Z.compare_lt_iff _ _) Ht). reflexivity.
  - pose proof (ulps_finite _ _ _ Hvy) as H. cbn [ulps] in H.
    rewrite (proj2 (Z.compare_lt_iff _ _) (proj1 H)). reflexivity.
  - rewrite (proj2 (Z.compare_gt_iff _ _) Ht). reflexivity.
  - rewrite Z.compare_refl. reflexivity.
  - pose proof (ulps_finite _ _ _ Hvy) as H. cbn [ulps] in H.
    rewrite (proj2 (Z.compare_gt_iff _ _) (proj2 H)). reflexivity.
  - pose proof (ulps_finite _ _ _ Hvx) as H. cbn [ulps] in H.
    rewrite (proj2 (Z.compare_gt_iff _ _) (proj1 H)). reflexivity.
  - pose proof (ulps_finite _ _ _ Hvx) as H. cbn [ulps] in H.
    rewrite (proj2 (Z.compare_lt_iff _ _) (proj2 H)). reflexivity.
  - f_equal. destruct (Z.compare_spec ex ey) as [Heq|Hlt|Hgt].
    + subst ey. change (PosDef.Pos.compare_cont Eq mx my) with (Zpos mx ?= Zpos my).
      apply Zmult_compare_compat_r.
      destruct (valid_finite _ _ _ Hvx) as (He & _).
      apply Z.lt_gt, Z.pow_pos_nonneg; lia.
    + symmetry. apply Z.compare_lt_iff.
      exact (ulps_exp_lt false false mx my ex ey Hvx Hvy Hlt).
    + symmetry. apply Z.compare_gt_iff.
      exact (ulps_exp_lt false false my mx ey ex Hvy Hvx Hgt).
Qed.
Lemma shr_m_e (mrs : shr_record) (e n : Z) :
  0 <= shr_m mrs ->
  shr_m (fst (shr mrs e n)) = shr_m mrs / 2 ^ Z.max 0 n /\
  snd (shr mrs e n) = e + Z.max 0 n.
Proof.
  intros Hm. destruct (Z.le_gt_cases n 0) as [Hn|Hn].
  - rewrite shr_nonpos by exact Hn. replace (Z.max 0 n) with 0 by lia.
    cbn [fst snd]. rewrite Z.pow_0_r, Z.div_1_r. split; [reflexivity | lia].
  - rewrite shr_pos by lia. replace (Z.max 0 n) with n by lia. cbn [fst snd].
    rewrite shr_iter_m by exact Hm. rewrite Z2Nat.id by lia. split; reflexivity.
Qed.

Lemma shr_record_of_loc_m (m : Z) (l : location) : shr_m (shr_record_of_loc m l) = m.
Proof. destruct l as [|[]]; reflexivity. Qed.

Lemma Zdigits2_pow2 (k : Z) : 0 <= k -> Zdigits2 (2 ^ k) = k + 1.
Proof.
  intros Hk. apply Zdigits2_unique; [|lia].
  replace (k + 1 - 1) with k by lia. split; [lia|].
  apply Z.pow_lt_mono_r; lia.
Qed.

(** The value of [1.0]. *)
Definition one_ulps : Z := 2 ^ 1074.

(** Rounding a number below 1 gives at most 1. *)
Lemma round_aux_below_one (m e : Z) (l : location) :
  0 <= m -> e <= 0 -> m + 1 <= 2 ^ (- e) ->
  let r := binary_round_aux prec emax false m e l in
  nonneg r /\ ulps r <= one_ulps.
Proof.
  intros Hm He Hlt r. subst r. unfold binary_round_aux, shr_fexp.
  (* first shift *)
  set (n1 := fexp prec emax (Zdigits2 m + e) - e).
  pose proof (shr_m_e (shr_record_of_loc m l) e n1) as H1.
  rewrite shr_record_of_loc_m in H1. specialize (H1 Hm).
  destruct (shr (shr_record_of_loc m l) e n1) as [mrs1 e1]. cbn [fst snd] in H1.
  destruct H1 as [Hq He1].
  assert (Hd : Zdigits2 m + e <= 0).
  { destruct (Z.eq_dec m 0) as [->|Hm0]; [simpl; lia|].
    pose proof (Zdigits2_le m (2 ^ (- e)) ltac:(lia)) as Hle.
    rewrite Zdigits2_pow2 in Hle by lia.
    destruct (Z.eq_dec (Zdigits2 m) (- e + 1)) as [Heq|Hne]; [|lia].
    pose proof (Zdigits2_bounds m ltac:(lia)) as [Hlo _].
    rewrite Heq in Hlo. replace (- e + 1 - 1) with (- e) in Hlo by lia. lia. }
  assert (Hn1 : e1 <= 0 /\ -1074 <= e1 \/ e1 = e).
  { unfold n1 in He1. rewrite fexp_eq in He1. lia. }
  assert (He1' : e1 <= 0) by lia.
  set (k1 := Z.max 0 n1) in *.
  assert (Hk1 : 0 <= k1) by (unfold k1; lia).
  assert (Hpk1 : 0 < 2 ^ k1) by (apply Z.pow_pos_nonneg; lia).
  assert (Hq0 : 0 <= shr_m mrs1) by (rewrite Hq; apply Z.div_pos; lia).
  assert (Hq1 : shr_m mrs1 + 1 <= 2 ^ (- e1)).
  { assert (shr_m mrs1 < 2 ^ (- e1)); [|lia]. rewrite Hq.
    apply Z.div_lt_upper_bound; [lia|].
    rewrite <- pow2_split by lia. replace (k1 + - e1) with (- e) by lia. lia. }
  (* rounding *)
  pose proof (rne_bounds (shr_m mrs1) (loc_of_shr_record mrs1)) as Hr.
  set (m1 := round_nearest_even (shr_m mrs1) (loc_of_shr_record mrs1)) in *.
  (* second shift *)
  set (n2 := fexp prec emax (Zdigits2 m1 + e1) - e1).
  pose proof (shr_m_e (shr_record_of_loc m1 loc_Exact) e1 n2) as H2.
  rewrite shr_record_of_loc_m in H2. specialize (H2 ltac:(lia)).
  destruct (shr (shr_record_of_loc m1 loc_Exact) e1 n2) as [mrs2 e2]. cbn [fst snd] in H2.
  destruct H2 as [Hm2 He2].
  assert (Hd1 : Zdigits2 m1 + e1 <= 1).
  { pose proof (Zdigits2_le m1 (2 ^ (- e1)) ltac:(lia)) as Hle.
    rewrite Zdigits2_pow2 in Hle by lia. lia. }
  assert (He2' : -1074 <= e2 <= 0).
  { unfold n2 in He2. rewrite fexp_eq in He2. lia. }
  set (k2 := Z.max 0 n2) in *.
  assert (Hk2 : 0 <= k2) by (unfold k2; lia).
  assert (Hpk2 : 0 < 2 ^ k2) by (apply Z.pow_pos_nonneg; lia).
  assert (Hm2' : 0 <= shr_m mrs2 <= 2 ^ (- e2)).
  { rewrite Hm2. split; [apply Z.div_pos; lia|].
    apply Z.div_le_upper_bound; [lia|].
    rewrite <- pow2_split by lia. replace (k2 + - e2) with (- e1) by lia. lia. }
  destruct (shr_m mrs2) as [|m2|m2]; [| |lia].
  - cbn [nonneg ulps]. split; [exact I|]. unfold one_ulps. apply Z.pow_nonneg. lia.
  - change (emax - prec) with 971.
    destruct (Z.leb_spec e2 971) as [_|?]; [|lia]. cbn [nonneg ulps].
    split; [reflexivity|]. unfold one_ulps.
    apply Z.le_trans with (2 ^ (- e2) * 2 ^ (e2 + 1074)).
    + apply Z.mul_le_mono_nonneg_r; [apply Z.pow_nonneg|]; lia.
    + rewrite <- pow2_split by lia. replace (- e2 + (e2 + 1074)) with 1074 by lia. lia.
Qed.
Lemma below_one (m : positive) (e : Z) :
  -1074 <= e -> 
  (Zpos m * 2 ^ (e + 1074) <= one_ulps -> e <= 0 /\ Zpos m <= 2 ^ (- e)) /\
  (Zpos m * 2 ^ (e + 1074) < one_ulps -> e <= 0 /\ Zpos m < 2 ^ (- e)).
Proof.
  intros He. unfold one_ulps.
  assert (Hp : 0 < 2 ^ (e + 1074)) by (apply Z.pow_pos_nonneg; lia).
  assert (He0 : Zpos m * 2 ^ (e + 1074) <= 2 ^ 1074 -> e <= 0).
  { intros H. destruct (Z.le_gt_cases e 0) as [?|Hgt]; [assumption|].
    assert (2 ^ 1074 < 2 ^ (e + 1074)) by (apply Z.pow_lt_mono_r; lia). nia. }
  split; intros H; (split; [apply He0; lia|]); specialize (He0 ltac:(lia));
    assert (Hsplit : 2 ^ 1074 = 2 ^ (- e) * 2 ^ (e + 1074))
      by (rewrite <- pow2_split by lia; f_equal; lia);
    rewrite Hsplit in H.
  - apply Z.mul_le_mono_pos_r in H; assumption.
  - apply Z.mul_lt_mono_pos_r in H; assumption.
Qed.

(** The product of two floats that are at most 1, one of them below. *)
Lemma SFmul_below_one (x y : spec_float) :
  valid_binary x = true -> valid_binary y = true -> nonneg x -> nonneg y ->
  ulps x <= one_ulps -> ulps y < one_ulps ->
  nonneg (SF64mul x y) /\ ulps (SF64mul x y) <= one_ulps.
Proof.
  intros Hvx Hvy Hx Hy Hxo Hyo. unfold SF64mul.
  assert (H1 : 0 <= one_ulps) by (unfold one_ulps; apply Z.pow_nonneg; lia).
  assert (Ht : one_ulps < inf_ulps) by (unfold one_ulps, inf_ulps; apply Z.pow_lt_mono_r; lia).
  destruct x as [sx|sx| |sx mx ex], y as [sy|sy| |sy my ey];
    cbn [nonneg ulps] in Hx, Hy, Hxo, Hyo; try contradiction; subst; try lia;
    cbn [SFmul nonneg ulps xorb]; try (split; [exact I | exact H1]).
  destruct (valid_finite _ _ _ Hvx) as (Hex & _).
  destruct (valid_finite _ _ _ Hvy) as (Hey & _).
  destruct (proj1 (below_one mx ex ltac:(lia)) Hxo) as [Hex0 Hmx].
  destruct (proj2 (below_one my ey ltac:(lia)) Hyo) as [Hey0 Hmy].
  apply round_aux_below_one; [lia | lia |].
  replace (- (ex + ey)) with (- ex + - ey) by lia. rewrite pow2_split by lia.
  rewrite Pos2Z.inj_mul. nia.
Qed.

Lemma div_eucl_div_mod (a b : Z) : Z.div_eucl a b = (a / b, a mod b).
Proof. unfold Z.div, Z.modulo. destruct (Z.div_eucl a b). reflexivity. Qed.

Lemma SFdiv_core_q (m1 m2 : positive) (e1 e2 : Z) :
  let e' := Z.min (fexp prec emax (Zdigits2 (Zpos m1) + e1 - (Zdigits2 (Zpos m2) + e2)))
                  (e1 - e2) in
  exists l, SFdiv_core_binary prec emax (Zpos m1) e1 (Zpos m2) e2 =
            (Zpos m1 * 2 ^ (e1 - e2 - e') / Zpos m2, e', l).
Proof.
  intros e'. unfold SFdiv_core_binary. fold e'.
  set (s := e1 - e2 - e').
  assert (Hs : 0 <= s) by (unfold s, e'; lia).
  assert (Hm : match s with Zpos _ => Z.shiftl (Zpos m1) s | 0 => Zpos m1 | Zneg _ => 0 end
               = Zpos m1 * 2 ^ s).
  { destruct s as [|p|p] eqn:E; try lia. apply Z.shiftl_mul_pow2. lia. }
  rewrite Hm, div_eucl_div_mod. eexists. reflexivity.
Qed.

(** The quotient of a float by one that is not smaller. *)
Lemma SFdiv_le_one (x y : spec_float) :
  valid_binary x = true -> valid_binary y = true -> nonneg x -> nonneg y ->
  ulps x <= ulps y -> 0 < ulps y ->
  SF64div x y = S754_nan \/
  (nonneg (SF64div x y) /\ ulps (SF64div x y) <= one_ulps).
Proof.
  intros Hvx Hvy Hx Hy Hle Hpos. unfold SF64div.
  assert (H1 : 0 <= one_ulps) by (unfold one_ulps; apply Z.pow_nonneg; lia).
  destruct x as [sx|sx| |sx mx ex], y as [sy|sy| |sy my ey];
    cbn [nonneg ulps] in Hx, Hy, Hle, Hpos; try contradiction; subst; try lia;
    cbn [SFdiv xorb]; try (right; split; [exact I | exact H1]); try (left; reflexivity).
  - (* infinity / finite *)
    pose proof (ulps_finite _ _ _ Hvy) as H. cbn [ulps] in H. lia.
  - (* finite / finite *)
    destruct (valid_finite _ _ _ Hvx) as (Hex & _).
    destruct (valid_finite _ _ _ Hvy) as (Hey & _).
    destruct (Z.eq_dec (Zpos mx * 2 ^ (ex + 1074)) (Zpos my * 2 ^ (ey + 1074))) as [Heq|Hne].
    + (* the same float *)
      pose proof (SFcompare_ulps _ _ Hvx Hvy eq_refl eq_refl) as Hc.
      cbn [ulps] in Hc. rewrite Heq, Z.compare_refl in Hc. cbn [SFcompare] in Hc.
      injection Hc as Hc.
      destruct (Z.compare_spec ex ey) as [He| |]; try discriminate. subst ey.
      change (PosDef.Pos.compare_cont Eq mx my) with (mx ?= my)%positive in Hc.
      apply Pos.compare_eq in Hc. subst my.
      right. unfold SFdiv_core_binary.
      replace (Zdigits2 (Zpos mx) + ex - (Zdigits2 (Zpos mx) + ex)) with 0 by lia.
      replace (ex - ex) with 0 by lia.
      change (Z.min (fexp prec emax 0) 0) with (-53). change (0 - -53) with 53.
      cbn match. rewrite Z.shiftl_mul_pow2 by lia.
      assert (Hq : Zpos mx * 2 ^ 53 / Zpos mx = 2 ^ 53)
        by (rewrite Z.mul_comm; apply Z.div_mul; lia).
      assert (Hr : (Zpos mx * 2 ^ 53) mod Zpos mx = 0)
        by (rewrite Z.mul_comm; apply Z_mod_mult).
      rewrite div_eucl_div_mod, Hq, Hr.
      assert (Hl : new_location (Zpos mx) 0 = loc_Exact).
      { unfold new_location, new_location_even, new_location_odd.
        destruct (Z.even (Zpos mx)); reflexivity. }
      rewrite Hl.
      assert (Hone : binary_round_aux prec emax false (2 ^ 53) (-53) loc_Exact =
                     S754_finite false 4503599627370496 (-52)) by (vm_compute; reflexivity).
      rewrite Hone. split; [reflexivity|]. vm_compute. discriminate.
    + assert (Hlt : Zpos mx * 2 ^ (ex + 1074) < Zpos my * 2 ^ (ey + 1074)) by lia.
      destruct (SFdiv_core_q mx my ex ey) as [l Hcore]. cbv zeta in Hcore. rewrite Hcore.
      set (e' := Z.min (fexp prec emax (Zdigits2 (Zpos mx) + ex - (Zdigits2 (Zpos my) + ey)))
                       (ex - ey)) in *.
      pose proof (Zdigits2_bounds (Zpos mx) ltac:(lia)) as [Hx1 _].
      pose proof (Zdigits2_bounds (Zpos my) ltac:(lia)) as [_ Hy2].
      pose proof (Zdigits2_pos (Zpos mx) ltac:(lia)) as Hdx.
      pose proof (Zdigits2_pos (Zpos my) ltac:(lia)) as Hdy.
      assert (HD : Zdigits2 (Zpos mx) + ex - (Zdigits2 (Zpos my) + ey) <= 0).
      { assert (Hpp : 2 ^ (Zdigits2 (Zpos mx) - 1 + (ex + 1074)) <
                      2 ^ (Zdigits2 (Zpos my) + (ey + 1074))).
        { rewrite (pow2_split (Zdigits2 (Zpos mx) - 1) (ex + 1074)) by lia.
          rewrite (pow2_split (Zdigits2 (Zpos my)) (ey + 1074)) by lia.
          assert (0 < 2 ^ (ex + 1074)) by (apply Z.pow_pos_nonneg; lia).
          assert (0 < 2 ^ (ey + 1074)) by (apply Z.pow_pos_nonneg; lia).
          apply Z.le_lt_trans with (Zpos mx * 2 ^ (ex + 1074)).
          - apply Z.mul_le_mono_nonneg_r; lia.
          - apply Z.lt_le_trans with (Zpos my * 2 ^ (ey + 1074)); [exact Hlt|].
            apply Z.mul_le_mono_nonneg_r; lia. }
        apply Z.pow_lt_mono_r_iff in Hpp; lia. }
      assert (He' : e' <= -53) by (unfold e'; rewrite fexp_eq; lia).
      right. apply round_aux_below_one.
      * apply Z.div_pos; [|lia]. apply Z.mul_nonneg_nonneg; [lia | apply Z.pow_nonneg; lia].
      * lia.
      * assert (Hq : Zpos mx * 2 ^ (ex - ey - e') / Zpos my < 2 ^ (- e')); [|lia].
        apply Z.div_lt_upper_bound; [lia|].
        assert (Hs : 0 <= ex - ey - e') by (unfold e'; lia).
        assert (Hp : 0 < 2 ^ (ey + 1074)) by (apply Z.pow_pos_nonneg; lia).
        apply (Z.mul_lt_mono_pos_r (2 ^ (ey + 1074))); [exact Hp|].
        rewrite <- Z.mul_assoc, <- pow2_split by lia.
        replace (ex - ey - e' + (ey + 1074)) with ((ex + 1074) + - e') by lia.
        rewrite pow2_split by lia.
        assert (0 < 2 ^ (- e')) by (apply Z.pow_pos_nonneg; lia). nia.
Qed.
(** ** Doubles that are not negative *)

Local Open Scope float_scope.

Definition fnonneg (x : float) : Prop := nonneg (Prim2SF x).
Definition fulps (x : float) : Z := ulps (Prim2SF x).

Lemma ulps_nonneg (f : spec_float) : (0 <= ulps f)%Z.
Proof.
  destruct f as [s|s| |s m e]; cbn [ulps].
  - lia.
  - unfold inf_ulps. apply Z.pow_nonneg. lia.
  - lia.
  - apply Z.mul_nonneg_nonneg; [lia|]. apply Z.pow_nonneg. lia.
Qed.

Lemma fulps_nonneg (x : float) : (0 <= fulps x)%Z.
Proof. apply ulps_nonneg. Qed.

Lemma leb0_nonneg (x : float) : (0 <=? x) = true <-> fnonneg x.
Proof.
  rewrite FloatAxioms.leb_spec. unfold fnonneg. change (Prim2SF 0) with (S754_zero false).
  destruct (Prim2SF x) as [[]|[]| |[] m e]; cbn; intuition discriminate.
Qed.

Lemma fadd_ulps (a b : float) :
  fnonneg a -> fnonneg b ->
  fnonneg (a + b) /\ fulps (a + b) = rounded (fulps a + fulps b).
Proof.
  intros Ha Hb. unfold fnonneg, fulps. rewrite FloatAxioms.add_spec.
  apply SFadd_ulps; try apply Prim2SF_valid; assumption.
Qed.

Lemma fulps_rounded (a : float) : fnonneg a -> rounded (fulps a) = fulps a.
Proof. intros Ha. apply rounded_ulps; [apply Prim2SF_valid | exact Ha]. Qed.

Lemma fadd_ge_l (a b : float) : fnonneg a -> fnonneg b -> (fulps a <= fulps (a + b))%Z.
Proof.
  intros Ha Hb. rewrite (proj2 (fadd_ulps a b Ha Hb)), <- (fulps_rounded a Ha) at 1.
  apply rounded_mono. pose proof (fulps_nonneg a). pose proof (fulps_nonneg b). lia.
Qed.

Lemma fadd_ge_r (a b : float) : fnonneg a -> fnonneg b -> (fulps b <= fulps (a + b))%Z.
Proof.
  intros Ha Hb. rewrite (proj2 (fadd_ulps a b Ha Hb)), <- (fulps_rounded b Hb) at 1.
  apply rounded_mono. pose proof (fulps_nonneg a). pose proof (fulps_nonneg b). lia.
Qed.

Lemma fadd_mono (a a' b : float) :
  fnonneg a -> fnonneg a' -> fnonneg b ->
  (fulps a <= fulps a')%Z -> (fulps (a + b) <= fulps (a' + b))%Z.
Proof.
  intros Ha Ha' Hb Hle.
  rewrite (proj2 (fadd_ulps a b Ha Hb)), (proj2 (fadd_ulps a' b Ha' Hb)).
  apply rounded_mono. pose proof (fulps_nonneg a). pose proof (fulps_nonneg b). lia.
Qed.


Lemma fleb_ulps (a b : float) :
  fnonneg a -> fnonneg b -> (a <=? b) = (fulps a <=? fulps b)%Z.
Proof.
  intros Ha Hb. rewrite FloatAxioms.leb_spec. unfold SFleb, fulps.
  rewrite (SFcompare_ulps _ _ (Prim2SF_valid a) (Prim2SF_valid b) Ha Hb).
  unfold Z.leb. destruct (_ ?= _)%Z; reflexivity.
Qed.

Lemma fdiv_le_one (a b : float) :
  fnonneg a -> fnonneg b -> (fulps a <= fulps b)%Z -> (0 < fulps b)%Z ->
  Prim2SF (a / b) = S754_nan \/
  (fnonneg (a / b) /\ (fulps (a / b) <= one_ulps)%Z).
Proof.
  intros Ha Hb Hle Hpos. unfold fnonneg, fulps. rewrite FloatAxioms.div_spec.
  apply SFdiv_le_one; try apply Prim2SF_valid; assumption.
Qed.

Lemma fmul_below_one (x k : float) :
  fnonneg x -> fnonneg k -> (fulps x <= one_ulps)%Z -> (fulps k < one_ulps)%Z ->
  fnonneg (x * k) /\ (fulps (x * k) <= one_ulps)%Z.
Proof.
  intros Hx Hk Hxo Hko. unfold fnonneg, fulps. rewrite FloatAxioms.mul_spec.
  apply SFmul_below_one; try apply Prim2SF_valid; assumption.
Qed.

Lemma Prim2SF_one : Prim2SF 1 = S754_finite false 4503599627370496 (-52).
Proof. reflexivity. Qed.

Lemma fulps_one : fulps 1 = one_ulps.
Proof. unfold fulps. rewrite Prim2SF_one. vm_compute. reflexivity. Qed.

Lemma leb_one (x : float) : fnonneg x -> (fulps x <= one_ulps)%Z -> (x <=? 1) = true.
Proof.
  intros Hx Hle. rewrite fleb_ulps; [|exact Hx|unfold fnonneg; rewrite Prim2SF_one; reflexivity].
  rewrite fulps_one. apply Z.leb_le. exact Hle.
Qed.

(** A ratio that a comparison has found above a double that is not
    negative lies within [[0, 1]] when the numerator is at most the
    denominator. *)
Lemma ratio_unit (c a b : float) :
  fnonneg c -> fnonneg a -> fnonneg b ->
  (fulps a <= fulps b)%Z -> (0 < fulps b)%Z ->
  (c <? a / b) = true ->
  fnonneg (a / b) /\ (fulps (a / b) <= one_ulps)%Z.
Proof.
  intros Hc Ha Hb Hle Hpos Hcmp.
  destruct (fdiv_le_one a b Ha Hb Hle Hpos) as [Hnan|H]; [|exact H].
  rewrite FloatAxioms.ltb_spec, Hnan in Hcmp. unfold SFltb in Hcmp.
  destruct (Prim2SF c) as [[]|[]| |[] mc ec]; discriminate.
Qed.


End Binary64.

(** ** The classifier in double-precision arithmetic *)

Section ClassifierDouble.

Import Binary64.

(** Band energies that are not negative; they are numbers, and may be
    infinite. *)
Definition nonneg_bands (b : Bands (num := float)) : Prop :=
  PrimFloat.leb 0 (sub b) = true /\ PrimFloat.leb 0 (low b) = true /\
  PrimFloat.leb 0 (mid b) = true /\ PrimFloat.leb 0 (high b) = true /\
  PrimFloat.leb 0 (veryHigh b) = true.

(** The literals of the classifier that matter below: they are
    positive, and 0.8 and 0.85 are below 1. *)
Lemma literal_facts :
  (fnonneg (float_lit 0.001) /\ 0 < fulps (float_lit 0.001)) /\
  (fnonneg (float_lit 0.01) /\ 0 < fulps (float_lit 0.01)) /\
  fnonneg (float_lit 0.5) /\ fnonneg (float_lit 0.55) /\
  (fnonneg (float_lit 0.8) /\ fulps (float_lit 0.8) < one_ulps) /\
  (fnonneg (float_lit 0.85) /\ fulps (float_lit 0.85) < one_ulps).
Proof. repeat split; vm_compute; reflexivity. Qed.

(** The numerators of the two ratios are at most their denominator,
    which is positive. *)
Lemma ratio_terms (b : Bands (num := float)) :
  nonneg_bands b ->
  let d := (totalEnergy b + lit 0.001)%js in
  fnonneg d /\ 0 < fulps d /\
  (fnonneg (high b + veryHigh b)%js /\ fulps (high b + veryHigh b)%js <= fulps d) /\
  (fnonneg (mid b + high b)%js /\ fulps (mid b + high b)%js <= fulps d).
Proof.
  intros Hb d. destruct b as [s l m h v]. unfold nonneg_bands in Hb.
  cbn [sub low mid high veryHigh] in Hb. rewrite !leb0_nonneg in Hb.
  destruct Hb as (Hs & Hl & Hm & Hh & Hv).
  destruct literal_facts as ([Hc Hcpos] & _).
  subst d. unfold totalEnergy. cbn [sub low mid high veryHigh nadd lit float_Number].
  set (d := (s + l + m + h + v + float_lit 0.001)%float).
  pose proof (fadd_ulps s l Hs Hl) as [H1 _].
  pose proof (fadd_ulps _ m H1 Hm) as [H2 _].
  pose proof (fadd_ulps _ h H2 Hh) as [H3 _].
  pose proof (fadd_ulps _ v H3 Hv) as [H4 _].
  pose proof (fadd_ulps _ (float_lit 0.001) H4 Hc) as [H5 _]. fold d in H5.
  pose proof (fadd_ulps h v Hh Hv) as [Hn1 _].
  pose proof (fadd_ulps m h Hm Hh) as [Hn2 _].
  (* lower bounds along the sum *)
  pose proof (fadd_ge_r (s + l)%float m H1 Hm) as Gm.
  pose proof (fadd_ge_r (s + l + m)%float h H2 Hh) as Gh.
  pose proof (fadd_ge_l (s + l + m + h)%float v H3 Hv) as G34.
  pose proof (fadd_ge_l (s + l + m + h + v)%float (float_lit 0.001) H4 Hc) as G45.
  pose proof (fadd_ge_r (s + l + m + h + v)%float (float_lit 0.001) H4 Hc) as Gc.
  fold d in G45, Gc.
  pose proof (fadd_mono h (s + l + m + h)%float v Hh H3 Hv Gh) as M1.
  pose proof (fadd_mono m (s + l + m)%float h Hm H2 Hh Gm) as M2.
  split; [exact H5|]. split; [lia|]. split; (split; [assumption | lia]).
Qed.

Lemma unit_float_ulps (x : float) :
  fnonneg x -> fulps x <= one_ulps -> unit_float x.
Proof.
  intros Hx Hle. split; [apply leb0_nonneg; exact Hx | apply leb_one; assumption].
Qed.

(** A ratio found above a positive literal, and its product with a
    literal below 1. *)
Lemma score_unit (c a d : float) :
  fnonneg c -> fnonneg a -> fnonneg d -> fulps a <= fulps d -> 0 < fulps d ->
  PrimFloat.ltb c (a / d) = true ->
  unit_float (a / d) /\
  (forall k, fnonneg k -> fulps k < one_ulps -> unit_float (a / d * k)).
Proof.
  intros Hc Ha Hd Hle Hpos Hcmp.
  destruct (ratio_unit c a d Hc Ha Hd Hle Hpos Hcmp) as [Hn Hu].
  split; [apply unit_float_ulps; assumption|].
  intros k Hk Hk1. destruct (fmul_below_one (a / d) k Hn Hk Hu Hk1) as [Hn' Hu'].
  apply unit_float_ulps; assumption.
Qed.

(** In double-precision arithmetic the confidence of the classifier
    lies within [[0, 1]] for band energies that are not negative. *)
Lemma classify_confidence_double (this : FrequencyAnalyzer (num := float))
    (b : Bands) (i : float) :
  nonneg_bands b -> unit_float (snd (_classifyViseme this b i)).
Proof.
  intros Hb. destruct (ratio_terms b Hb) as (Hd & Hpos & [Hn1 Hle1] & [Hn2 Hle2]).
  destruct literal_facts as (_ & _ & H05 & H055 & [H08 H08'] & [H085 H085']).
  unfold _classifyViseme. destruct b as [s l m h v].
  cbn [sub low mid high veryHigh] in *.
  set (B := mkBands s l m h v) in *.
  destruct (nltb (totalEnergy B) (lit 0.01)).
  { cbn [snd]. vm_compute. split; reflexivity. }
  destruct (nltb (lit 0.55) (sibilantScore B) && nltb (lit 0.15) h) eqn:E1.
  { apply andb_true_iff in E1 as [E1 _].
    destruct (score_unit _ _ _ H055 Hn1 Hd Hle1 Hpos E1) as [Hu Hk].
    destruct (nltb _ v); cbn [snd]; [exact Hu | apply Hk; assumption]. }
  destruct (nltb (lit 0.5) (fricativeScore B) && nltb (lit 0.1) h && nltb l (lit 0.15)) eqn:E2.
  { apply andb_true_iff in E2 as [E2 _]. apply andb_true_iff in E2 as [E2 _].
    destruct (score_unit _ _ _ H05 Hn2 Hd Hle2 Hpos E2) as [_ Hk].
    cbn [snd]. apply Hk; assumption. }
  repeat match goal with
         | |- context [if ?c then _ else _] => destruct c
         end; cbn [snd]; vm_compute; split; reflexivity.
Qed.


End ClassifierDouble.

(** C9: for every frame that [analyze()] returns on a reachable
    analyzer, in whatever arithmetic, [open], [width] and [round] of
    the shape equal [a + (b - a) * t] for the shapes [a] and [b] that
    [VISEME_SHAPES] gives the previous and the current viseme (the
    frame's [transition.from] and [transition.to]) and [t] the frame's
    transition progress; and in double-precision as in exact arithmetic
    [t] and the three parameters each lie within [[0, 1]]. *)
Theorem shape_interpolated :
  (forall (num : Type) (N : Number num) smoothValue clamp options
          (this : FrequencyAnalyzer (num := num)) input,
     reachable smoothValue clamp options this ->
     let frame := fst (analyze smoothValue clamp this input) in
     let this' := snd (analyze smoothValue clamp this input) in
     let t := progress (transition frame) in
     from (transition frame) = _previousViseme this' /\
     to (transition frame) = _currentViseme this' /\
     t = _transitionProgress this' /\
     exists a b,
       VISEME_SHAPES !! from (transition frame) = Some a /\
       VISEME_SHAPES !! to (transition frame) = Some b /\
       open (shape frame) = (open a + (open b - open a) * t)%js /\
       width (shape frame) = (width a + (width b - width a) * t)%js /\
       round (shape frame) = (round a + (round b - round a) * t)%js) /\
  (forall smoothValue clamp options (this : FrequencyAnalyzer (num := float)) input,
     reachable smoothValue clamp options this ->
     let frame := fst (analyze smoothValue clamp this input) in
     unit_float (progress (transition frame)) /\
     unit_float (open (shape frame)) /\
     unit_float (width (shape frame)) /\
     unit_float (round (shape frame))) /\
  (forall smoothValue clamp options (this : FrequencyAnalyzer (num := Q)) input,
     reachable smoothValue clamp options this ->
     let frame := fst (analyze smoothValue clamp this input) in
     (0 <= progress (transition frame) <= 1 /\
      0 <= open (shape frame) <= 1 /\
      0 <= width (shape frame) <= 1 /\
      0 <= round (shape frame) <= 1)%Q).
Proof.
  split; [|split].
  - intros num N smoothValue clamp options this input. apply frame_shape_lerp.
  - exact frame_shape_unit_double.
  - exact frame_shape_unit_exact.
Qed.


(** ** The scenarios of the specification, evaluated *)

Module Scenarios.

Local Open Scope string_scope.

(** The band energies of the sibilant scenario. *)
Definition sibilant_bands {num : Type} `{Number num} : Bands :=
  mkBands (lit 0.02) (lit 0.03) (lit 0.05) (lit 0.30) (lit 0.35).

(** [lit] on doubles gives the value of the decimal literal, for the
    literals of the source. *)
Example float_literals :
  [lit 0; lit 1; lit 3; lit 0.001; lit 0.01; lit 0.015; lit 0.05; lit 0.08;
   lit 0.1; lit 0.15; lit 0.2; lit 0.25; lit 0.3; lit 0.35; lit 0.4; lit 0.45;
   lit 0.5; lit 0.55; lit 0.6; lit 0.65; lit 0.7; lit 0.8; lit 0.85; lit 0.9] =
  [0; 1; 3; 0.001; 0.01; 0.015; 0.05; 0.08;
   0.1; 0.15; 0.2; 0.25; 0.3; 0.35; 0.4; 0.45;
   0.5; 0.55; 0.6; 0.65; 0.7; 0.8; 0.85; 0.9]%float.
Proof. reflexivity. Qed.


(** A freshly constructed analyzer with the default options, and audio
    frames: silence, and a loud frame with the sibilant spectrum. *)
Definition fresh {num : Type} `{Number num} : FrequencyAnalyzer :=
  new_FrequencyAnalyzer DEFAULTS.

Definition silent_frame {num : Type} `{Number num} : AudioFrame :=
  mkAudioFrame (lit 0) zero_bands.

Definition hiss_frame {num : Type} `{Number num} : AudioFrame :=
  mkAudioFrame (lit 0.5) sibilant_bands.

Abbreviation analyze_f := (analyze (num := float) smoothValue_spec clamp_spec).
Abbreviation analyze_q := (analyze (num := Q) smoothValue_spec clamp_spec).

(** C4, as stated, fails: on a fresh analyzer a silent frame is below
    the silence gate and the frame returned has confidence [0.5]. *)
Lemma silence_confidence_is_half :
  nltb (_smoothedAmplitude (smooth smoothValue_spec fresh silent_frame))
       (silenceThreshold (opts (num := float) fresh)) = true /\
  confidence (fst (analyze_f fresh silent_frame)) = 0.5%float /\
  confidence (fst (analyze_f fresh silent_frame)) <> 0%float.
Proof.
  split; [vm_compute; reflexivity|].
  split; [vm_compute; reflexivity|]. vm_compute. discriminate.
Qed.

(** The amended C4 on the same frame. *)
Lemma silence_gate_witness :
  nltb (_smoothedAmplitude (smooth smoothValue_spec fresh silent_frame))
       (silenceThreshold (opts (num := float) fresh)) = true /\
  viseme (fst (analyze_f fresh silent_frame)) = "sil" /\
  confidence (fst (analyze_f fresh silent_frame)) = lit 0.5.
Proof.
  assert (Hgate : nltb (_smoothedAmplitude (smooth smoothValue_spec fresh silent_frame))
                       (silenceThreshold (opts (num := float) fresh)) = true)
    by (vm_compute; reflexivity).
  split; [exact Hgate|].
  destruct (silence_gate smoothValue_spec clamp_spec fresh silent_frame Hgate)
    as (_ & Hv & Hc & _).
  split; [exact Hv | exact Hc].
Defined.

(** C6 on a fresh analyzer and a loud sibilant frame: the classifier
    proposes ['SS'], the held label is ['sil'], and with
    [holdFrames = 2] the counter goes to 1 and ['sil'] is kept. *)
Lemma holdoff_rule_witness :
  nltb (_smoothedAmplitude (smooth smoothValue_spec fresh hiss_frame))
       (silenceThreshold (opts (num := float) fresh)) = false /\
  _holdCounter (snd (analyze_f fresh hiss_frame)) = 1%Z /\
  _currentViseme (snd (analyze_f fresh hiss_frame)) = "sil".
Proof.
  assert (Hgate : nltb (_smoothedAmplitude (smooth smoothValue_spec fresh hiss_frame))
                       (silenceThreshold (opts (num := float) fresh)) = false)
    by (vm_compute; reflexivity).
  split; [exact Hgate|].
  destruct (holdoff_rule smoothValue_spec clamp_spec fresh hiss_frame Hgate)
    as (Hhold & _ & _).
  destruct Hhold as (Hc & Hcur & _).
  - vm_compute. discriminate.
  - vm_compute. reflexivity.
  - split; [exact Hc | exact Hcur].
Defined.

(** Proposals of the classifier, by label. *)
Definition proposal (v : string) : Proposal (num := float) :=
  mkProposal v (lit 0.6) (lit 0.7) zero_bands.

Abbreviation hold_run_f := (hold_run (num := float) smoothValue_spec).

(** A loud frame with the spectrum of an open vowel, and one with a
    strong sibilant spectrum. *)
Definition vowel_frame : AudioFrame (num := float) :=
  mkAudioFrame (lit 0.9) (mkBands (lit 0.3) (lit 0.6) (lit 0.5) (lit 0.05) (lit 0.02)).

Definition loud_hiss_frame : AudioFrame (num := float) :=
  mkAudioFrame (lit 0.9) (mkBands (lit 0.02) (lit 0.03) (lit 0.05) (lit 0.9) (lit 0.95)).

(** The label the classifier proposes in a cycle of [analyze()]. *)
Definition proposed (this : FrequencyAnalyzer (num := float)) (input : AudioFrame) : string :=
  let this1 := smooth smoothValue_spec this input in
  fst (_classifyViseme this1 (_smoothedBands this1)
         (clamp_spec (_smoothedAmplitude this1 * lit 3) (lit 0) (lit 1))%js).

(** C5, as stated, fails: with [holdFrames = 2] and the held label
    ['sil'], the proposals ['aa'], ['E'], ['aa'], ['E'] change on every
    cycle, and the held label is ['E'] from the second cycle on.  The
    same through [analyze()]: a vowel frame and then a sibilant frame
    make the classifier propose ['aa'] and then ['SS'], and the held
    label is ['SS'] after the second cycle. *)
Lemma oscillation_switches_label :
  let ps := [proposal "aa"; proposal "E"; proposal "aa"; proposal "E"] in
  let after1 := snd (analyze_f fresh vowel_frame) in
  let after2 := snd (analyze_f after1 loud_hiss_frame) in
  (1 < holdFrames (opts (num := float) fresh))%Z /\
  _currentViseme (num := float) fresh = "sil" /\
  (_currentViseme (hold_run_f (take 1 ps) fresh) = "sil" /\
   _currentViseme (hold_run_f (take 2 ps) fresh) = "E" /\
   _currentViseme (hold_run_f ps fresh) = "E") /\
  (proposed fresh vowel_frame = "aa" /\ _currentViseme after1 = "sil" /\
   proposed after1 loud_hiss_frame = "SS" /\ _currentViseme after2 = "SS").
Proof. cbv zeta. repeat split; vm_compute; reflexivity. Qed.

(** The amended C5 on proposals that alternate between other labels
    and the held ['sil']. *)
Lemma holdoff_stability_witness :
  let ps := [proposal "aa"; proposal "sil"; proposal "E"; proposal "sil"] in
  (1 < holdFrames (opts (num := float) fresh))%Z /\
  _holdCounter (num := float) fresh = 0%Z /\
  _currentViseme (hold_run_f (take 4 ps) fresh) = "sil".
Proof.
  intros ps.
  assert (Hhf : (1 < holdFrames (opts (num := float) fresh))%Z) by (vm_compute; reflexivity).
  assert (H0 : _holdCounter (num := float) fresh = 0%Z) by reflexivity.
  split; [exact Hhf|]. split; [exact H0|].
  destruct (holdoff_stability smoothValue_spec fresh ps Hhf H0) as [Hstable _].
  apply Hstable.
  intros [|[|[|[|i]]]] p q Hp Hq; simpl in Hp, Hq;
    try discriminate; injection Hp as <-; injection Hq as <-; auto.
Defined.



(** C9 on a fresh analyzer that hears a hiss, in double-precision
    arithmetic: the first frame holds ['sil'], the second switches to
    ['SS'], and the third is in the middle of the transition from
    ['sil'] to ['SS'], at progress [(1 - 0.35) * 0.3 = 0.195], with
    the shape interpolated between [{0, 0.5, 0}] and [{0.05, 0.6, 0}].
    And the bounds on the first frame, in double-precision and in
    exact arithmetic. *)
Lemma shape_interpolated_witness :
  let after2 := snd (analyze_f (snd (analyze_f fresh hiss_frame)) hiss_frame) in
  let frame3 := fst (analyze_f after2 hiss_frame) in
  (reachable (num := float) smoothValue_spec clamp_spec DEFAULTS after2 /\
   from (transition frame3) = "sil" /\ to (transition frame3) = "SS" /\
   progress (transition frame3) = 0.195%float /\
   open (shape frame3) = (0 + (0.05 - 0) * 0.195)%float /\
   width (shape frame3) = (0.5 + (0.6 - 0.5) * 0.195)%float /\
   round (shape frame3) = (0 + (0 - 0) * 0.195)%float /\
   unit_float (open (shape frame3)) /\ unit_float (width (shape frame3))) /\
  (reachable (num := float) smoothValue_spec clamp_spec DEFAULTS fresh /\
   unit_float (open (shape (fst (analyze_f fresh hiss_frame))))) /\
  (reachable (num := Q) smoothValue_spec clamp_spec DEFAULTS fresh /\
   (0 <= open (shape (fst (analyze_q fresh hiss_frame))) <= 1)%Q).
Proof.
  intros after2 frame3.
  assert (Hf : reachable (num := float) smoothValue_spec clamp_spec DEFAULTS fresh)
    by constructor.
  assert (Hq : reachable (num := Q) smoothValue_spec clamp_spec DEFAULTS fresh)
    by constructor.
  assert (H2 : reachable (num := float) smoothValue_spec clamp_spec DEFAULTS after2)
    by (do 2 constructor; exact Hf).
  destruct shape_interpolated as (Hlerp & Hdouble & Hexact).
  split; [|split; split; [exact Hf | | exact Hq |]].
  - destruct (Hlerp float _ smoothValue_spec clamp_spec DEFAULTS after2 hiss_frame H2)
      as (_ & _ & _ & a & b & Ha & Hb & Ho & Hw & Hr).
    fold frame3 in Ha, Hb, Ho, Hw, Hr.
    destruct (Hdouble smoothValue_spec clamp_spec DEFAULTS after2 hiss_frame H2)
      as (_ & Hopen & Hwidth & _).
    fold frame3 in Hopen, Hwidth.
    assert (Hfrom : from (transition frame3) = "sil") by (vm_compute; reflexivity).
    assert (Hto : to (transition frame3) = "SS") by (vm_compute; reflexivity).
    assert (Ht : progress (transition frame3) = 0.195%float) by (vm_compute; reflexivity).
    rewrite Hfrom in Ha. rewrite Hto in Hb. rewrite Ht in Ho, Hw, Hr.
    vm_compute in Ha. vm_compute in Hb. injection Ha as <-. injection Hb as <-.
    split; [exact H2|]. split; [exact Hfrom|]. split; [exact Hto|]. split; [exact Ht|].
    split; [exact Ho|]. split; [exact Hw|]. split; [exact Hr|].
    split; [exact Hopen | exact Hwidth].
  - exact (proj1 (proj2 (Hdouble smoothValue_spec clamp_spec DEFAULTS fresh hiss_frame Hf))).
  - exact (proj1 (proj2 (Hexact smoothValue_spec clamp_spec DEFAULTS fresh hiss_frame Hq))).
Defined.

(** C10 on the first frame of a fresh analyzer. *)
Lemma simple_viseme_of_frame_witness :
  reachable (num := float) smoothValue_spec clamp_spec DEFAULTS fresh /\
  EXTENDED_TO_SIMPLE !! viseme (fst (analyze_f fresh hiss_frame)) =
    Some (simpleViseme (fst (analyze_f fresh hiss_frame))).
Proof.
  assert (Hr : reachable (num := float) smoothValue_spec clamp_spec DEFAULTS fresh)
    by constructor.
  split; [exact Hr|].
  destruct (simple_viseme_of_frame (num := float) smoothValue_spec clamp_spec)
    as (_ & _ & _ & _ & Hframe & _).
  exact (proj2 (Hframe DEFAULTS fresh hiss_frame Hr)).
Defined.

End Scenarios.

(** ** The other tables and [interpolateShapes] ([src/core/visemes.js]) *)

(** A table written as an object literal is modelled by its own
    entries: what is stated below about lookups is stated for the keys
    of the tables, not for the property names that every object
    inherits. *)

Section VisemeTables.

Local Open Scope string_scope.

Definition PHONEME_TO_VISEME : list (string * string) := [
  ("AA", "aa"); ("AE", "E"); ("AH", "aa"); ("AO", "O"); ("AW", "aa");
  ("AY", "aa"); ("EH", "E"); ("ER", "RR"); ("EY", "E"); ("IH", "I");
  ("IY", "I"); ("OW", "O"); ("OY", "O"); ("UH", "U"); ("UW", "U");
  ("B", "PP"); ("CH", "CH"); ("D", "DD"); ("DH", "TH"); ("F", "FF");
  ("G", "kk"); ("HH", "aa"); ("JH", "CH"); ("K", "kk"); ("L", "DD");
  ("M", "PP"); ("N", "nn"); ("NG", "nn"); ("P", "PP"); ("R", "RR");
  ("S", "SS"); ("SH", "CH"); ("T", "DD"); ("TH", "TH"); ("V", "FF");
  ("W", "U"); ("Y", "I"); ("Z", "SS"); ("ZH", "CH")
].

(** [Object.keys(PHONEME_TO_VISEME)] *)
Definition ARPABET_PHONEMES : list string := PHONEME_TO_VISEME.*1.

Context {num : Type} `{Number num}.

Lemma shapes_keys :
  map_Forall (fun v (_ : Shape) => v ∈ EXTENDED_VISEME_KEYS) VISEME_SHAPES.
Proof. by_decide. Qed.

Lemma extended_keys_shapes :
  Forall (fun v => is_Some (VISEME_SHAPES !! v)) EXTENDED_VISEME_KEYS.
Proof. repeat (constructor; [eexists; vm_compute; reflexivity|]). constructor. Qed.

Lemma simple_keys : map_Forall (fun v (_ : string) => v ∈ EXTENDED_VISEME_KEYS) EXTENDED_TO_SIMPLE.
Proof. by_decide. Qed.

Lemma groups_mapped :
  Forall (fun g => Forall (fun ext => EXTENDED_TO_SIMPLE !! ext = Some g.1) (extendedMap g.2))
         SIMPLE_VISEMES.
Proof. by_decide. Qed.

Lemma mapped_in_group :
  map_Forall (fun v k => Exists (fun g => g.1 = k /\ v ∈ extendedMap g.2) SIMPLE_VISEMES)
             EXTENDED_TO_SIMPLE.
Proof. by_decide. Qed.

Lemma weights_keys :
  map_Forall (fun f (row : gmap string num) =>
                f ∈ EXTENDED_VISEME_KEYS /\
                map_Forall (fun t (_ : num) => t ∈ EXTENDED_VISEME_KEYS) row)
             TRANSITION_WEIGHTS.
Proof. by_decide. Qed.

(** X10: the tables of [visemes.js] are keyed consistently.  The 15
    extended viseme keys are distinct; [VISEME_SHAPES] and
    [EXTENDED_TO_SIMPLE] have an entry for each of them and for nothing
    else; [EXTENDED_TO_SIMPLE] maps a viseme to a simple key exactly
    when that key's [extendedMap] lists the viseme, so the six lists
    are disjoint and the order of the two loops that fill the table
    does not matter; and the rows and columns of [TRANSITION_WEIGHTS]
    are extended viseme keys. *)
Theorem viseme_tables_agree :
  NoDup EXTENDED_VISEME_KEYS /\
  (forall v, v ∈ EXTENDED_VISEME_KEYS <-> is_Some (VISEME_SHAPES !! v)) /\
  (forall v, v ∈ EXTENDED_VISEME_KEYS <-> is_Some (EXTENDED_TO_SIMPLE !! v)) /\
  (forall v k, EXTENDED_TO_SIMPLE !! v = Some k <->
     exists def, (k, def) ∈ SIMPLE_VISEMES /\ v ∈ extendedMap def) /\
  (forall f row, TRANSITION_WEIGHTS !! f = Some row ->
     f ∈ EXTENDED_VISEME_KEYS /\
     forall t, is_Some (row !! t) -> t ∈ EXTENDED_VISEME_KEYS).
Proof.
  split; [by_decide|]. split; [|split; [|split]].
  - intros v. split.
    + apply (proj1 (Forall_forall _ _) extended_keys_shapes).
    + intros [s Hs]. exact (shapes_keys _ _ Hs).
  - intros v. split.
    + intros Hv.
      destruct (proj1 (Forall_forall _ _) extended_keys_mapped v Hv) as (s & Hs & _).
      exists s. exact Hs.
    + intros [s Hs]. exact (simple_keys _ _ Hs).
  - intros v k. split.
    + intros Hv. pose proof (mapped_in_group _ _ Hv) as Hex.
      apply Exists_exists in Hex as ([k' def] & Hin & Hk & Hmem). simpl in Hk, Hmem.
      subst k'. exists def. split; assumption.
    + intros (def & Hin & Hmem).
      pose proof (proj1 (Forall_forall _ _) groups_mapped _ Hin) as Hg. simpl in Hg.
      exact (proj1 (Forall_forall _ _) Hg _ Hmem).
  - intros f row Hrow. destruct (weights_keys _ _ Hrow) as [Hf Hcols].
    split; [exact Hf|]. intros t [w Hw]. exact (Hcols _ _ Hw).
Qed.

Lemma phonemes_extended :
  Forall (fun pv => pv.2 ∈ EXTENDED_VISEME_KEYS /\ pv.2 <> "sil") PHONEME_TO_VISEME.
Proof. by_decide. Qed.

Lemma visemes_spoken :
  Forall (fun v => v = "sil" \/ Exists (fun pv => pv.2 = v) PHONEME_TO_VISEME)
         EXTENDED_VISEME_KEYS.
Proof. by_decide. Qed.

(** X11: [PHONEME_TO_VISEME] has 39 distinct phonemes; each is mapped
    to an extended viseme other than ['sil'], which therefore has a
    shape and a simple viseme; and each of the 14 extended visemes
    other than ['sil'] is the viseme of some phoneme. *)
Theorem phonemes_cover_visemes :
  length ARPABET_PHONEMES = 39%nat /\ NoDup ARPABET_PHONEMES /\
  (forall p v, (p, v) ∈ PHONEME_TO_VISEME ->
     v ∈ EXTENDED_VISEME_KEYS /\ v <> "sil" /\
     is_Some (VISEME_SHAPES !! v) /\ is_Some (EXTENDED_TO_SIMPLE !! v)) /\
  (forall v, v ∈ EXTENDED_VISEME_KEYS -> v <> "sil" ->
     exists p, (p, v) ∈ PHONEME_TO_VISEME).
Proof.
  split; [reflexivity|]. split; [by_decide|]. split.
  - intros p v Hpv.
    destruct (proj1 (Forall_forall _ _) phonemes_extended _ Hpv) as [Hv Hsil].
    simpl in Hv, Hsil. split; [exact Hv|]. split; [exact Hsil|]. split.
    + exact (proj1 (Forall_forall _ _) extended_keys_shapes v Hv).
    + destruct (proj1 (Forall_forall _ _) extended_keys_mapped v Hv) as (s & Hs & _).
      exists s. exact Hs.
  - intros v Hv Hsil.
    destruct (proj1 (Forall_forall _ _) visemes_spoken v Hv) as [?|Hex]; [contradiction|].
    apply Exists_exists in Hex as ([p v'] & Hin & Hv'). simpl in Hv'. subst v'.
    exists p. exact Hin.
Qed.

End VisemeTables.

(** *** [Math.max] and [interpolateShapes] *)

Class MathMax (num : Type) := nmax : num -> num -> num.

(** [Math.max] on doubles: NaN when an argument is NaN, and [+0] above
    [-0]. *)
Definition float_max (x y : float) : float :=
  if PrimFloat.is_nan x || PrimFloat.is_nan y then PrimFloat.nan
  else if PrimFloat.ltb x y then y
  else if PrimFloat.ltb y x then x
  else match PrimFloat.classify x with NZero => y | _ => x end.

#[export] Instance float_MathMax : MathMax float := float_max.
#[export] Instance Q_MathMax : MathMax Q := Qmax.

(** [interpolateShapes(fromViseme, toViseme, t)] *)
Definition interpolateShapes {num : Type} `{Number num} `{MathMax num}
    (fromViseme toViseme : string) (t : num) : Shape :=
  let a := shape_of fromViseme in
  let b := shape_of toViseme in
  let clampT := nmax (lit 0) (nmin (lit 1) t) in
  mkShape (open a + (open b - open a) * clampT)%js
          (width a + (width b - width a) * clampT)%js
          (round a + (round b - round a) * clampT)%js.

(** Two shapes with equal parameters, as rationals. *)
Definition shape_eq (s s' : Shape (num := Q)) : Prop :=
  (open s == open s' /\ width s == width s' /\ round s == round s')%Q.

Section TransitionWeights.

Local Open Scope string_scope.

Lemma table_weights_exact :
  map_Forall (fun _ row =>
                map_Forall (fun _ w => Qle_bool 0.2 w && Qle_bool w 0.6 = true) row)
             (TRANSITION_WEIGHTS (num := Q)).
Proof. by_decide. Qed.

Lemma table_weights_double :
  map_Forall (fun _ row =>
                map_Forall (fun _ w =>
                              PrimFloat.leb 0.2 w && PrimFloat.leb w 0.6 &&
                              PrimFloat.leb 0 w && PrimFloat.leb w 1 = true) row)
             (TRANSITION_WEIGHTS (num := float)).
Proof. by_decide. Qed.

Lemma weight_exact (f t : string) :
  (0.2 <= getTransitionWeight (num := Q) f t <= 0.6)%Q.
Proof.
  unfold getTransitionWeight.
  destruct (TRANSITION_WEIGHTS !! f) as [row|] eqn:Hrow; [|cbn; lra].
  destruct (row !! t) as [w|] eqn:Hw; [|cbn; lra].
  pose proof (table_weights_exact _ _ Hrow _ _ Hw) as Hb. cbn beta in Hb.
  apply andb_true_iff in Hb as [Hlo Hhi].
  apply Qle_bool_iff in Hlo, Hhi. unfold default, id. lra.
Qed.

(** X12: the weight that [getTransitionWeight] returns for two
    extended viseme keys is the table's entry, or 0.35 when the table has no row for
    the first or no entry for the second; in double-precision as in
    exact arithmetic it lies between 0.2 and 0.6, so within the
    documented range from 0 to 1. *)
Theorem transition_weight_range (f t : string) :
  f ∈ EXTENDED_VISEME_KEYS -> t ∈ EXTENDED_VISEME_KEYS ->
  (forall (num : Type) (N : Number num),
     (forall row w, TRANSITION_WEIGHTS !! f = Some row -> row !! t = Some w ->
        getTransitionWeight (num := num) f t = w) /\
     (TRANSITION_WEIGHTS (num := num) !! f = None ->
        getTransitionWeight (num := num) f t = lit 0.35) /\
     (forall row, TRANSITION_WEIGHTS (num := num) !! f = Some row -> row !! t = None ->
        getTransitionWeight (num := num) f t = lit 0.35)) /\
  (let w := getTransitionWeight (num := float) f t in
   PrimFloat.leb 0.2 w = true /\ PrimFloat.leb w 0.6 = true /\ unit_float w) /\
  (let w := getTransitionWeight (num := Q) f t in
   0.2 <= w <= 0.6 /\ 0 <= w <= 1)%Q.
Proof.
  intros _ _. split; [|split].
  - intros num N. unfold getTransitionWeight. split; [|split].
    + intros row w -> ->. reflexivity.
    + intros ->. reflexivity.
    + intros row -> ->. reflexivity.
  - cbv zeta. unfold getTransitionWeight.
    destruct (TRANSITION_WEIGHTS !! f) as [row|] eqn:Hrow;
      [|vm_compute; repeat split; reflexivity].
    destruct (row !! t) as [w|] eqn:Hw; [|vm_compute; repeat split; reflexivity].
    pose proof (table_weights_double _ _ Hrow _ _ Hw) as Hb. cbn beta in Hb.
    rewrite !andb_true_iff in Hb. destruct Hb as [[[Hlo Hhi] H0] H1].
    unfold default, id, unit_float. auto.
  - cbv zeta. pose proof (weight_exact f t). lra.
Qed.

End TransitionWeights.

Section InterpolateExact.

Local Open Scope Q_scope.

Variable smoothValue : Q -> Q -> Q -> Q.
Variable clamp : Q -> Q -> Q -> Q.

Lemma clampT_unit (t : Q) : 0 <= Qmax 0 (Qmin 1 t) <= 1.
Proof.
  destruct (Q.max_spec 0 (Qmin 1 t)) as [[? ?]|[? ?]];
    destruct (Q.min_spec 1 t) as [[? ?]|[? ?]]; lra.
Qed.

Lemma clampT_low (t : Q) : t <= 0 -> Qmax 0 (Qmin 1 t) == 0.
Proof.
  intros. destruct (Q.max_spec 0 (Qmin 1 t)) as [[? ?]|[? ?]];
    destruct (Q.min_spec 1 t) as [[? ?]|[? ?]]; lra.
Qed.

Lemma clampT_high (t : Q) : 1 <= t -> Qmax 0 (Qmin 1 t) == 1.
Proof.
  intros. destruct (Q.max_spec 0 (Qmin 1 t)) as [[? ?]|[? ?]];
    destruct (Q.min_spec 1 t) as [[? ?]|[? ?]]; lra.
Qed.

Lemma clampT_id (t : Q) : 0 <= t <= 1 -> Qmax 0 (Qmin 1 t) == t.
Proof.
  intros. destruct (Q.max_spec 0 (Qmin 1 t)) as [[? ?]|[? ?]];
    destruct (Q.min_spec 1 t) as [[? ?]|[? ?]]; lra.
Qed.

(** X13: for two extended viseme keys, both of which have a shape, and
    any number [t], even outside [[0, 1]], the three parameters of
    [interpolateShapes(from, to, t)] lie within [[0, 1]] in exact
    arithmetic; the result is the shape of [from] for [t <= 0], the
    shape of [to] for [t >= 1], and [a + (b - a) * t] in between. *)
Theorem interpolateShapes_clamps (f t : string) (x : Q) :
  f ∈ EXTENDED_VISEME_KEYS -> t ∈ EXTENDED_VISEME_KEYS ->
  exists a b,
    VISEME_SHAPES !! f = Some a /\ VISEME_SHAPES !! t = Some b /\
    let s := interpolateShapes f t x in
    unit_shape s /\
    (x <= 0 -> shape_eq s a) /\
    (1 <= x -> shape_eq s b) /\
    (0 <= x <= 1 ->
       open s == open a + (open b - open a) * x /\
       width s == width a + (width b - width a) * x /\
       round s == round a + (round b - round a) * x).
Proof.
  intros Hf Ht.
  destruct (proj1 (Forall_forall _ _) (extended_keys_shapes (num := Q)) f Hf) as [a Ha].
  destruct (proj1 (Forall_forall _ _) (extended_keys_shapes (num := Q)) t Ht) as [b Hb].
  exists a, b. split; [exact Ha|]. split; [exact Hb|].
  destruct (unit_shapeb_spec _ (table_shapes_unit _ _ Ha)) as (Hao & Haw & Har).
  destruct (unit_shapeb_spec _ (table_shapes_unit _ _ Hb)) as (Hbo & Hbw & Hbr).
  unfold interpolateShapes, shape_of. rewrite Ha, Hb.
  cbn [default from_option id open width round lit nadd nsub nmul nmin Q_Number].
  unfold nmax, Q_MathMax.
  pose proof (clampT_unit x) as Hc.
  pose proof (clampT_low x) as Hlow.
  pose proof (clampT_high x) as Hhigh.
  pose proof (clampT_id x) as Hid.
  revert Hc Hlow Hhigh Hid. generalize (Qmax 0 (Qmin 1 x)). intros c Hc Hlow Hhigh Hid.
  unfold unit_shape, shape_eq. cbn [open width round].
  split; [split; [|split]; apply lerp_unit; assumption|].
  split; [|split].
  - intros Hx. rewrite (Hlow Hx). repeat split; ring.
  - intros Hx. rewrite (Hhigh Hx). repeat split; ring.
  - intros Hx. rewrite (Hid Hx). repeat split; reflexivity.
Qed.

(** In exact arithmetic the shape of a frame is what
    [interpolateShapes] returns for the frame's transition. *)
Lemma frame_shape_interpolated_exact (options : Options) (this : FrequencyAnalyzer)
    (input : AudioFrame) :
  reachable smoothValue clamp options this ->
  let frame := fst (analyze smoothValue clamp this input) in
  let tr := transition frame in
  shape_eq (shape frame) (interpolateShapes (from tr) (to tr) (progress tr)).
Proof.
  intros Hreach frame tr.
  destruct (frame_shape_lerp smoothValue clamp options this input Hreach)
    as (_ & _ & _ & a & b & Ha & Hb & Ho & Hw & Hr).
  destruct (frame_shape_unit_exact smoothValue clamp options this input Hreach) as (Ht & _).
  fold frame in Ha, Hb, Ho, Hw, Hr, Ht. fold tr in Ha, Hb, Ho, Hw, Hr, Ht.
  unfold interpolateShapes, shape_of. rewrite Ha, Hb.
  cbn [default from_option id open width round lit nadd nsub nmul nmin Q_Number] in *.
  unfold nmax, Q_MathMax.
  pose proof (clampT_id _ Ht) as Hid.
  unfold shape_eq. cbn [open width round]. rewrite Ho, Hw, Hr, Hid.
  repeat split; reflexivity.
Qed.

End InterpolateExact.

Section InterpolateDouble.

Local Open Scope string_scope.

Variable smoothValue : float -> float -> float -> float.
Variable clamp : float -> float -> float -> float.

(** [Math.max(0, Math.min(1, t))] leaves the transition progress of
    the first ten frames after a change of label as it is. *)
Definition orbit_clamped (p c : string) : Prop :=
  forall k, (k <= 10)%nat ->
    nmax (lit 0) (nmin (lit 1) (progress_after p c k)) = progress_after p c k.

Ltac check_clamped :=
  let k := fresh "k" in let Hk := fresh "Hk" in
  intros k Hk;
  do 11 (destruct k as [|k]; [vm_compute; reflexivity|]);
  lia.

Lemma orbits_clamped p c :
  p ∈ classifier_labels -> c ∈ classifier_labels -> orbit_clamped p c.
Proof.
  intros Hp Hc. apply list_elem_of_In in Hp, Hc.
  unfold classifier_labels in Hp, Hc. simpl in Hp, Hc.
  repeat (destruct Hp as [<-|Hp]); [..|contradiction];
    (repeat (destruct Hc as [<-|Hc]); [..|contradiction]); check_clamped.
Qed.

(** In double-precision arithmetic the shape of a frame is exactly
    what [interpolateShapes] returns for the frame's transition. *)
Lemma frame_shape_interpolated_double (options : Options) (this : FrequencyAnalyzer)
    (input : AudioFrame) :
  reachable smoothValue clamp options this ->
  let frame := fst (analyze smoothValue clamp this input) in
  let tr := transition frame in
  shape frame = interpolateShapes (from tr) (to tr) (progress tr).
Proof.
  intros Hreach frame tr.
  set (this' := snd (analyze smoothValue clamp this input)).
  assert (Hreach' : reachable smoothValue clamp options this') by (constructor; exact Hreach).
  destruct (reachable_labels _ _ _ _ Hreach') as [Hcur Hprev].
  destruct (reachable_on_orbit _ _ _ _ Hreach') as [k Hk].
  destruct (frame_shape_lerp smoothValue clamp options this input Hreach)
    as (Hfrom & Hto & Ht & a & b & Ha & Hb & Ho & Hw & Hr).
  fold frame this' in Hfrom, Hto, Ht, Ha, Hb, Ho, Hw, Hr.
  fold tr in Hfrom, Hto, Ht, Ha, Hb, Ho, Hw, Hr.
  assert (Hclamp : nmax (lit 0) (nmin (lit 1) (progress tr)) = progress tr).
  { rewrite Ht, Hk.
    destruct (Nat.le_gt_cases k 10) as [Hle|Hgt].
    - apply (orbits_clamped _ _ Hprev Hcur). exact Hle.
    - rewrite (progress_saturates _ _ k (pairs_checked _ _ Hprev Hcur)) by lia.
      vm_compute. reflexivity. }
  unfold interpolateShapes, shape_of. rewrite Ha, Hb, Hclamp.
  unfold default, id. rewrite <- Ho, <- Hw, <- Hr.
  destruct (shape frame). reflexivity.
Qed.

End InterpolateDouble.

(** X14: the shape of every frame that [analyze()] returns on a
    reachable analyzer is what the exported [interpolateShapes]
    returns for the frame's transition,
    [interpolateShapes(transition.from, transition.to,
    transition.progress)]: exactly so in double-precision arithmetic,
    and with equal parameters in exact arithmetic. *)
Theorem frame_shape_is_interpolateShapes :
  (forall smoothValue clamp options (this : FrequencyAnalyzer (num := float)) input,
     reachable smoothValue clamp options this ->
     let frame := fst (analyze smoothValue clamp this input) in
     let tr := transition frame in
     shape frame = interpolateShapes (from tr) (to tr) (progress tr)) /\
  (forall smoothValue clamp options (this : FrequencyAnalyzer (num := Q)) input,
     reachable smoothValue clamp options this ->
     let frame := fst (analyze smoothValue clamp this input) in
     let tr := transition frame in
     shape_eq (shape frame) (interpolateShapes (from tr) (to tr) (progress tr))).
Proof.
  split.
  - exact frame_shape_interpolated_double.
  - exact frame_shape_interpolated_exact.
Qed.

(** ** Sequences of analysis cycles *)

Section AnalyzerRuns.

Context {num : Type} `{Number num}.

Variable smoothValue : num -> num -> num -> num.
Variable clamp : num -> num -> num -> num.

Local Open Scope string_scope.

Abbreviation analyze' := (analyze smoothValue clamp).
Abbreviation reachable' := (reachable smoothValue clamp).

(** The frames that successive calls of [analyze()] return, one call
    for each cycle's raw data, and the analyzer after them. *)
Fixpoint analyze_all (inputs : list AudioFrame) (this : FrequencyAnalyzer)
    : list VisemeFrame * FrequencyAnalyzer :=
  match inputs with
  | [] => ([], this)
  | input :: rest =>
      let '(frame, this1) := analyze' this input in
      let '(frames, this2) := analyze_all rest this1 in
      (frame :: frames, this2)
  end.

Lemma emit_frameCount this v i b c :
  frame (fst (_emitViseme smoothValue this v i b c)) = _frameCount this /\
  _frameCount (snd (_emitViseme smoothValue this v i b c)) = _frameCount this.
Proof. unfold _emitViseme. case_bool_decide; split; reflexivity. Qed.

Lemma analyze_frameCount this input :
  frame (fst (analyze' this input)) = (_frameCount this + 1)%Z /\
  _frameCount (snd (analyze' this input)) = (_frameCount this + 1)%Z.
Proof.
  unfold analyze. destruct (nltb _ _).
  - apply emit_frameCount.
  - destruct (_classifyViseme _ _ _) as [v c]. unfold holdOff.
    case_bool_decide; [destruct (_ <? _)%Z|]; apply emit_frameCount.
Qed.

Lemma analyze_opts this input : opts (snd (analyze' this input)) = opts this.
Proof.
  unfold analyze. destruct (nltb _ _).
  - rewrite emit_opts. reflexivity.
  - destruct (_classifyViseme _ _ _) as [v c]. unfold holdOff.
    case_bool_decide; [destruct (_ <? _)%Z|]; rewrite emit_opts; reflexivity.
Qed.

Lemma reachable_opts options this : reachable' options this -> opts this = options.
Proof.
  induction 1 as [|this input _ IH|this _ IH].
  - reflexivity.
  - rewrite analyze_opts. exact IH.
  - exact IH.
Qed.

Lemma analyze_all_reachable options inputs this :
  reachable' options this -> reachable' options (snd (analyze_all inputs this)).
Proof.
  revert this. induction inputs as [|input rest IH]; intros this Hr; simpl; [exact Hr|].
  destruct (analyze' this input) as [fr this1] eqn:E1.
  specialize (IH this1). destruct (analyze_all rest this1) as [frs this2]. simpl in *.
  apply IH. replace this1 with (snd (analyze' this input)) by (rewrite E1; reflexivity).
  constructor. exact Hr.
Qed.

Lemma analyze_all_numbered inputs this :
  length (fst (analyze_all inputs this)) = length inputs /\
  _frameCount (snd (analyze_all inputs this)) = (_frameCount this + Z.of_nat (length inputs))%Z /\
  forall (i : nat) fr, fst (analyze_all inputs this) !! i = Some fr ->
    frame fr = (_frameCount this + Z.of_nat i + 1)%Z.
Proof.
  revert this. induction inputs as [|input rest IH]; intros this; simpl.
  - split; [reflexivity|]. split; [lia|]. intros i fr Hi. discriminate.
  - pose proof (analyze_frameCount this input) as [Hf Hc].
    destruct (analyze' this input) as [fr0 this1]. simpl in Hf, Hc.
    destruct (IH this1) as (Hlen & Hcount & Hnum).
    destruct (analyze_all rest this1) as [frs this2]. simpl in *.
    split; [lia|]. split; [lia|].
    intros [|i] fr Hi; simpl in Hi.
    + injection Hi as <-. lia.
    + rewrite (Hnum i fr Hi). lia.
Qed.

(** X15: [analyze()] increments the frame counter once per call and
    stamps the frame with it: of the frames that successive calls
    return, the one with index [i] carries the number
    [_frameCount + i + 1]; counted from the constructor or from a
    [reset()], the frames are numbered 1, 2, 3, ... *)
Theorem frames_numbered_consecutively (inputs : list AudioFrame) :
  (forall this,
     length (fst (analyze_all inputs this)) = length inputs /\
     _frameCount (snd (analyze_all inputs this)) =
       (_frameCount this + Z.of_nat (length inputs))%Z /\
     forall (i : nat) fr, fst (analyze_all inputs this) !! i = Some fr ->
       frame fr = (_frameCount this + Z.of_nat i + 1)%Z) /\
  (forall options (i : nat) fr,
     fst (analyze_all inputs (new_FrequencyAnalyzer options)) !! i = Some fr ->
     frame fr = Z.of_nat (S i)) /\
  (forall this (i : nat) fr,
     fst (analyze_all inputs (reset this)) !! i = Some fr ->
     frame fr = Z.of_nat (S i)).
Proof.
  split; [intros this; apply analyze_all_numbered|]. split.
  - intros options i fr Hi.
    destruct (analyze_all_numbered inputs (new_FrequencyAnalyzer options)) as (_ & _ & Hnum).
    rewrite (Hnum i fr Hi). simpl. lia.
  - intros this i fr Hi.
    destruct (analyze_all_numbered inputs (reset this)) as (_ & _ & Hnum).
    rewrite (Hnum i fr Hi). simpl. lia.
Qed.

(** [reset()] assigns every field of the state that the constructor
    initialises, and the same values. *)
Lemma reset_is_new (this : FrequencyAnalyzer) :
  reset this = new_FrequencyAnalyzer (opts this).
Proof. reflexivity. Qed.

(** X16: [analyze()] and [reset()] never change the options, and
    [reset()] puts back every field of the state that the constructor
    set: whatever an analyzer has analysed, after [reset()] it is the
    analyzer that the constructor makes for the same options, and it
    returns the same frames from then on; and [reset()] of an analyzer
    in any state, reachable or not, is the constructor's analyzer for
    its options. *)
Theorem reset_forgets_history (options : Options) (this : FrequencyAnalyzer)
    (inputs : list AudioFrame) :
  reachable' options this ->
  opts this = options /\
  reset this = new_FrequencyAnalyzer options /\
  analyze_all inputs (reset this) = analyze_all inputs (new_FrequencyAnalyzer options) /\
  (forall that : FrequencyAnalyzer,
     opts (reset that) = opts that /\
     reset that = new_FrequencyAnalyzer (opts that)).
Proof.
  intros Hr. pose proof (reachable_opts options this Hr) as Ho.
  assert (Hreset : reset this = new_FrequencyAnalyzer options)
    by (rewrite reset_is_new, Ho; reflexivity).
  split; [exact Ho|]. split; [exact Hreset|].
  split; [rewrite Hreset; reflexivity|].
  intros that. split; [reflexivity | apply reset_is_new].
Qed.

(** *** A proposal that persists *)

Lemma hold_run_adopts this ps v :
  (0 <= _holdCounter this)%Z ->
  Forall (fun p => p_viseme p = v) ps ->
  let st := hold_run smoothValue ps this in
  (_currentViseme st = v /\ _holdCounter st = 0%Z) \/
  ((_holdCounter this + Z.of_nat (length ps) <= _holdCounter st)%Z /\
   ((0 < length ps)%nat -> (_holdCounter st < holdFrames (opts this))%Z)).
Proof.
  intros H0. induction ps as [|p ps IH] using rev_ind; intros Hall st.
  - right. subst st. simpl. split; [lia|]. intros Hlen. lia.
  - apply Forall_app in Hall as [Hps Hp]. inversion Hp as [|? ? Hpv _]; subst.
    subst st. rewrite hold_run_snoc.
    set (st := hold_run smoothValue ps this) in *.
    pose proof (holdOff_spec smoothValue st (p_viseme p) (p_confidence p)
                  (p_intensity p) (p_bands p)) as (Hhold & Hswitch & Hagree).
    fold (hold_cycle smoothValue st p) in Hhold, Hswitch, Hagree.
    assert (Hopts : opts st = opts this) by apply hold_run_opts.
    rewrite Hopts in *. rewrite length_app. simpl length.
    destruct (decide (p_viseme p = _currentViseme st)) as [Heq|Hne].
    + destruct (Hagree Heq) as [Hc Hcur]. left. split; [congruence | exact Hc].
    + destruct (IH Hps) as [[Hcur _]|[Hlo Hhi]]; [congruence|].
      destruct (Z.lt_ge_cases (_holdCounter st + 1) (holdFrames (opts this))) as [Hlt|Hge].
      * destruct (Hhold Hne Hlt) as (Hc & _ & _). right. split; lia.
      * destruct (Hswitch Hne Hge) as (Hc & Hcur & _). left. split; assumption.
Qed.

(** X18: above the silence gate, a label that the classifier proposes
    in [n] consecutive cycles, with [n >= 1] and [n >= holdFrames], is
    the held label after these cycles, and the hold counter is then
    zero, whatever label was held before and whatever the (not
    negative) hold counter was. *)
Theorem persistent_proposal_is_adopted (this : FrequencyAnalyzer) (ps : list Proposal)
    (v : string) :
  (0 <= _holdCounter this)%Z ->
  Forall (fun p => p_viseme p = v) ps ->
  (0 < length ps)%nat ->
  (holdFrames (opts this) <= Z.of_nat (length ps))%Z ->
  _currentViseme (hold_run smoothValue ps this) = v /\
  _holdCounter (hold_run smoothValue ps this) = 0%Z.
Proof.
  intros H0 Hall Hlen Hhf.
  destruct (hold_run_adopts this ps v H0 Hall) as [Hdone|[Hlo Hhi]]; [exact Hdone|].
  specialize (Hhi Hlen). lia.
Qed.

(** *** The confidence of a frame *)

(** The label and the confidence of the frame of [analyze()], case by
    case: the silence gate, the hold-off keeping the held label, the
    switch to the proposal, and a proposal that agrees with the held
    label. *)
Lemma analyze_confidence (this : FrequencyAnalyzer) (input : AudioFrame) :
  let this1 := smooth smoothValue this input in
  let intensity := clamp (_smoothedAmplitude this1 * lit 3)%js (lit 0) (lit 1) in
  let proposal := _classifyViseme this1 (_smoothedBands this1) intensity in
  let gate := nltb (_smoothedAmplitude this1) (silenceThreshold (opts this)) in
  let frame := fst (analyze' this input) in
  (gate = true -> viseme frame = "sil" /\ confidence frame = lit 0.5) /\
  (gate = false -> fst proposal <> _currentViseme this ->
   (_holdCounter this + 1 < holdFrames (opts this))%Z ->
     viseme frame = _currentViseme this /\ confidence frame = lit 0.5) /\
  (gate = false -> fst proposal <> _currentViseme this ->
   (holdFrames (opts this) <= _holdCounter this + 1)%Z ->
     viseme frame = fst proposal /\ confidence frame = snd proposal) /\
  (gate = false -> fst proposal = _currentViseme this ->
     viseme frame = fst proposal /\ confidence frame = snd proposal).
Proof.
  intros this1 intensity proposal gate frame.
  split; [|split; [|split]]; intros Hgate.
  - unfold frame, analyze. fold this1. change (opts this1) with (opts this).
    fold gate. rewrite Hgate, emit_viseme, emit_confidence. split; reflexivity.
  - intros Hne Hlt. unfold frame.
    rewrite (analyze_above_gate smoothValue clamp this input Hgate).
    fold this1 intensity proposal. unfold holdOff.
    rewrite bool_decide_eq_true_2 by exact Hne.
    cbn [with_holdCounter _holdCounter opts].
    destruct (Z.ltb_spec (_holdCounter this1 + 1) (holdFrames (opts this1))) as [_|Hge];
      [|exfalso; change (holdFrames (opts this) <= _holdCounter this + 1)%Z in Hge; lia].
    rewrite emit_viseme, emit_confidence. split; reflexivity.
  - intros Hne Hge. unfold frame.
    rewrite (analyze_above_gate smoothValue clamp this input Hgate).
    fold this1 intensity proposal. unfold holdOff.
    rewrite bool_decide_eq_true_2 by exact Hne.
    cbn [with_holdCounter _holdCounter opts].
    destruct (Z.ltb_spec (_holdCounter this1 + 1) (holdFrames (opts this1))) as [Hlt|_];
      [exfalso; change (_holdCounter this + 1 < holdFrames (opts this))%Z in Hlt; lia|].
    rewrite emit_viseme, emit_confidence. split; reflexivity.
  - intros Heq. unfold frame.
    rewrite (analyze_above_gate smoothValue clamp this input Hgate).
    fold this1 intensity proposal. unfold holdOff.
    rewrite bool_decide_eq_false_2 by (intros Hne; apply Hne; exact Heq).
    rewrite emit_viseme, emit_confidence. split; reflexivity.
Qed.

(** *** The labels of the frames *)

(** The frames of a reachable analyzer carry only the labels of the
    classifier. *)
Lemma analyzer_labels (options : Options) (this : FrequencyAnalyzer)
    (input : AudioFrame) :
  reachable' options this ->
  let frame := fst (analyze' this input) in
  (viseme frame ∈ classifier_labels /\
   from (transition frame) ∈ classifier_labels /\
   to (transition frame) ∈ classifier_labels) /\
  (forall l, l ∈ ["TH"; "kk"; "RR"] ->
     l ∈ EXTENDED_VISEME_KEYS /\
     viseme frame <> l /\ from (transition frame) <> l /\ to (transition frame) <> l).
Proof.
  intros Hr frame.
  pose proof (analyze_labels smoothValue clamp this input
                (reachable_labels _ _ _ _ Hr)) as [Hcur Hprev].
  destruct (frame_shape_lerp smoothValue clamp options this input Hr) as (Hfrom & Hto & _).
  fold frame in Hfrom, Hto.
  assert (Hv : viseme frame ∈ classifier_labels).
  { unfold frame. rewrite analyze_frame_current. exact Hcur. }
  rewrite <- Hfrom in Hprev. rewrite <- Hto in Hcur.
  split; [split; [exact Hv | split; assumption]|].
  assert (Hnot : forall l, l ∈ ["TH"; "kk"; "RR"] ->
            l ∈ EXTENDED_VISEME_KEYS /\ l ∉ classifier_labels).
  { intros l Hl. apply list_elem_of_In in Hl. simpl in Hl.
    destruct Hl as [<-|[<-|[<-|[]]]]; split; by_decide. }
  intros l Hl. destruct (Hnot l Hl) as [Hext Hout].
  split; [exact Hext|]. repeat split; congruence.
Qed.

End AnalyzerRuns.

(** *** The end of a transition *)

Section TransitionEnd.

Local Open Scope string_scope.

Variable smoothValue : float -> float -> float -> float.
Variable clamp : float -> float -> float -> float.




(** Band energies and intensities for which the classifier returns
    each of its labels. *)
Definition classifier_examples : list (string * (Bands (num := float) * float)) := [
  ("sil", (mkBands (lit 0) (lit 0) (lit 0) (lit 0) (lit 0), lit 0.7));
  ("SS", (mkBands (lit 0.02) (lit 0.03) (lit 0.05) (lit 0.30) (lit 0.35), lit 0.7));
  ("CH", (mkBands (lit 0.02) (lit 0.03) (lit 0.05) (lit 0.5) (lit 0.1), lit 0.7));
  ("FF", (mkBands (lit 0) (lit 0.05) (lit 0.4) (lit 0.12) (lit 0), lit 0.7));
  ("PP", (mkBands (lit 0.3) (lit 0.3) (lit 0.2) (lit 0.25) (lit 0), lit 0.7));
  ("DD", (mkBands (lit 0.3) (lit 0.2) (lit 0.3) (lit 0.2) (lit 0), lit 0.7));
  ("nn", (mkBands (lit 0.3) (lit 0.3) (lit 0.1) (lit 0.05) (lit 0), lit 0.4));
  ("aa", (mkBands (lit 0.1) (lit 0.3) (lit 0.2) (lit 0.05) (lit 0), lit 0.55));
  ("E", (mkBands (lit 0.1) (lit 0.1) (lit 0.2) (lit 0.05) (lit 0), lit 0.4));
  ("O", (mkBands (lit 0.2) (lit 0.18) (lit 0.1) (lit 0.05) (lit 0), lit 0.4));
  ("I", (mkBands (lit 0.05) (lit 0.12) (lit 0.12) (lit 0.09) (lit 0), lit 0.25));
  ("U", (mkBands (lit 0.3) (lit 0.05) (lit 0.02) (lit 0.01) (lit 0), lit 0.1))
].

(** An analyzer whose smoothed amplitude is 0.3. *)
Definition loud : FrequencyAnalyzer (num := float) :=
  mkFrequencyAnalyzer DEFAULTS "sil" (lit 0) 0 (lit 0.3) zero_bands "sil" (lit 1) 0.

Lemma classifier_examples_labels : classifier_examples.*1 = classifier_labels.
Proof. reflexivity. Qed.

Lemma classifier_examples_classified :
  Forall (fun e => fst (_classifyViseme loud (fst (snd e)) (snd (snd e))) = fst e)
         classifier_examples.
Proof. repeat (constructor; [vm_compute; reflexivity|]). constructor. Qed.

End TransitionEnd.

(** X17: the frames of a reachable analyzer carry only the twelve
    labels that the classifier returns, as [viseme] and as both ends of
    [transition], in whatever arithmetic: the extended visemes ['TH'],
    ['kk'] and ['RR'] are never reported.  Each of the twelve is
    returned by the classifier, in double-precision arithmetic, for
    some band energies and intensity. *)
Theorem analyzer_never_reports :
  (forall (num : Type) (N : Number num) smoothValue clamp options
          (this : FrequencyAnalyzer (num := num)) input,
     reachable smoothValue clamp options this ->
     let frame := fst (analyze smoothValue clamp this input) in
     (viseme frame ∈ classifier_labels /\
      from (transition frame) ∈ classifier_labels /\
      to (transition frame) ∈ classifier_labels) /\
     (forall l, l ∈ ["TH"; "kk"; "RR"]%string ->
        l ∈ EXTENDED_VISEME_KEYS /\
        viseme frame <> l /\ from (transition frame) <> l /\
        to (transition frame) <> l)) /\
  (forall l, l ∈ classifier_labels ->
     exists (this : FrequencyAnalyzer (num := float)) bands intensity,
       fst (_classifyViseme this bands intensity) = l).
Proof.
  split.
  - intros num N smoothValue clamp options this input. apply analyzer_labels.
  - intros l Hl. rewrite <- classifier_examples_labels in Hl.
    apply list_elem_of_fmap in Hl as ([l' [b i]] & -> & Hin).
    exists loud, b, i.
    exact (proj1 (Forall_forall _ _) classifier_examples_classified _ Hin).
Qed.

(** *** The confidence of a frame, in every arithmetic *)

(** X20: the confidence of a frame, in whatever arithmetic.  It is 0.5
    when the silence gate closes (the frame is then ['sil']) and when
    the hold-off keeps the held label: the classifier's proposal
    differs from the held label and the incremented hold counter is
    below [holdFrames].  It is the confidence that the classifier gives
    for the smoothed band energies when the label switches to the
    proposal and when the proposal is the held label.  In
    double-precision as in exact arithmetic it lies within [[0, 1]]
    whenever the smoothed band energies are not negative. *)
Theorem frame_confidence_unit :
  (forall (num : Type) (N : Number num) (smoothValue clamp : num -> num -> num -> num)
          (this : FrequencyAnalyzer (num := num)) (input : AudioFrame),
     let this1 := smooth smoothValue this input in
     let intensity := clamp (_smoothedAmplitude this1 * lit 3)%js (lit 0) (lit 1) in
     let proposal := _classifyViseme this1 (_smoothedBands this1) intensity in
     let gate := nltb (_smoothedAmplitude this1) (silenceThreshold (opts this)) in
     let frame := fst (analyze smoothValue clamp this input) in
     (gate = true -> viseme frame = "sil"%string /\ confidence frame = lit 0.5) /\
     (gate = false -> fst proposal <> _currentViseme this ->
      (_holdCounter this + 1 < holdFrames (opts this))%Z ->
        viseme frame = _currentViseme this /\ confidence frame = lit 0.5) /\
     (gate = false -> fst proposal <> _currentViseme this ->
      (holdFrames (opts this) <= _holdCounter this + 1)%Z ->
        viseme frame = fst proposal /\ confidence frame = snd proposal) /\
     (gate = false -> fst proposal = _currentViseme this ->
        viseme frame = fst proposal /\ confidence frame = snd proposal)) /\
  (forall (smoothValue clamp : float -> float -> float -> float)
          (this : FrequencyAnalyzer (num := float)) (input : AudioFrame),
     nonneg_bands (_smoothedBands (smooth smoothValue this input)) ->
     unit_float (confidence (fst (analyze smoothValue clamp this input)))) /\
  (forall (smoothValue clamp : Q -> Q -> Q -> Q)
          (this : FrequencyAnalyzer (num := Q)) (input : AudioFrame),
     valid_bands (_smoothedBands (smooth smoothValue this input)) ->
     (0 <= confidence (fst (analyze smoothValue clamp this input)) <= 1)%Q).
Proof.
  split; [|split].
  - intros num N smoothValue clamp this input. apply analyze_confidence.
  - intros smoothValue clamp this input Hv.
    destruct (analyze_confidence smoothValue clamp this input)
      as (Hgate & Hhold & Hswitch & Hagree).
    set (this1 := smooth smoothValue this input) in *.
    set (intensity := clamp (_smoothedAmplitude this1 * lit 3)%js (lit 0) (lit 1)) in *.
    pose proof (classify_confidence_double this1 (_smoothedBands this1) intensity Hv) as Hc.
    set (proposal := _classifyViseme this1 (_smoothedBands this1) intensity) in *.
    assert (Hhalf : unit_float (lit (num := float) 0.5)) by (split; reflexivity).
    destruct (nltb (_smoothedAmplitude this1) (silenceThreshold (opts this))) eqn:Eg.
    + rewrite (proj2 (Hgate eq_refl)). exact Hhalf.
    + destruct (decide (fst proposal = _currentViseme this)) as [Heq|Hne].
      * rewrite (proj2 (Hagree eq_refl Heq)). exact Hc.
      * destruct (Z.lt_ge_cases (_holdCounter this + 1) (holdFrames (opts this)))
          as [Hlt|Hge].
        -- rewrite (proj2 (Hhold eq_refl Hne Hlt)). exact Hhalf.
        -- rewrite (proj2 (Hswitch eq_refl Hne Hge)). exact Hc.
  - intros smoothValue clamp this input Hv.
    destruct (analyze_confidence smoothValue clamp this input)
      as (Hgate & Hhold & Hswitch & Hagree).
    set (this1 := smooth smoothValue this input) in *.
    set (intensity := clamp (_smoothedAmplitude this1 * lit 3)%js (lit 0) (lit 1)) in *.
    pose proof (classify_confidence this1 (_smoothedBands this1) intensity Hv) as Hc.
    set (proposal := _classifyViseme this1 (_smoothedBands this1) intensity) in *.
    assert (Hhalf : (0 <= lit (num := Q) 0.5 <= 1)%Q) by (cbn [lit Q_Number]; lra).
    destruct (nltb (_smoothedAmplitude this1) (silenceThreshold (opts this))) eqn:Eg.
    + rewrite (proj2 (Hgate eq_refl)). exact Hhalf.
    + destruct (decide (fst proposal = _currentViseme this)) as [Heq|Hne].
      * rewrite (proj2 (Hagree eq_refl Heq)). exact Hc.
      * destruct (Z.lt_ge_cases (_holdCounter this + 1) (holdFrames (opts this)))
          as [Hlt|Hge].
        -- rewrite (proj2 (Hhold eq_refl Hne Hlt)). exact Hhalf.
        -- rewrite (proj2 (Hswitch eq_refl Hne Hge)). exact Hc.
Qed.

(** ** EventEmitter ([src/utils/EventEmitter.js]) *)

(** Listeners are functions, compared by identity.  The functions that
    callers register are the values of a type [fn] with decidable
    equality, and carry no [_original] property; a wrapper that
    [once] creates is a new function each time, told apart by the
    number of wrappers created before it.  Calling a listener is
    recorded as a call of the caller's function with its arguments;
    the listeners themselves are taken not to call back into the
    emitter while an [emit] runs.  A [Set] is the list of its elements
    in insertion order, which is the order [for ... of] visits them
    in. *)

Section EventEmitter.

Context {fn arg : Type} `{EqDecision fn}.

Local Open Scope nat_scope.

Inductive Listener : Type :=
| Plain (f : fn)
| Wrapper (id : nat) (event : string) (_original : fn).

#[export] Instance Listener_eq_dec : EqDecision Listener.
Proof. solve_decision. Defined.

(** The values passed to listeners: the arguments of [emit] and, for
    wildcard listeners, the event name. *)
Inductive value : Type :=
| Str (s : string)
| Val (a : arg).

(** A call [f(...args)] of a caller's function. *)
Definition Call : Type := fn * list value.

(** The emitter: the private map [#listeners], and the number of
    wrappers created so far. *)
Record EventEmitter := mkEventEmitter {
  listeners : gmap string (list Listener);
  wrappers : nat
}.

Definition new_EventEmitter : EventEmitter := mkEventEmitter ∅ 0.

(** [set.add(l)] and [set.delete(l)] *)
Definition set_add (l : Listener) (s : list Listener) : list Listener :=
  if decide (l ∈ s) then s else s ++ [l].

Definition set_delete (l : Listener) (s : list Listener) : list Listener :=
  filter (fun x => x <> l) s.

(** [listener._original === fn] *)
Definition is_wrapper_of (fn0 : Listener) (listener : Listener) : Prop :=
  match listener, fn0 with
  | Wrapper _ _ o, Plain f => o = f
  | _, _ => False
  end.

#[export] Instance is_wrapper_of_dec fn0 listener : Decision (is_wrapper_of fn0 listener).
Proof. destruct listener, fn0; simpl; apply _. Defined.

(** The map after the set of [event] has become [s]:
    [if (set.size === 0) this.#listeners.delete(event)]. *)
Definition store_set (event : string) (s : list Listener)
    (m : gmap string (list Listener)) : gmap string (list Listener) :=
  if decide (s = []) then delete event m else <[event := s]> m.

(** [off(event, fn)] *)
Definition off (event : string) (fn0 : Listener) (this : EventEmitter) : EventEmitter :=
  match listeners this !! event with
  | None => this
  | Some set =>
      let set1 := set_delete fn0 set in
      let set2 := filter (fun listener => ~ is_wrapper_of fn0 listener) set1 in
      mkEventEmitter (store_set event set2 (listeners this)) (wrappers this)
  end.

(** [on(event, fn)]: the emitter afterwards and the function returned,
    [() => this.off(event, fn)], as the change it makes to the emitter
    when it is called. *)
Definition on (event : string) (fn0 : Listener) (this : EventEmitter)
    : (EventEmitter -> EventEmitter) * EventEmitter :=
  let set := default [] (listeners this !! event) in
  (off event fn0,
   mkEventEmitter (<[event := set_add fn0 set]> (listeners this)) (wrappers this)).

(** [once(event, fn)] *)
Definition once (event : string) (f : fn) (this : EventEmitter)
    : (EventEmitter -> EventEmitter) * EventEmitter :=
  let wrapper := Wrapper (wrappers this) event f in
  on event wrapper (mkEventEmitter (listeners this) (S (wrappers this))).

(** The function that a listener runs for the caller. *)
Definition target (l : Listener) : fn :=
  match l with
  | Plain f => f
  | Wrapper _ _ o => o
  end.

(** One call [fn(...args)] of a listener in a loop of [emit]: a
    wrapper first takes itself off, [this.off(event, wrapper)], and
    then calls its [_original]. *)
Definition invoke (args : list value) (st : EventEmitter * list Call) (l : Listener)
    : EventEmitter * list Call :=
  let '(this, calls) := st in
  match l with
  | Plain f => (this, calls ++ [(f, args)])
  | Wrapper _ event o => (off event l this, calls ++ [(o, args)])
  end.

(** [for (const fn of set) fn(...args)] *)
Definition invoke_all (set : option (list Listener)) (args : list value)
    (st : EventEmitter * list Call) : EventEmitter * list Call :=
  match set with
  | Some s => foldl (invoke args) st s
  | None => st
  end.

(** [emit(event, ...args)]: the calls made, in order, and the emitter
    afterwards. *)
Definition emit (event : string) (args : list value) (this : EventEmitter)
    : list Call * EventEmitter :=
  let st1 := invoke_all (listeners this !! event) args (this, []) in
  let st2 := invoke_all (listeners (fst st1) !! "*"%string) (Str event :: args) st1 in
  (snd st2, fst st2).

(** [removeAllListeners(event)]; [event] is [None] when the argument is
    omitted, and the empty string is falsy too. *)
Definition removeAllListeners (event : option string) (this : EventEmitter) : EventEmitter :=
  match event with
  | Some ev =>
      if decide (ev = ""%string) then mkEventEmitter ∅ (wrappers this)
      else mkEventEmitter (delete ev (listeners this)) (wrappers this)
  | None => mkEventEmitter ∅ (wrappers this)
  end.

(** [listenerCount(event)] *)
Definition listenerCount (event : string) (this : EventEmitter) : nat :=
  match listeners this !! event with
  | Some set => length set
  | None => 0
  end.

(** *** The listeners of an event *)

(** The listeners registered for an event, in the order of their
    registration. *)
Definition listeners_of (event : string) (this : EventEmitter) : list Listener :=
  default [] (listeners this !! event).

Definition is_plain (l : Listener) : Prop :=
  match l with Plain _ => True | Wrapper _ _ _ => False end.

#[export] Instance is_plain_dec l : Decision (is_plain l).
Proof. destruct l; simpl; apply _. Defined.

(** A wrapper sits in the set of the event it was made for, and was
    made by this emitter. *)
Definition placed (event : string) (made : nat) (l : Listener) : Prop :=
  match l with
  | Plain _ => True
  | Wrapper id ev _ => ev = event /\ id < made
  end.

(** What the methods keep true of the map: no empty set is stored, a
    set holds no listener twice, and the wrappers are in place. *)
Definition wf (this : EventEmitter) : Prop :=
  map_Forall (fun event set =>
                set <> [] /\ NoDup set /\ Forall (placed event (wrappers this)) set)
             (listeners this).

Lemma listenerCount_length event this :
  listenerCount event this = length (listeners_of event this).
Proof. unfold listenerCount, listeners_of. destruct (_ !! _); reflexivity. Qed.

Lemma store_set_lookup event s m :
  default [] (store_set event s m !! event) = s.
Proof.
  unfold store_set. destruct (decide (s = [])) as [->|Hs].
  - rewrite lookup_delete_eq. reflexivity.
  - rewrite lookup_insert_eq. reflexivity.
Qed.

Lemma store_set_lookup_ne event event' s m :
  event <> event' -> store_set event s m !! event' = m !! event'.
Proof.
  intros Hne. unfold store_set. destruct (decide (s = [])).
  - apply lookup_delete_ne. exact Hne.
  - apply lookup_insert_ne. exact Hne.
Qed.

Lemma store_set_store event s s' m :
  store_set event s (store_set event s' m) = store_set event s m.
Proof.
  unfold store_set. destruct (decide (s = [])), (decide (s' = [])).
  - apply delete_delete_eq.
  - apply delete_insert_eq.
  - apply insert_delete_eq.
  - apply insert_insert_eq.
Qed.

(** A map is its set for [event], stored into the rest of it. *)
Lemma store_set_self event m :
  m !! event <> Some [] ->
  store_set event (default [] (m !! event)) m = m.
Proof.
  intros Hne. unfold store_set. destruct (m !! event) as [s|] eqn:Hs; simpl.
  - destruct (decide (s = [])) as [->|_]; [congruence|]. apply insert_id. exact Hs.
  - apply delete_id. exact Hs.
Qed.

Lemma wf_store event s this :
  wf this -> NoDup s -> Forall (placed event (wrappers this)) s ->
  wf (mkEventEmitter (store_set event s (listeners this)) (wrappers this)).
Proof.
  intros Hwf Hnd Hpl. unfold wf, store_set. simpl.
  destruct (decide (s = [])) as [->|Hs].
  - apply map_Forall_delete. exact Hwf.
  - apply map_Forall_insert_2; [auto | exact Hwf].
Qed.

Lemma wf_lookup event s this :
  wf this -> listeners this !! event = Some s ->
  s <> [] /\ NoDup s /\ Forall (placed event (wrappers this)) s.
Proof. intros Hwf Hs. exact (Hwf _ _ Hs). Qed.

Lemma wf_listeners_of event this :
  wf this ->
  NoDup (listeners_of event this) /\
  Forall (placed event (wrappers this)) (listeners_of event this) /\
  listeners this !! event <> Some [].
Proof.
  intros Hwf. unfold listeners_of. destruct (listeners this !! event) as [s|] eqn:Hs.
  - destruct (wf_lookup _ _ _ Hwf Hs) as (Hne & Hnd & Hpl). simpl.
    split; [exact Hnd|]. split; [exact Hpl | congruence].
  - simpl. split; [constructor|]. split; [constructor | congruence].
Qed.

Lemma set_delete_notin l s : l ∉ s -> set_delete l s = s.
Proof.
  intros Hl. unfold set_delete. induction s as [|x s IH]; [reflexivity|].
  rewrite filter_cons. apply not_elem_of_cons in Hl as [Hne Hl].
  destruct (decide (x <> l)) as [_|Heq]; [f_equal; auto | exfalso; apply Heq; congruence].
Qed.

Lemma set_delete_middle l pre post :
  NoDup (pre ++ l :: post) -> set_delete l (pre ++ l :: post) = pre ++ post.
Proof.
  intros Hnd. apply NoDup_app in Hnd as (Hpre & Hdisj & Hpost).
  apply NoDup_cons in Hpost as [Hl Hpost].
  unfold set_delete. rewrite filter_app, filter_cons.
  destruct (decide (l <> l)) as [Hne|_]; [congruence|].
  fold (set_delete l pre). fold (set_delete l post).
  rewrite !set_delete_notin; [reflexivity | exact Hl |].
  intros Hin. apply (Hdisj l Hin). left.
Qed.

Lemma filter_all {A : Type} (P : A -> Prop) `{forall x, Decision (P x)} (s : list A) :
  Forall P s -> filter P s = s.
Proof.
  induction 1 as [|x s Hx _ IH]; [reflexivity|].
  rewrite filter_cons. destruct (decide (P x)); [f_equal; exact IH | contradiction].
Qed.

Lemma Forall_filter_keep {A : Type} (P Q : A -> Prop) `{forall x, Decision (P x)} (s : list A) :
  Forall Q s -> Forall Q (filter P s).
Proof.
  rewrite !Forall_forall. intros Hs x Hx. apply list_elem_of_filter in Hx as [_ Hx]. auto.
Qed.

Lemma no_wrapper_of_wrapper id ev o (s : list Listener) :
  filter (fun listener => ~ is_wrapper_of (Wrapper id ev o) listener) s = s.
Proof. apply filter_all. apply Forall_forall. intros [f|id' ev' o'] _; simpl; auto. Qed.

(** A wrapper that takes itself off leaves the other listeners of its
    event as they are. *)
Lemma off_self event id o pre post m made :
  NoDup (pre ++ Wrapper id event o :: post) ->
  off event (Wrapper id event o)
      (mkEventEmitter (store_set event (pre ++ Wrapper id event o :: post) m) made) =
  mkEventEmitter (store_set event (pre ++ post) m) made.
Proof.
  intros Hnd. unfold off. simpl.
  assert (Hlook : store_set event (pre ++ Wrapper id event o :: post) m !! event =
                  Some (pre ++ Wrapper id event o :: post)).
  { unfold store_set. destruct (decide (_ = [])) as [Hnil|_].
    - destruct pre; discriminate.
    - apply lookup_insert_eq. }
  rewrite Hlook, set_delete_middle by exact Hnd.
  rewrite no_wrapper_of_wrapper, store_set_store. reflexivity.
Qed.

(** One loop of [emit] over a set: every listener is called, in order,
    and the wrappers are gone afterwards. *)
Lemma invoke_loop event args m made :
  forall (s pre : list Listener) (calls : list Call),
    NoDup (pre ++ s) -> Forall (placed event made) s ->
    foldl (invoke args) (mkEventEmitter (store_set event (pre ++ s) m) made, calls) s =
    (mkEventEmitter (store_set event (pre ++ filter is_plain s) m) made,
     calls ++ map (fun l => (target l, args)) s).
Proof.
  induction s as [|l s IH]; intros pre calls Hnd Hpl.
  - cbn [foldl map]. rewrite filter_nil, !app_nil_r. reflexivity.
  - inversion Hpl as [|? ? Hl Hpl']; subst. destruct l as [f|id ev o].
    + cbn [foldl invoke]. rewrite filter_cons. cbn [is_plain].
      destruct (decide True) as [_|Hf]; [|contradiction].
      replace (pre ++ Plain f :: s) with ((pre ++ [Plain f]) ++ s) by (rewrite <- app_assoc; reflexivity).
      rewrite IH; [| rewrite <- app_assoc; exact Hnd | exact Hpl'].
      rewrite <- !app_assoc. reflexivity.
    + destruct Hl as [-> Hid]. cbn [foldl invoke].
      rewrite off_self by exact Hnd. rewrite filter_cons. cbn [is_plain].
      destruct (decide False) as [Hf|_]; [contradiction|].
      rewrite IH; [| | exact Hpl'].
      * rewrite <- !app_assoc. reflexivity.
      * apply NoDup_app in Hnd as (Hpre & Hdisj & Hpost).
        apply NoDup_cons in Hpost as [_ Hpost].
        apply NoDup_app. split; [exact Hpre|]. split; [|exact Hpost].
        intros x Hx Hxs. apply (Hdisj x Hx). right. exact Hxs.
Qed.

Lemma invoke_all_spec event args this calls :
  wf this ->
  invoke_all (listeners this !! event) args (this, calls) =
  (mkEventEmitter (store_set event (filter is_plain (listeners_of event this)) (listeners this))
                  (wrappers this),
   calls ++ map (fun l => (target l, args)) (listeners_of event this)).
Proof.
  intros Hwf. destruct (wf_listeners_of event this Hwf) as (Hnd & Hpl & Hne).
  unfold invoke_all, listeners_of in *.
  destruct (listeners this !! event) as [s|] eqn:Hs; simpl in *.
  - pose proof (invoke_loop event args (listeners this) (wrappers this) s [] calls Hnd Hpl) as H.
    simpl in H. rewrite <- H. f_equal. f_equal.
    destruct this as [m n]. simpl in *. f_equal.
    unfold store_set. destruct (decide (s = [])) as [->|_]; [congruence|].
    symmetry. apply insert_id. exact Hs.
  - rewrite app_nil_r. f_equal. destruct this as [m n]. simpl in *. f_equal.
    unfold store_set. simpl. symmetry. apply delete_id. exact Hs.
Qed.

Lemma wf_after_loop event this :
  wf this ->
  wf (mkEventEmitter (store_set event (filter is_plain (listeners_of event this)) (listeners this))
                     (wrappers this)).
Proof.
  intros Hwf. destruct (wf_listeners_of event this Hwf) as (Hnd & Hpl & _).
  apply wf_store; [exact Hwf | apply NoDup_filter; exact Hnd | apply Forall_filter_keep; exact Hpl].
Qed.

Lemma filter_plain_idemp (s : list Listener) :
  filter is_plain (filter is_plain s) = filter is_plain s.
Proof. apply filter_all. apply Forall_forall. intros l Hl. apply list_elem_of_filter in Hl. tauto. Qed.

(** [emit], in terms of the listeners of the event and of ['*']. *)
Lemma emit_spec event args this :
  wf this ->
  let direct := listeners_of event this in
  let this1 := mkEventEmitter (store_set event (filter is_plain direct) (listeners this))
                              (wrappers this) in
  let wild := listeners_of "*"%string this1 in
  emit event args this =
    (map (fun l => (target l, args)) direct ++
     map (fun l => (target l, Str event :: args)) wild,
     mkEventEmitter (store_set "*"%string (filter is_plain wild) (listeners this1)) (wrappers this)) /\
  wf (snd (emit event args this)).
Proof.
  intros Hwf direct this1 wild.
  assert (Hwf1 : wf this1) by (apply wf_after_loop; exact Hwf).
  assert (Heq : emit event args this =
    (map (fun l => (target l, args)) direct ++
     map (fun l => (target l, Str event :: args)) wild,
     mkEventEmitter (store_set "*"%string (filter is_plain wild) (listeners this1)) (wrappers this))).
  { unfold emit. rewrite (invoke_all_spec event args this [] Hwf). fold direct. fold this1.
    cbn [fst snd app].
    rewrite (invoke_all_spec "*"%string (Str event :: args) this1 _ Hwf1). reflexivity. }
  split; [exact Heq|]. rewrite Heq. cbn [snd].
  exact (wf_after_loop "*"%string this1 Hwf1).
Qed.

(** *** The methods keep the invariant *)

Lemma wf_new : wf new_EventEmitter.
Proof. unfold wf. simpl. apply map_Forall_empty. Qed.

Lemma placed_mono event made made' l : made <= made' -> placed event made l -> placed event made' l.
Proof. intros Hle. destruct l; simpl; [auto|]. intros [? ?]. split; [assumption | lia]. Qed.

Lemma wf_made this made' :
  wf this -> wrappers this <= made' -> wf (mkEventEmitter (listeners this) made').
Proof.
  intros Hwf Hle ev s Hs. destruct (Hwf ev s Hs) as (Hne & Hnd & Hpl).
  split; [exact Hne|]. split; [exact Hnd|].
  eapply Forall_impl; [exact Hpl|]. intros l. apply placed_mono. exact Hle.
Qed.

Lemma wf_on event l this :
  wf this -> placed event (wrappers this) l -> wf (snd (on event l this)).
Proof.
  intros Hwf Hl. destruct (wf_listeners_of event this Hwf) as (Hnd & Hpl & _).
  unfold on, wf. simpl. fold (listeners_of event this).
  apply map_Forall_insert_2; [|exact Hwf].
  unfold set_add. destruct (decide (l ∈ listeners_of event this)) as [Hin|Hout].
  - split; [|split; assumption]. intros Hnil. rewrite Hnil in Hin. inversion Hin.
  - split; [destruct (listeners_of event this); discriminate|]. split.
    + apply NoDup_app. split; [exact Hnd|]. split; [|apply NoDup_singleton].
      intros x Hx Hx'. apply list_elem_of_singleton in Hx'. subst. contradiction.
    + apply Forall_app. split; [exact Hpl|]. constructor; [exact Hl | constructor].
Qed.

Lemma wf_once event f this : wf this -> wf (snd (once event f this)).
Proof.
  intros Hwf. unfold once. apply wf_on.
  - apply wf_made; [exact Hwf | simpl; lia].
  - simpl. split; [reflexivity | lia].
Qed.

Lemma wf_off event l this : wf this -> wf (off event l this).
Proof.
  intros Hwf. unfold off. destruct (listeners this !! event) as [s|] eqn:Hs; [|exact Hwf].
  destruct (wf_lookup _ _ _ Hwf Hs) as (_ & Hnd & Hpl).
  apply wf_store; [exact Hwf | |].
  - apply NoDup_filter, NoDup_filter. exact Hnd.
  - apply Forall_filter_keep, Forall_filter_keep. exact Hpl.
Qed.

Lemma wf_removeAllListeners event this : wf this -> wf (removeAllListeners event this).
Proof.
  intros Hwf. unfold removeAllListeners.
  destruct event as [ev|]; [destruct (decide (ev = ""%string))|]; unfold wf; simpl;
    try apply map_Forall_empty.
  apply map_Forall_delete. exact Hwf.
Qed.

(** The emitters that the constructor and the methods produce; a
    function returned by [on] or [once] may be called at any later
    time. *)
Inductive built : EventEmitter -> Prop :=
| built_new : built new_EventEmitter
| built_on event f this : built this -> built (snd (on event (Plain f) this))
| built_once event f this : built this -> built (snd (once event f this))
| built_off event f this : built this -> built (off event (Plain f) this)
| built_unsubscribe_on event f this later :
    built this -> built later -> built (fst (on event (Plain f) this) later)
| built_unsubscribe_once event f this later :
    built this -> built later -> built (fst (once event f this) later)
| built_emit event args this : built this -> built (snd (emit event args this))
| built_removeAllListeners event this : built this -> built (removeAllListeners event this).

Lemma built_wf this : built this -> wf this.
Proof.
  induction 1 as [|ev f this _ IH|ev f this _ IH|ev f this _ IH
                  |ev f this later _ _ _ IH|ev f this later _ _ _ IH
                  |ev args this _ IH|ev this _ IH].
  - exact wf_new.
  - apply wf_on; [exact IH | exact I].
  - apply wf_once. exact IH.
  - apply wf_off. exact IH.
  - apply wf_off. exact IH.
  - apply wf_off. exact IH.
  - apply emit_spec. exact IH.
  - apply wf_removeAllListeners. exact IH.
Qed.

(** *** What the methods do *)

Lemma listeners_of_store event s m made :
  listeners_of event (mkEventEmitter (store_set event s m) made) = s.
Proof. apply store_set_lookup. Qed.

Lemma listeners_of_store_ne event event' s m made :
  event <> event' ->
  listeners_of event' (mkEventEmitter (store_set event s m) made) =
  default [] (m !! event').
Proof. intros Hne. unfold listeners_of. simpl. rewrite store_set_lookup_ne by exact Hne. reflexivity. Qed.

Lemma store_listeners_of event this :
  wf this ->
  mkEventEmitter (store_set event (listeners_of event this) (listeners this)) (wrappers this) = this.
Proof.
  intros Hwf. destruct (wf_listeners_of event this Hwf) as (_ & _ & Hne).
  unfold listeners_of. rewrite store_set_self by exact Hne. destruct this; reflexivity.
Qed.

(** An emitter without wrappers for [event] and for ['*'] is left as it
    is by [emit]. *)
Lemma emit_plain event args this :
  wf this ->
  Forall is_plain (listeners_of event this) ->
  Forall is_plain (listeners_of "*"%string this) ->
  snd (emit event args this) = this.
Proof.
  intros Hwf Hd Hw. destruct (emit_spec event args this Hwf) as [-> _]. cbn [snd].
  rewrite (filter_all _ _ Hd).
  rewrite (store_listeners_of event this Hwf).
  rewrite (filter_all _ _ Hw). apply store_listeners_of. exact Hwf.
Qed.

Lemma filter_plain_all (s : list Listener) : Forall is_plain (filter is_plain s).
Proof. apply Forall_forall. intros l Hl. apply list_elem_of_filter in Hl. tauto. Qed.

(** The calls of an [emit] and the listeners it leaves. *)
Lemma emit_listeners_star event args this :
  wf this ->
  listeners_of "*"%string (snd (emit event args this)) =
  filter is_plain (listeners_of "*"%string this).
Proof.
  intros Hwf. destruct (emit_spec event args this Hwf) as [-> _]. cbn [snd].
  rewrite listeners_of_store.
  destruct (decide (event = "*"%string)) as [->|Hne].
  - rewrite listeners_of_store. apply filter_plain_idemp.
  - rewrite (listeners_of_store_ne event "*"%string) by exact Hne. reflexivity.
Qed.

Lemma emit_listeners_event event args this :
  wf this ->
  listeners_of event (snd (emit event args this)) =
  filter is_plain (listeners_of event this).
Proof.
  intros Hwf. destruct (decide (event = "*"%string)) as [->|Hne].
  - apply emit_listeners_star. exact Hwf.
  - destruct (emit_spec event args this Hwf) as [-> _]. cbn [snd].
    rewrite listeners_of_store_ne by congruence.
    apply (listeners_of_store event _ (listeners this) (wrappers this)).
Qed.

Lemma emit_listeners_other event args this ev :
  wf this -> ev <> event -> ev <> "*"%string ->
  listeners_of ev (snd (emit event args this)) = listeners_of ev this.
Proof.
  intros Hwf Hev1 Hev2. destruct (emit_spec event args this Hwf) as [-> _]. cbn [snd].
  rewrite listeners_of_store_ne by congruence.
  cbn [listeners]. rewrite store_set_lookup_ne by congruence. reflexivity.
Qed.

Lemma emit_calls_event event args this :
  wf this -> event <> "*"%string ->
  fst (emit event args this) =
  map (fun l => (target l, args)) (listeners_of event this) ++
  map (fun l => (target l, Str event :: args)) (listeners_of "*"%string this).
Proof.
  intros Hwf Hne. destruct (emit_spec event args this Hwf) as [-> _]. cbn [fst].
  rewrite (listeners_of_store_ne event "*"%string) by exact Hne. reflexivity.
Qed.

Lemma emit_calls_star args this :
  wf this ->
  fst (emit "*"%string args this) =
  map (fun l => (target l, args)) (listeners_of "*"%string this) ++
  map (fun l => (target l, Str "*"%string :: args))
      (filter is_plain (listeners_of "*"%string this)).
Proof.
  intros Hwf. destruct (emit_spec "*"%string args this Hwf) as [-> _]. cbn [fst].
  rewrite listeners_of_store. reflexivity.
Qed.

(** X21: [emit(event, ...args)] on an emitter that the constructor and
    the methods have produced calls the listeners of the event in the
    order of their registration, each with the arguments, and then the
    listeners of ['*'], each with the event name put before the
    arguments.  Afterwards the listeners registered with [once] for the
    event and for ['*'] are gone and all others are still registered,
    in the same order, so a second [emit] of the event changes
    nothing.  For the event ['*'] itself every listener of ['*'] is
    called once with the arguments, and those registered with [on] a
    second time with ['*'] put before the arguments. *)
Theorem emit_calls_in_order (event : string) (args : list value) (this : EventEmitter) :
  built this ->
  let call := fun (a : list value) (l : Listener) => (target l, a) in
  let '(calls, this') := emit event args this in
  (event <> "*"%string ->
     calls = map (call args) (listeners_of event this) ++
             map (call (Str event :: args)) (listeners_of "*"%string this)) /\
  (event = "*"%string ->
     calls = map (call args) (listeners_of "*"%string this) ++
             map (call (Str "*"%string :: args))
                 (filter is_plain (listeners_of "*"%string this))) /\
  listeners_of event this' = filter is_plain (listeners_of event this) /\
  listeners_of "*"%string this' = filter is_plain (listeners_of "*"%string this) /\
  (forall ev, ev <> event -> ev <> "*"%string ->
     listeners_of ev this' = listeners_of ev this) /\
  snd (emit event args this') = this'.
Proof.
  intros Hb call. pose proof (built_wf this Hb) as Hwf.
  pose proof (proj2 (emit_spec event args this Hwf)) as Hwf'.
  split; [exact (emit_calls_event event args this Hwf)|].
  split; [intros ->; exact (emit_calls_star args this Hwf)|].
  split; [exact (emit_listeners_event event args this Hwf)|].
  split; [exact (emit_listeners_star event args this Hwf)|]. split.
  - intros ev Hev1 Hev2. apply emit_listeners_other; assumption.
  - change (snd (emit event args (snd (emit event args this))) = snd (emit event args this)).
    apply emit_plain;
      [exact Hwf' | rewrite (emit_listeners_event event args this Hwf)
                  | rewrite (emit_listeners_star event args this Hwf)];
      apply filter_plain_all.
Qed.

Lemma wrapper_fresh event f this :
  wf this -> Wrapper (wrappers this) event f ∉ listeners_of event this.
Proof.
  intros Hwf Hin. destruct (wf_listeners_of event this Hwf) as (_ & Hpl & _).
  pose proof (proj1 (Forall_forall _ _) Hpl _ Hin) as [_ Hlt]. lia.
Qed.

Lemma listeners_of_on event l this :
  listeners_of event (snd (on event l this)) = set_add l (listeners_of event this).
Proof. unfold on, listeners_of. simpl. rewrite lookup_insert_eq. reflexivity. Qed.

Lemma listeners_of_on_ne event event' l this :
  event <> event' ->
  listeners_of event' (snd (on event l this)) = listeners_of event' this.
Proof.
  intros Hne. unfold on, listeners_of. simpl. rewrite lookup_insert_ne by exact Hne. reflexivity.
Qed.

Lemma set_add_new l s : l ∉ s -> set_add l s = s ++ [l].
Proof. intros Hl. unfold set_add. destruct (decide (l ∈ s)); [contradiction | reflexivity]. Qed.

Lemma set_add_old l s : l ∈ s -> set_add l s = s.
Proof. intros Hl. unfold set_add. destruct (decide (l ∈ s)); [reflexivity | contradiction]. Qed.

(** The listeners of an event after [off]: those of other functions. *)
Lemma listeners_of_off event (l : Listener) this :
  listeners_of event (off event l this) =
  filter (fun x => ~ is_wrapper_of l x) (set_delete l (listeners_of event this)).
Proof.
  unfold off, listeners_of. destruct (listeners this !! event) as [s|] eqn:Hs.
  - simpl. apply store_set_lookup.
  - rewrite Hs. reflexivity.
Qed.

Lemma listeners_of_off_ne event event' (l : Listener) this :
  event <> event' -> listeners_of event' (off event l this) = listeners_of event' this.
Proof.
  intros Hne. unfold off, listeners_of. destruct (listeners this !! event) as [s|]; [|reflexivity].
  simpl. rewrite store_set_lookup_ne by exact Hne. reflexivity.
Qed.

Lemma off_plain_filter (f : fn) (s : list Listener) :
  filter (fun x => ~ is_wrapper_of (Plain f) x) (set_delete (Plain f) s) =
  filter (fun l => target l <> f) s.
Proof.
  unfold set_delete. induction s as [|x s IH]; [reflexivity|].
  rewrite !filter_cons.
  destruct x as [g|id ev o]; simpl.
  - destruct (decide (Plain g <> Plain f)) as [Hne|Heq];
      destruct (decide (g <> f)) as [Hne'|Heq'].
    + rewrite filter_cons. simpl. destruct (decide (~ False)) as [_|Hn]; [|tauto].
      f_equal. exact IH.
    + exfalso. apply Hne. f_equal. destruct (decide (g = f)); [assumption | contradiction].
    + exfalso. apply Heq. congruence.
    + exact IH.
  - destruct (decide (Wrapper id ev o <> Plain f)) as [_|Hn]; [|exfalso; apply Hn; discriminate].
    rewrite filter_cons. simpl.
    destruct (decide (~ o = f)) as [Hne|Heq]; destruct (decide (o <> f)) as [Hne'|Heq'];
      try contradiction; [f_equal|]; exact IH.
Qed.

(** X22: [once(event, fn)] always adds a listener, a new wrapper, at
    the end of the listeners of the event, even when [fn] is already
    registered.  On the next [emit] of the event [fn] is called with
    the arguments, after the listeners registered before it, and the
    wrapper is gone afterwards; the function that [once] returned,
    called instead, takes off the wrapper and nothing else. *)
Theorem once_runs_once (event : string) (f : fn) (args : list value) (this : EventEmitter) :
  built this ->
  let wrapper := Wrapper (wrappers this) event f in
  let unsubscribe := fst (once event f this) in
  let this1 := snd (once event f this) in
  listeners_of event this1 = listeners_of event this ++ [wrapper] /\
  listenerCount event this1 = S (listenerCount event this) /\
  (event <> "*"%string ->
     fst (emit event args this1) =
       map (fun l => (target l, args)) (listeners_of event this) ++ [(f, args)] ++
       map (fun l => (target l, Str event :: args)) (listeners_of "*"%string this)) /\
  listeners_of event (snd (emit event args this1)) =
    filter is_plain (listeners_of event this) /\
  listeners_of event (unsubscribe this1) = listeners_of event this.
Proof.
  intros Hb wrapper unsubscribe this1. pose proof (built_wf this Hb) as Hwf.
  assert (Hb1 : built this1) by (apply built_once; exact Hb).
  assert (Hl1 : listeners_of event this1 = listeners_of event this ++ [wrapper]).
  { unfold this1, once. rewrite listeners_of_on.
    apply set_add_new. apply (wrapper_fresh event f this Hwf). }
  split; [exact Hl1|].
  split; [rewrite !listenerCount_length, Hl1, length_app; simpl; lia|].
  pose proof (built_wf this1 Hb1) as Hwf1.
  split; [|split].
  - intros Hne. rewrite (emit_calls_event event args this1 Hwf1 Hne), Hl1, map_app. simpl.
    unfold this1, once. rewrite listeners_of_on_ne by exact Hne.
    rewrite <- app_assoc. reflexivity.
  - rewrite (emit_listeners_event event args this1 Hwf1), Hl1, filter_app. simpl.
    rewrite filter_cons. simpl.
    destruct (decide False); [contradiction|]. rewrite filter_nil. apply app_nil_r.
  - unfold unsubscribe, once, on. cbn [fst]. unfold wrapper in *.
    rewrite listeners_of_off, Hl1, no_wrapper_of_wrapper.
    rewrite set_delete_middle.
    + apply app_nil_r.
    + rewrite <- Hl1. apply (wf_listeners_of event this1 (built_wf this1 Hb1)).
Qed.

(** X23: [on(event, fn)] registers a function at most once for an
    event: a second registration changes nothing, and the listener
    count goes up by one exactly when the function was not yet
    registered with [on] for the event.  When, before the call, the
    function had no registration for the event at all, calling the
    function that [on] returned right away gives back the emitter as it
    was. *)
Theorem on_registers_once (event : string) (f : fn) (this : EventEmitter) :
  built this ->
  let unsubscribe := fst (on event (Plain f) this) in
  let this1 := snd (on event (Plain f) this) in
  snd (on event (Plain f) this1) = this1 /\
  (Plain f ∈ listeners_of event this ->
     listeners_of event this1 = listeners_of event this) /\
  (Plain f ∉ listeners_of event this ->
     listeners_of event this1 = listeners_of event this ++ [Plain f] /\
     listenerCount event this1 = S (listenerCount event this)) /\
  (forall ev, ev <> event -> listeners_of ev this1 = listeners_of ev this) /\
  (Forall (fun l => target l <> f) (listeners_of event this) -> unsubscribe this1 = this).
Proof.
  intros Hb unsubscribe this1. pose proof (built_wf this Hb) as Hwf.
  assert (Hin1 : Plain f ∈ listeners_of event this1).
  { unfold this1. rewrite listeners_of_on. unfold set_add.
    destruct (decide (Plain f ∈ listeners_of event this)) as [Hin|_]; [exact Hin|].
    apply elem_of_app. right. left. }
  split; [|split; [|split; [|split]]].
  - pose proof (listeners_of_on event (Plain f) this1) as H1.
    rewrite (set_add_old _ _ Hin1) in H1.
    unfold on at 1. cbn [snd]. fold (listeners_of event this1).
    rewrite (set_add_old _ _ Hin1).
    unfold listeners_of. unfold this1, on. cbn [snd listeners wrappers].
    rewrite lookup_insert_eq. cbn [default from_option id].
    rewrite insert_insert_eq. reflexivity.
  - intros Hin. unfold this1. rewrite listeners_of_on. apply set_add_old. exact Hin.
  - intros Hout.
    assert (Hl : listeners_of event this1 = listeners_of event this ++ [Plain f]).
    { unfold this1. rewrite listeners_of_on. apply set_add_new. exact Hout. }
    split; [exact Hl|]. rewrite !listenerCount_length, Hl, length_app. simpl. lia.
  - intros ev Hne. unfold this1. apply listeners_of_on_ne. congruence.
  - intros Hnone.
    assert (Hout : Plain f ∉ listeners_of event this).
    { intros Hin. exact (proj1 (Forall_forall _ _) Hnone _ Hin eq_refl). }
    unfold unsubscribe, this1, on, off. cbn [fst snd listeners wrappers].
    rewrite lookup_insert_eq. fold (listeners_of event this).
    rewrite (set_add_new _ _ Hout), off_plain_filter, filter_app.
    rewrite (filter_all _ _ Hnone). rewrite filter_cons. simpl.
    destruct (decide (f <> f)) as [Hne|_]; [congruence|].
    rewrite filter_nil, app_nil_r.
    replace (store_set event (listeners_of event this)
               (<[event := listeners_of event this ++ [Plain f]]> (listeners this)))
      with (store_set event (listeners_of event this) (listeners this)).
    + apply store_listeners_of. exact Hwf.
    + unfold store_set. destruct (decide (listeners_of event this = [])).
      * symmetry. apply delete_insert_eq.
      * symmetry. apply insert_insert_eq.
Qed.

(** X24: [off(event, fn)] removes every registration of a caller's
    function for the event, the one made with [on] and all those made
    with [once] that have not run yet, and leaves the other listeners
    of the event in their order and the listeners of other events as
    they are; a second [off] changes nothing, and neither does [off]
    for a function that has no registration for the event. *)
Theorem off_removes_every_registration (event : string) (f : fn) (this : EventEmitter) :
  built this ->
  let this1 := off event (Plain f) this in
  listeners_of event this1 = filter (fun l => target l <> f) (listeners_of event this) /\
  Forall (fun l => target l <> f) (listeners_of event this1) /\
  (forall ev, ev <> event -> listeners_of ev this1 = listeners_of ev this) /\
  (listenerCount event this1 <= listenerCount event this)%nat /\
  (Forall (fun l => target l <> f) (listeners_of event this) -> this1 = this) /\
  off event (Plain f) this1 = this1.
Proof.
  intros Hb this1. pose proof (built_wf this Hb) as Hwf.
  assert (Hl : listeners_of event this1 =
               filter (fun l => target l <> f) (listeners_of event this)).
  { unfold this1. rewrite listeners_of_off. apply off_plain_filter. }
  assert (Hall : Forall (fun l => target l <> f) (listeners_of event this1)).
  { rewrite Hl. apply Forall_forall. intros l Hin.
    apply list_elem_of_filter in Hin. tauto. }
  assert (Hid : forall e, wf e ->
            Forall (fun l => target l <> f) (listeners_of event e) ->
            off event (Plain f) e = e).
  { intros e Hwfe Hnone. unfold off.
    destruct (listeners e !! event) as [s|] eqn:Hs; [|reflexivity].
    assert (Hse : listeners_of event e = s) by (unfold listeners_of; rewrite Hs; reflexivity).
    rewrite off_plain_filter. rewrite <- Hse, (filter_all _ _ Hnone).
    apply store_listeners_of. exact Hwfe. }
  split; [exact Hl|]. split; [exact Hall|]. split; [|split; [|split]].
  - intros ev Hne. unfold this1. apply listeners_of_off_ne. congruence.
  - rewrite !listenerCount_length, Hl. apply length_filter.
  - intros Hnone. apply Hid; assumption.
  - apply Hid; [|exact Hall]. unfold this1. apply wf_off. exact Hwf.
Qed.

(** X25: [removeAllListeners()] without an event, and also with the
    empty string as the event, takes off every listener of every
    event: all listener counts are zero and an [emit] that follows,
    such as the [emit('destroyed')] with which [LipSyncEngine.destroy]
    ends, calls nothing.  With any other event name it takes off the
    listeners of that event only. *)
Theorem removeAllListeners_silences (this : EventEmitter) :
  (forall event, event = None \/ event = Some ""%string ->
     let this1 := removeAllListeners event this in
     forall ev args,
       listenerCount ev this1 = 0 /\ emit ev args this1 = ([], this1)) /\
  (forall event, event <> ""%string ->
     let this1 := removeAllListeners (Some event) this in
     listenerCount event this1 = 0 /\
     forall ev, ev <> event -> listeners_of ev this1 = listeners_of ev this).
Proof.
  split.
  - intros event Hev this1 ev args.
    assert (H1 : this1 = mkEventEmitter ∅ (wrappers this)).
    { unfold this1. destruct Hev as [-> | ->]; reflexivity. }
    rewrite H1. unfold listenerCount, emit, invoke_all. cbn [listeners fst snd].
    rewrite !lookup_empty. split; reflexivity.
  - intros event Hne this1. unfold this1, removeAllListeners.
    destruct (decide (event = ""%string)) as [?|_]; [contradiction|].
    unfold listenerCount, listeners_of. cbn [listeners].
    rewrite lookup_delete_eq. split; [reflexivity|].
    intros ev Hev. rewrite lookup_delete_ne by congruence. reflexivity.
Qed.

End EventEmitter.

(** ** CanvasRenderer ([src/utils/EventEmitter.js]) *)

(** The renderer draws one cell of a sprite sheet.  Sizes, offsets, the
    scale and the frame indices of [visemeMap] are taken to be whole
    numbers, and the frame width is not zero; what the renderer does to
    the canvas is the list of the calls it makes on the 2D context. *)

Module Canvas.

Section CanvasRenderer.

Context {num : Type} `{Number num}.

Local Open Scope Z_scope.

Record CanvasOptions := mkCanvasOptions {
  frameWidth : Z;
  frameHeight : Z;
  visemeMap : gmap string Z;
  columns : option Z;
  offsetX : Z;
  offsetY : Z;
  scale : Z;
  clearBeforeRender : bool
}.

(** The sprite sheet, an image: only its [naturalWidth] is read. *)
Record Image := mkImage {
  naturalWidth : Z
}.

Record CanvasRenderer := mkCanvasRenderer {
  canvas_width : Z;
  canvas_height : Z;
  canvas_opts : CanvasOptions;
  spriteSheet : option Image;
  _ready : bool
}.

(** The calls on the 2D context. *)
Inductive ContextCall : Type :=
| clearRect (x y w h : Z)
| drawImage (image : Image) (sx sy sw sh dx dy dw dh : Z).

(** [this.opts.columns || 1] *)
Definition columns_or_1 (o : CanvasOptions) : Z :=
  match columns o with
  | Some c => if c =? 0 then 1 else c
  | None => 1
  end.

(** [_loadSpriteSheet]: the renderer once the image has loaded, with
    the number of columns worked out from the width of the image when
    the options give none. *)
Definition loaded (image : Image) (this : CanvasRenderer) : CanvasRenderer :=
  let o := canvas_opts this in
  let cols :=
    match columns o with
    | Some c => if c =? 0 then Some (naturalWidth image / frameWidth o) else Some c
    | None => Some (naturalWidth image / frameWidth o)
    end in
  mkCanvasRenderer (canvas_width this) (canvas_height this)
    (mkCanvasOptions (frameWidth o) (frameHeight o) (visemeMap o) cols
       (offsetX o) (offsetY o) (scale o) (clearBeforeRender o))
    (Some image) true.

(** [this.opts.visemeMap[frame.viseme] ?? this.opts.visemeMap.sil ?? 0] *)
Definition frameIndex (o : CanvasOptions) (frame : VisemeFrame (num := num)) : Z :=
  match visemeMap o !! viseme frame with
  | Some i => i
  | None => default 0 (visemeMap o !! "sil"%string)
  end.

(** [render(frame)]: the calls made on the context. *)
Definition render (this : CanvasRenderer) (frame : VisemeFrame (num := num)) : list ContextCall :=
  match _ready this, spriteSheet this with
  | true, Some image =>
      let o := canvas_opts this in
      let frameIndex := frameIndex o frame in
      let cols := columns_or_1 o in
      let row := frameIndex / cols in
      let col := Z.rem frameIndex cols in
      let sx := col * frameWidth o in
      let sy := row * frameHeight o in
      let dw := frameWidth o * scale o in
      let dh := frameHeight o * scale o in
      (if clearBeforeRender o
       then [clearRect 0 0 (canvas_width this) (canvas_height this)] else []) ++
      [drawImage image sx sy (frameWidth o) (frameHeight o)
         (offsetX o) (offsetY o) dw dh]
  | _, _ => []
  end.

(** [destroy()] *)
Definition destroy (this : CanvasRenderer) : CanvasRenderer :=
  mkCanvasRenderer (canvas_width this) (canvas_height this) (canvas_opts this) None false.

(** The source rectangle of the [drawImage] call of a [render]. *)
Definition drawn_cell (calls : list ContextCall) : option (Z * Z * Z * Z) :=
  match last calls with
  | Some (drawImage _ sx sy sw sh _ _ _ _) => Some (sx, sy, sw, sh)
  | _ => None
  end.

(** X26: a renderer that is not ready, one that has no sprite sheet
    and one that has been destroyed draw nothing, whatever the frame.
    A ready one makes one [drawImage] call, after a [clearRect] of the
    whole canvas when [clearBeforeRender] is set, for the cell of the
    frame's viseme: with [cols] columns and a frame index [i >= 0], the
    cell in column [i mod cols] and row [i / cols], from which [i] can
    be read back, so that different indices are drawn from different
    cells; the index is the entry of [visemeMap] for the viseme, that
    of ['sil'] when the viseme has none, and 0 when ['sil'] has none
    either. *)
Theorem render_draws_viseme_cell (this : CanvasRenderer)
    (frame : VisemeFrame (num := num)) :
  let o := canvas_opts this in
  let i := frameIndex o frame in
  let cols := columns_or_1 o in
  (_ready this = false \/ spriteSheet this = None -> render this frame = []) /\
  render (destroy this) frame = [] /\
  (viseme frame ∈ EXTENDED_VISEME_KEYS ->
     (forall k, visemeMap o !! viseme frame = Some k -> i = k) /\
     (visemeMap o !! viseme frame = None ->
        i = default 0 (visemeMap o !! "sil"%string))) /\
  (forall image,
     viseme frame ∈ EXTENDED_VISEME_KEYS ->
     _ready this = true -> spriteSheet this = Some image ->
     0 <= i -> 0 < cols -> 0 < frameWidth o -> 0 < frameHeight o ->
     render this frame =
       (if clearBeforeRender o
        then [clearRect 0 0 (canvas_width this) (canvas_height this)] else []) ++
       [drawImage image ((i mod cols) * frameWidth o) ((i / cols) * frameHeight o)
          (frameWidth o) (frameHeight o)
          (offsetX o) (offsetY o) (frameWidth o * scale o) (frameHeight o * scale o)] /\
     exists sx sy,
       drawn_cell (render this frame) = Some (sx, sy, frameWidth o, frameHeight o) /\
       0 <= sx <= (cols - 1) * frameWidth o /\ 0 <= sy /\
       i = (sy / frameHeight o) * cols + sx / frameWidth o).
Proof.
  intros o i cols.
  split; [|split; [reflexivity|split]].
  - intros [Hready|Hsheet]; unfold render.
    + rewrite Hready. reflexivity.
    + rewrite Hsheet. destruct (_ready this); reflexivity.
  - intros _. split.
    + intros k Hk. unfold i, frameIndex. fold o. rewrite Hk. reflexivity.
    + intros Hnone. unfold i, frameIndex. fold o. rewrite Hnone. reflexivity.
  - intros image _ Hready Hsheet Hi Hcols Hfw Hfh.
    assert (Hrender : render this frame =
      (if clearBeforeRender o
       then [clearRect 0 0 (canvas_width this) (canvas_height this)] else []) ++
      [drawImage image ((i mod cols) * frameWidth o) ((i / cols) * frameHeight o)
         (frameWidth o) (frameHeight o)
         (offsetX o) (offsetY o) (frameWidth o * scale o) (frameHeight o * scale o)]).
    { unfold render. rewrite Hready, Hsheet. fold o. fold i. fold cols.
      rewrite Z.rem_mod_nonneg by lia. reflexivity. }
    split; [exact Hrender|].
    exists ((i mod cols) * frameWidth o), ((i / cols) * frameHeight o).
    pose proof (Z.mod_pos_bound i cols Hcols) as Hmod.
    assert (Hdiv : 0 <= i / cols) by (apply Z.div_pos; lia).
    split; [|split; [|split]].
    + rewrite Hrender. unfold drawn_cell. rewrite last_snoc. reflexivity.
    + nia.
    + nia.
    + rewrite !Z.div_mul by lia. rewrite (Z.div_mod i cols) at 1 by lia. lia.
Qed.

(** X27: when the options give no number of columns (or give 0), the
    renderer works it out as [floor(naturalWidth / frameWidth)] once
    the image has loaded; for a sheet that is at least one frame wide
    and a frame index [i >= 0], the cell that [render] then draws from
    lies within the width of the sheet. *)
Theorem render_cell_within_sheet (this : CanvasRenderer) (image : Image)
    (frame : VisemeFrame (num := num)) :
  viseme frame ∈ EXTENDED_VISEME_KEYS ->
  (columns (canvas_opts this) = None \/ columns (canvas_opts this) = Some 0) ->
  let o := canvas_opts this in
  0 < frameWidth o -> frameWidth o <= naturalWidth image ->
  0 <= frameIndex o frame ->
  columns (canvas_opts (loaded image this)) = Some (naturalWidth image / frameWidth o) /\
  exists sx sy,
    drawn_cell (render (loaded image this) frame) =
      Some (sx, sy, frameWidth o, frameHeight o) /\
    0 <= sx /\ sx + frameWidth o <= naturalWidth image.
Proof.
  intros _ Hcols o Hfw Hwide Hi.
  set (c := naturalWidth image / frameWidth o).
  assert (Hc : 0 < c) by (apply Z.div_str_pos; lia).
  assert (Hauto : columns (canvas_opts (loaded image this)) = Some c).
  { unfold loaded. cbn [canvas_opts columns].
    destruct Hcols as [-> | ->]; reflexivity. }
  split; [exact Hauto|].
  set (i := frameIndex o frame) in *.
  exists ((i mod c) * frameWidth o), ((i / c) * frameHeight o).
  assert (Hi' : frameIndex (canvas_opts (loaded image this)) frame = i) by reflexivity.
  assert (Hc1 : columns_or_1 (canvas_opts (loaded image this)) = c).
  { unfold columns_or_1. rewrite Hauto. destruct (Z.eqb_spec c 0); [lia | reflexivity]. }
  split; [|split].
  - unfold render. cbn [_ready spriteSheet loaded]. rewrite Hi', Hc1.
    unfold drawn_cell. rewrite last_snoc. cbn [canvas_opts frameWidth frameHeight].
    rewrite Z.rem_mod_nonneg by lia. reflexivity.
  - pose proof (Z.mod_pos_bound i c Hc). nia.
  - pose proof (Z.mod_pos_bound i c Hc) as Hmod.
    pose proof (Z.mul_div_le (naturalWidth image) (frameWidth o) Hfw) as Hle.
    fold c in Hle. nia.
Qed.

End CanvasRenderer.

End Canvas.

(** ** LipSyncEngine and its listeners ([src/core/LipSyncEngine.js]) *)

(** [LipSyncEngine] extends [EventEmitter].  Of the engine, the emitter
    and the flags that [stopAnalysis] and [destroy] set are modelled;
    the timers and the audio nodes, which these methods cancel,
    disconnect and drop (inside [try ... catch]), are left out. *)

Module Engine.

Section LipSyncEngine.

Context {fn arg : Type} `{EqDecision fn}.

Record LipSyncEngine := mkLipSyncEngine {
  emitter : EventEmitter (fn := fn);
  _initialized : bool;
  _analyzing : bool;
  _destroyed : bool
}.

(** [stopAnalysis()]: the calls of listeners it makes and the engine
    afterwards. *)
Definition stopAnalysis (this : LipSyncEngine) : list (Call (arg := arg)) * LipSyncEngine :=
  let '(calls, em) := emit "analysisStopped" [] (emitter this) in
  (calls, mkLipSyncEngine em (_initialized this) false (_destroyed this)).

(** [destroy()] *)
Definition destroy (this : LipSyncEngine) : list (Call (arg := arg)) * LipSyncEngine :=
  if _destroyed this then ([], this)
  else
    let this1 := mkLipSyncEngine (emitter this) (_initialized this) (_analyzing this) true in
    let '(calls1, this2) := stopAnalysis this1 in
    let em := removeAllListeners None (emitter this2) in
    let '(calls2, em') := emit "destroyed" [] em in
    ((calls1 ++ calls2)%list, mkLipSyncEngine em' false (_analyzing this2) (_destroyed this2)).

(** X28: [destroy()] removes all listeners before it emits
    ['destroyed'], so no listener is ever called for that event: the
    only calls that [destroy()] makes are those of the
    ['analysisStopped'] event of [stopAnalysis()].  Afterwards the
    engine is marked destroyed, no listener is registered for any
    event, and a second [destroy()] does nothing. *)
Theorem destroy_notifies_nobody (this : LipSyncEngine) :
  _destroyed this = false ->
  let '(calls, this') := destroy this in
  calls = fst (emit "analysisStopped" [] (emitter this)) /\
  _destroyed this' = true /\ _initialized this' = false /\ _analyzing this' = false /\
  (forall ev, listenerCount ev (emitter this') = 0%nat) /\
  (forall ev (args : list (value (arg := arg))), fst (emit ev args (emitter this')) = []) /\
  destroy this' = ([], this').
Proof.
  intros Hd. unfold destroy, stopAnalysis. rewrite Hd. cbn [emitter _initialized _analyzing _destroyed].
  destruct (emit "analysisStopped" [] (emitter this)) as [calls1 em1].
  cbn [emitter _initialized _analyzing _destroyed fst].
  unfold removeAllListeners, emit, invoke_all. cbn [listeners fst snd].
  rewrite !lookup_empty. cbn [fst snd listeners emitter _destroyed _initialized _analyzing].
  rewrite app_nil_r.
  split; [reflexivity|]. split; [reflexivity|]. split; [reflexivity|]. split; [reflexivity|].
  split; [|split].
  - intros ev. unfold listenerCount. cbn [listeners]. rewrite lookup_empty. reflexivity.
  - intros ev args. rewrite !lookup_empty. reflexivity.
  - reflexivity.
Qed.

End LipSyncEngine.

End Engine.

(** ** CSSClassRenderer ([src/unnamed/part_000]) *)

(** What the renderer does to its element is the list of the calls it
    makes on it.  [Math.round] is left open: nothing below depends on
    what it returns. *)

Module CSS.

Section CSSClassRenderer.

Context {num : Type} `{Number num}.

Variable Math_round : num -> num.

Local Open Scope string_scope.
Local Open Scope list_scope.

Record CSSOptions := mkCSSOptions {
  attribute : string;
  classPrefix : string;
  useSimpleVisemes : bool;
  intensityAttribute : string;
  setIntensity : bool;
  visemeClassMap : option (gmap string string)
}.

(** The defaults of the constructor. *)
Definition CSS_DEFAULTS : CSSOptions :=
  mkCSSOptions "data-viseme" "" false "data-intensity" true None.

Record CSSClassRenderer := mkCSSClassRenderer {
  css_opts : CSSOptions;
  _currentClass : option string;
  _currentViseme : option string
}.

Definition new_CSSClassRenderer (options : CSSOptions) : CSSClassRenderer :=
  mkCSSClassRenderer options None None.

(** The value of an attribute as it is passed: a string or a number. *)
Inductive AttrValue : Type :=
| Text (s : string)
| Number (x : num).

(** The calls on the element, on its [classList] and on its [style]. *)
Inductive ElementCall : Type :=
| setAttribute (name : string) (v : AttrValue)
| removeAttribute (name : string)
| classList_add (c : string)
| classList_remove (c : string)
| style_setProperty (name : string) (x : num).

(** A string is truthy unless it is empty, [null] is falsy. *)
Definition truthy (s : option string) : bool :=
  match s with
  | Some s => negb (String.eqb s "")
  | None => false
  end.

(** [mapped || `${this.opts.classPrefix}${viseme}`] for
    [mapped = this.opts.visemeClassMap?.[viseme]] *)
Definition class_of (o : CSSOptions) (viseme : string) : string :=
  let mapped :=
    match visemeClassMap o with
    | Some m => m !! viseme
    | None => None
    end in
  if truthy mapped then default "" mapped else classPrefix o +:+ viseme.

(** [useSimpleVisemes ? frame.simpleViseme : frame.viseme] *)
Definition selected (o : CSSOptions) (frame : VisemeFrame (num := num)) : string :=
  if useSimpleVisemes o then simpleViseme frame else viseme frame.

(** [render(frame)]: the calls made and the renderer afterwards. *)
Definition render (this : CSSClassRenderer) (frame : VisemeFrame (num := num))
    : list ElementCall * CSSClassRenderer :=
  let o := css_opts this in
  let viseme := selected o frame in
  let '(calls1, this1) :=
    if bool_decide (Some viseme <> _currentViseme this) then
      let calls := [setAttribute (attribute o) (Text viseme)] in
      let '(calls, currentClass) :=
        if truthy (Some (classPrefix o)) then
          let calls :=
            if truthy (_currentClass this)
            then calls ++ [classList_remove (default "" (_currentClass this))]
            else calls in
          let currentClass := class_of o viseme in
          (calls ++ [classList_add currentClass], Some currentClass)
        else (calls, _currentClass this) in
      (calls, mkCSSClassRenderer o currentClass (Some viseme))
    else ([], this) in
  let calls2 :=
    if setIntensity o then
      let level := Math_round (intensity frame * lit 100)%js in
      [setAttribute (intensityAttribute o) (Number level);
       style_setProperty "--lip-intensity" (intensity frame);
       style_setProperty "--lip-open" (open (shape frame));
       style_setProperty "--lip-width" (width (shape frame));
       style_setProperty "--lip-round" (round (shape frame))]
    else [] in
  (calls1 ++ calls2, this1).

(** [destroy()] *)
Definition destroy (this : CSSClassRenderer) : list ElementCall * CSSClassRenderer :=
  let o := css_opts this in
  ((if truthy (_currentClass this)
    then [classList_remove (default "" (_currentClass this))] else []) ++
   [removeAttribute (attribute o); removeAttribute (intensityAttribute o)],
   mkCSSClassRenderer o (_currentClass this) None).

(** The frames rendered one after the other: all the calls, and the
    renderer afterwards. *)
Definition render_all (frames : list (VisemeFrame (num := num))) (this : CSSClassRenderer)
    : list ElementCall * CSSClassRenderer :=
  foldl (fun st frame =>
           let '(calls, this1) := render (snd st) frame in
           (fst st ++ calls, this1))
        ([], this) frames.

(** *** The element *)

(** The class list of the element, a list of distinct tokens, after a
    call. *)
Definition classes_step (cl : list string) (c : ElementCall) : list string :=
  match c with
  | classList_add x => if decide (x ∈ cl) then cl else cl ++ [x]
  | classList_remove x => filter (fun y => y <> x) cl
  | _ => cl
  end.

Definition classes_after (calls : list ElementCall) (cl : list string) : list string :=
  foldl classes_step cl calls.

(** The attributes of the element after a call. *)
Definition attributes_step (attrs : gmap string AttrValue) (c : ElementCall)
    : gmap string AttrValue :=
  match c with
  | setAttribute name v => <[name := v]> attrs
  | removeAttribute name => delete name attrs
  | _ => attrs
  end.

Definition attributes_after (calls : list ElementCall) (attrs : gmap string AttrValue)
    : gmap string AttrValue :=
  foldl attributes_step attrs calls.

(** The calls that only report the intensity and the shape. *)
Definition reports_intensity (o : CSSOptions) (c : ElementCall) : Prop :=
  match c with
  | setAttribute name (Number _) => name = intensityAttribute o
  | style_setProperty _ _ => True
  | _ => False
  end.

Lemma classes_after_app calls calls' cl :
  classes_after (calls ++ calls') cl = classes_after calls' (classes_after calls cl).
Proof. unfold classes_after. apply foldl_app. Qed.

Lemma attributes_after_app calls calls' attrs :
  attributes_after (calls ++ calls') attrs =
  attributes_after calls' (attributes_after calls attrs).
Proof. unfold attributes_after. apply foldl_app. Qed.

Lemma render_all_snoc frames frame this :
  render_all (frames ++ [frame]) this =
  (fst (render_all frames this) ++ fst (render (snd (render_all frames this)) frame),
   snd (render (snd (render_all frames this)) frame)).
Proof.
  unfold render_all. rewrite foldl_app. cbn [foldl].
  destruct (render _ frame) as [calls this1]. reflexivity.
Qed.

Lemma render_opts this frame : css_opts (snd (render this frame)) = css_opts this.
Proof.
  unfold render. case_bool_decide; [|reflexivity].
  destruct (truthy (Some _)); reflexivity.
Qed.

(** The intensity calls of a [render] change neither the class list
    nor, when the two attribute names differ, the viseme attribute. *)
Lemma intensity_calls o (frame : VisemeFrame (num := num)) cl attrs :
  let calls2 :=
    if setIntensity o then
      [setAttribute (intensityAttribute o) (Number (Math_round (intensity frame * lit 100)%js));
       style_setProperty "--lip-intensity" (intensity frame);
       style_setProperty "--lip-open" (open (shape frame));
       style_setProperty "--lip-width" (width (shape frame));
       style_setProperty "--lip-round" (round (shape frame))]
    else [] in
  classes_after calls2 cl = cl /\
  (attribute o <> intensityAttribute o ->
     attributes_after calls2 attrs !! attribute o = attrs !! attribute o) /\
  Forall (reports_intensity o) calls2.
Proof.
  intros calls2. subst calls2. destruct (setIntensity o).
  - split; [reflexivity|]. split.
    + intros Hne. cbn. rewrite lookup_insert_ne by congruence. reflexivity.
    + repeat constructor.
  - split; [reflexivity|]. split; [reflexivity | constructor].
Qed.

Lemma truthy_class_of o v :
  truthy (Some (classPrefix o)) = true -> truthy (Some (class_of o v)) = true.
Proof.
  intros Hp. unfold class_of.
  destruct (truthy (match visemeClassMap o with Some m => m !! v | None => None end)) eqn:Hm.
  - destruct (match visemeClassMap o with Some m => m !! v | None => None end) as [c|];
      [exact Hm | discriminate].
  - simpl in *. destruct (classPrefix o) as [|a p]; [discriminate | reflexivity].
Qed.

(** The state of a renderer and of its element, on which every class
    was put by the renderer: nothing has been rendered yet, or the
    element carries the class and the attribute of the viseme rendered
    last. *)
Definition in_step (o : CSSOptions) (this : CSSClassRenderer)
    (cl : list string) (attrs : gmap string AttrValue) : Prop :=
  css_opts this = o /\
  match _currentViseme this with
  | None => _currentClass this = None /\ cl = []
  | Some v =>
      attrs !! attribute o = Some (Text v) /\
      (truthy (Some (classPrefix o)) = true ->
         _currentClass this = Some (class_of o v) /\ cl = [class_of o v]) /\
      (truthy (Some (classPrefix o)) = false -> _currentClass this = None /\ cl = [])
  end.

Lemma render_in_step o this frame cl attrs :
  attribute o <> intensityAttribute o ->
  in_step o this cl attrs ->
  let '(calls, this') := render this frame in
  in_step o this' (classes_after calls cl) (attributes_after calls attrs) /\
  _currentViseme this' = Some (selected o frame) /\
  (_currentViseme this = Some (selected o frame) -> Forall (reports_intensity o) calls).
Proof.
  intros Hattr [Ho Hst]. unfold render. rewrite Ho.
  set (v := selected o frame).
  pose proof (intensity_calls o frame) as Hint. cbv zeta in Hint.
  set (calls2 := if setIntensity o then _ else []) in *.
  case_bool_decide as Hchange.
  - (* the viseme changes *)
    destruct (truthy (Some (classPrefix o))) eqn:Hp.
    + pose proof (truthy_class_of o v Hp) as Hc.
      assert (Hcl : classes_after
                (if truthy (_currentClass this)
                 then [setAttribute (attribute o) (Text v)] ++
                      [classList_remove (default "" (_currentClass this))]
                 else [setAttribute (attribute o) (Text v)]) cl = []).
      { destruct (_currentViseme this) as [w|].
        - destruct Hst as (_ & Hon & _). destruct (Hon eq_refl) as [-> ->].
          rewrite (truthy_class_of o w Hp). cbn.
          destruct (decide (class_of o w <> class_of o w)); [congruence | reflexivity].
        - destruct Hst as [-> ->]. reflexivity. }
      set (calls0 := if truthy (_currentClass this) then _ else _) in *.
      rewrite classes_after_app, classes_after_app, Hcl.
      rewrite attributes_after_app.
      destruct (Hint (classes_after [classList_add (class_of o v)] [])
                  (attributes_after (calls0 ++ [classList_add (class_of o v)]) attrs))
        as (-> & Hat & _).
      split; [|split; [reflexivity | intros Hsame; rewrite Hsame in Hchange; congruence]].
      split; [reflexivity|]. cbn [_currentViseme _currentClass].
      split; [|split; [intros _; split; reflexivity | intros; congruence]].
      rewrite (Hat Hattr), attributes_after_app. cbn.
      unfold calls0. destruct (truthy (_currentClass this)); cbn;
        apply lookup_insert_eq.
    + rewrite classes_after_app, attributes_after_app.
      destruct (Hint (classes_after [setAttribute (attribute o) (Text v)] cl)
                  (attributes_after [setAttribute (attribute o) (Text v)] attrs))
        as (-> & Hat & _).
      split; [|split; [reflexivity | intros Hsame; rewrite Hsame in Hchange; congruence]].
      split; [reflexivity|]. cbn [_currentViseme _currentClass].
      split; [rewrite (Hat Hattr); cbn; apply lookup_insert_eq|].
      split; [intros; congruence|]. intros _. cbn.
      destruct (_currentViseme this) as [w|].
      * destruct Hst as (_ & _ & Hoff). exact (Hoff eq_refl).
      * exact Hst.
  - (* the same viseme again *)
    assert (Hv : _currentViseme this = Some v).
    { destruct (decide (Some v = _currentViseme this)) as [<-|Hne]; [reflexivity|].
      contradiction. }
    rewrite app_nil_l.
    destruct (Hint cl attrs) as (-> & Hat & Hall).
    split; [|split; [exact Hv | intros _; exact Hall]].
    split; [exact Ho|]. rewrite Hv in Hst |- *.
    destruct Hst as (Ha & Hon & Hoff).
    split; [rewrite (Hat Hattr); exact Ha|]. split; assumption.
Qed.

(** A new renderer and an element without classes stay in step. *)
Lemma render_all_in_step (options : CSSOptions) (fs : list (VisemeFrame (num := num))) :
  attribute options <> intensityAttribute options ->
  let st := render_all fs (new_CSSClassRenderer options) in
  in_step options (snd st) (classes_after (fst st) []) (attributes_after (fst st) ∅) /\
  (forall fs' fr, fs = fs' ++ [fr] -> _currentViseme (snd st) = Some (selected options fr)).
Proof.
  intros Hattr. induction fs as [|fr fs IH] using rev_ind.
  - split; [|intros fs' fr' Hnil; destruct fs'; discriminate].
    split; [reflexivity|]. split; reflexivity.
  - cbv zeta in IH |- *. destruct IH as [IH _]. rewrite render_all_snoc.
    pose proof (render_in_step options _ fr _ _ Hattr IH) as Hstep.
    destruct (render (snd (render_all fs (new_CSSClassRenderer options))) fr)
      as [calls1 this1].
    destruct Hstep as (Hin & Hcur & _). cbn [fst snd].
    rewrite classes_after_app, attributes_after_app.
    split; [exact Hin|].
    intros fs' fr' Heq. apply app_inj_tail in Heq as [_ <-]. exact Hcur.
Qed.

(** X29: a new renderer, for options whose two attribute names differ
    and an element that has no class yet, keeps the element in step
    with the frames it renders: after the frames, the viseme attribute
    of the element is the viseme of the last frame (the simple one when
    [useSimpleVisemes] is set) and, when [classPrefix] is not empty,
    the element carries exactly one class, that of this viseme, the
    class of the viseme rendered before having been removed; a frame
    with the same viseme as the frame before it only reports intensity
    and shape, without touching the class list or the viseme
    attribute. *)
Theorem render_keeps_element_in_step (options : CSSOptions)
    (frames : list (VisemeFrame (num := num))) (frame : VisemeFrame (num := num)) :
  attribute options <> intensityAttribute options ->
  Forall (fun fr => viseme fr ∈ EXTENDED_VISEME_KEYS /\ simpleViseme fr ∈ SIMPLE_VISEME_KEYS)
         (frames ++ [frame]) ->
  let '(calls, this) := render_all (frames ++ [frame]) (new_CSSClassRenderer options) in
  let v := selected options frame in
  _currentViseme this = Some v /\
  attributes_after calls ∅ !! attribute options = Some (Text v) /\
  (classPrefix options <> "" ->
     classes_after calls [] = [class_of options v] /\
     _currentClass this = Some (class_of options v)) /\
  (classPrefix options = "" -> classes_after calls [] = []) /\
  Forall (reports_intensity options) (fst (render this frame)) /\
  snd (render this frame) = this.
Proof.
  intros Hattr _.
  destruct (render_all_in_step options (frames ++ [frame]) Hattr) as [Hin Hlast].
  specialize (Hlast frames frame eq_refl).
  pose proof (render_in_step options (snd (render_all (frames ++ [frame])
                (new_CSSClassRenderer options))) frame _ _ Hattr Hin) as Hagain.
  destruct (render_all (frames ++ [frame]) (new_CSSClassRenderer options)) as [calls this].
  cbn [fst snd] in *. cbv zeta.
  destruct Hin as [Ho Hst]. rewrite Hlast in Hst. destruct Hst as (Ha & Hon & Hoff).
  assert (Hp : classPrefix options <> "" <-> truthy (Some (classPrefix options)) = true).
  { simpl. destruct (String.eqb_spec (classPrefix options) ""); split;
      intros; congruence || discriminate || reflexivity. }
  split; [exact Hlast|]. split; [exact Ha|]. split; [|split; [|split]].
  - intros Hne. destruct (Hon (proj1 Hp Hne)) as [Hc Hcl]. split; assumption.
  - intros He. apply Hoff. rewrite He. reflexivity.
  - destruct (render this frame) as [calls' this'].
    destruct Hagain as (_ & _ & Hall). exact (Hall Hlast).
  - unfold render. rewrite Ho.
    rewrite bool_decide_eq_false_2 by (rewrite Hlast; auto). reflexivity.
Qed.

(** X30: [destroy()] takes the renderer's class and both attributes
    off the element, whatever frames were rendered before (for options
    whose two attribute names differ and an element that had no class),
    and forgets the viseme but not the class: [_currentClass] is left
    as it was. *)
Theorem destroy_cleans_element (options : CSSOptions)
    (frames : list (VisemeFrame (num := num))) :
  attribute options <> intensityAttribute options ->
  Forall (fun fr => viseme fr ∈ EXTENDED_VISEME_KEYS /\ simpleViseme fr ∈ SIMPLE_VISEME_KEYS)
         frames ->
  let '(calls, this) := render_all frames (new_CSSClassRenderer options) in
  let '(calls', this') := destroy this in
  classes_after (calls ++ calls') [] = [] /\
  attributes_after (calls ++ calls') ∅ !! attribute options = None /\
  attributes_after (calls ++ calls') ∅ !! intensityAttribute options = None /\
  _currentViseme this' = None /\
  _currentClass this' = _currentClass this.
Proof.
  intros Hattr _.
  destruct (render_all_in_step options frames Hattr) as [[Ho Hst] _].
  destruct (render_all frames (new_CSSClassRenderer options)) as [calls this].
  cbn [fst snd] in *. unfold destroy. rewrite Ho.
  rewrite classes_after_app, !attributes_after_app.
  assert (Hcl : classes_after
            (if truthy (_currentClass this)
             then [classList_remove (default "" (_currentClass this))] else [])
            (classes_after calls []) = []).
  { destruct (_currentViseme this) as [v|].
    - destruct Hst as (_ & Hon & Hoff).
      destruct (truthy (Some (classPrefix options))) eqn:Hp.
      + destruct (Hon eq_refl) as [-> ->]. rewrite (truthy_class_of options v Hp). cbn.
        destruct (decide (class_of options v <> class_of options v));
          [congruence | reflexivity].
      + destruct (Hoff eq_refl) as [-> ->]. reflexivity.
    - destruct Hst as [-> ->]. reflexivity. }
  rewrite classes_after_app, Hcl.
  generalize (attributes_after
                (if truthy (_currentClass this)
                 then [classList_remove (default "" (_currentClass this))] else [])
                (attributes_after calls ∅)).
  intros attrs. split; [reflexivity|]. cbn.
  split; [|split; [apply lookup_delete_eq | split; reflexivity]].
  rewrite lookup_delete_ne by congruence. apply lookup_delete_eq.
Qed.

End CSSClassRenderer.

End CSS.

(** ** The further properties on concrete inputs *)

Module Cases.

Import Scenarios.

Local Open Scope string_scope.

(** X12 for the transition from ['aa'] to ['O']. *)
Lemma transition_weight_range_witness :
  "aa" ∈ EXTENDED_VISEME_KEYS /\ "O" ∈ EXTENDED_VISEME_KEYS /\
  unit_float (getTransitionWeight (num := float) "aa" "O") /\
  (0.2 <= getTransitionWeight (num := Q) "aa" "O" <= 0.6)%Q.
Proof.
  assert (Hf : "aa" ∈ EXTENDED_VISEME_KEYS) by by_decide.
  assert (Ht : "O" ∈ EXTENDED_VISEME_KEYS) by by_decide.
  split; [exact Hf|]. split; [exact Ht|].
  destruct (transition_weight_range "aa" "O" Hf Ht) as (_ & Hd & He).
  split; [exact (proj2 (proj2 Hd)) | exact (proj1 He)].
Defined.

(** X13 half way from ['sil'] to ['aa'] and far beyond ['aa']. *)
Lemma interpolateShapes_clamps_witness :
  "sil" ∈ EXTENDED_VISEME_KEYS /\ "aa" ∈ EXTENDED_VISEME_KEYS /\
  unit_shape (interpolateShapes "sil" "aa" (1 # 2)) /\
  unit_shape (interpolateShapes "sil" "aa" 7%Q).
Proof.
  assert (Hf : "sil" ∈ EXTENDED_VISEME_KEYS) by by_decide.
  assert (Ht : "aa" ∈ EXTENDED_VISEME_KEYS) by by_decide.
  split; [exact Hf|]. split; [exact Ht|]. split.
  - destruct (interpolateShapes_clamps "sil" "aa" (1 # 2) Hf Ht) as (a & b & _ & _ & Hu & _).
    exact Hu.
  - destruct (interpolateShapes_clamps "sil" "aa" 7%Q Hf Ht) as (a & b & _ & _ & Hu & _).
    exact Hu.
Defined.

(** X16 on an analyzer that has analysed a loud frame. *)
Lemma reset_forgets_history_witness :
  let used := snd (analyze_f fresh hiss_frame) in
  reachable (num := float) smoothValue_spec clamp_spec DEFAULTS used /\
  used <> new_FrequencyAnalyzer DEFAULTS /\
  reset used = new_FrequencyAnalyzer DEFAULTS.
Proof.
  intros used.
  assert (Hr : reachable (num := float) smoothValue_spec clamp_spec DEFAULTS used)
    by (repeat constructor).
  split; [exact Hr|]. split.
  - intros Heq. apply (f_equal _frameCount) in Heq. vm_compute in Heq. discriminate.
  - exact (proj1 (proj2 (reset_forgets_history smoothValue_spec clamp_spec DEFAULTS used [] Hr))).
Defined.

(** X18 with [holdFrames = 2]: ['aa'] proposed twice. *)
Lemma persistent_proposal_is_adopted_witness :
  let ps := [proposal "aa"; proposal "aa"] in
  (0 <= _holdCounter (num := float) fresh)%Z /\
  Forall (fun p => p_viseme p = "aa") ps /\
  (0 < length ps)%nat /\
  (holdFrames (opts (num := float) fresh) <= Z.of_nat (length ps))%Z /\
  _currentViseme (hold_run_f ps fresh) = "aa".
Proof.
  intros ps.
  assert (H0 : (0 <= _holdCounter (num := float) fresh)%Z) by (vm_compute; congruence).
  assert (Hall : Forall (fun p => p_viseme p = "aa") ps) by (repeat constructor).
  assert (Hlen : (0 < length ps)%nat) by (simpl; lia).
  assert (Hhf : (holdFrames (opts (num := float) fresh) <= Z.of_nat (length ps))%Z)
    by (vm_compute; congruence).
  split; [exact H0|]. split; [exact Hall|]. split; [exact Hlen|]. split; [exact Hhf|].
  exact (proj1 (persistent_proposal_is_adopted smoothValue_spec fresh ps "aa" H0 Hall Hlen Hhf)).
Defined.


(** X20 on the first two frames of a fresh analyzer that hears a
    hiss, in double-precision arithmetic: the hold-off keeps ['sil']
    with confidence 0.5, then the label switches to ['SS'] with the
    classifier's confidence, the sibilant score, which is within
    [[0, 1]]; and the bound on the first frame in exact arithmetic. *)
Lemma frame_confidence_unit_witness :
  let after1 := snd (analyze_f fresh hiss_frame) in
  let bands2 := _smoothedBands (smooth smoothValue_spec after1 hiss_frame) in
  (viseme (fst (analyze_f fresh hiss_frame)) = "sil" /\
   confidence (fst (analyze_f fresh hiss_frame)) = 0.5%float) /\
  (viseme (fst (analyze_f after1 hiss_frame)) = "SS" /\
   confidence (fst (analyze_f after1 hiss_frame)) = sibilantScore bands2) /\
  (nonneg_bands bands2 /\
   unit_float (confidence (fst (analyze_f after1 hiss_frame)))) /\
  (valid_bands (_smoothedBands (smooth smoothValue_spec (num := Q) fresh hiss_frame)) /\
   (0 <= confidence (fst (analyze_q fresh hiss_frame)) <= 1)%Q).
Proof.
  intros after1 bands2.
  destruct frame_confidence_unit as (Hcases & Hdouble & Hunit).
  split; [|split; [|split]].
  - destruct (Hcases float _ smoothValue_spec clamp_spec fresh hiss_frame)
      as (_ & Hhold & _).
    apply Hhold.
    + vm_compute. reflexivity.
    + vm_compute. discriminate.
    + vm_compute. reflexivity.
  - destruct (Hcases float _ smoothValue_spec clamp_spec after1 hiss_frame)
      as (_ & _ & Hswitch & _).
    destruct Hswitch as [Hv Hc].
    + vm_compute. reflexivity.
    + vm_compute. discriminate.
    + vm_compute. discriminate.
    + split; [rewrite Hv | rewrite Hc]; vm_compute; reflexivity.
  - assert (Hn : nonneg_bands bands2) by (repeat split; vm_compute; reflexivity).
    split; [exact Hn|].
    exact (Hdouble smoothValue_spec clamp_spec after1 hiss_frame Hn).
  - assert (Hv : valid_bands
                   (_smoothedBands (smooth smoothValue_spec (num := Q) fresh hiss_frame)))
      by (cbv; intuition discriminate).
    split; [exact Hv|].
    exact (Hunit smoothValue_spec clamp_spec fresh hiss_frame Hv).
Defined.

(** *** An emitter *)

(** Listeners named by strings; the arguments of events are numbers. *)
Definition emitter0 : EventEmitter (fn := string) := new_EventEmitter.

(** After [on('viseme', draw)]. *)
Definition emitter1 : EventEmitter (fn := string) :=
  snd (on "viseme" (Plain "draw") emitter0).

(** After [once('viseme', log)] and [on('*', spy)] as well. *)
Definition emitter2 : EventEmitter (fn := string) :=
  snd (on "*" (Plain "spy") (snd (once "viseme" "log" emitter1))).

Lemma emitter1_built : built (arg := Z) emitter1.
Proof. repeat constructor. Defined.

Lemma emitter2_built : built (arg := Z) emitter2.
Proof. repeat constructor. Defined.

(** X21: the calls of [emit('viseme', 1)]. *)
Lemma emit_calls_in_order_witness :
  built (arg := Z) emitter2 /\
  fst (emit "viseme" [Val 1%Z] emitter2) =
    [("draw", [Val 1%Z]); ("log", [Val 1%Z]); ("spy", [Str "viseme"; Val 1%Z])] /\
  listeners_of "viseme" (snd (emit "viseme" [Val 1%Z] emitter2)) = [Plain "draw"].
Proof.
  split; [exact emitter2_built|].
  pose proof (emit_calls_in_order "viseme" [Val 1%Z] emitter2 emitter2_built) as H.
  cbv zeta in H. destruct (emit "viseme" [Val 1%Z] emitter2) as [calls this'].
  destruct H as (Hcalls & _ & Hev & _).
  split; [exact (Hcalls ltac:(discriminate)) | exact Hev].
Defined.

(** X22: [once('viseme', log)] on the emitter with one listener. *)
Lemma once_runs_once_witness :
  built (arg := Z) emitter1 /\
  listenerCount "viseme" (snd (once "viseme" "log" emitter1)) = 2%nat /\
  listeners_of "viseme"
    (snd (emit "viseme" [Val 1%Z] (snd (once "viseme" "log" emitter1)))) = [Plain "draw"].
Proof.
  split; [exact emitter1_built|].
  destruct (once_runs_once "viseme" "log" [Val 1%Z] emitter1 emitter1_built)
    as (_ & Hcount & _ & Hafter & _).
  split; [exact Hcount | exact Hafter].
Defined.

(** X23: a second [on('viseme', draw)]. *)
Lemma on_registers_once_witness :
  built (arg := Z) emitter0 /\
  snd (on "viseme" (Plain "draw") emitter1) = emitter1 /\
  fst (on "viseme" (Plain "draw") emitter0) emitter1 = emitter0.
Proof.
  assert (Hb : built (arg := Z) emitter0) by constructor.
  split; [exact Hb|].
  destruct (on_registers_once "viseme" "draw" emitter0 Hb) as (Htwice & _ & _ & _ & Hundo).
  split; [exact Htwice|]. apply Hundo. constructor.
Defined.

(** X24: [off('viseme', draw)] after [on] and [once] of the same
    function. *)
Lemma off_removes_every_registration_witness :
  let this := snd (once "viseme" "draw" emitter1) in
  built (arg := Z) this /\
  listenerCount "viseme" this = 2%nat /\
  listeners_of "viseme" (off "viseme" (Plain "draw") this) = [].
Proof.
  intros this.
  assert (Hb : built (arg := Z) this) by (repeat constructor).
  split; [exact Hb|]. split; [reflexivity|].
  exact (proj1 (off_removes_every_registration "viseme" "draw" this Hb)).
Defined.

(** X28: an engine with a listener for ['destroyed']. *)
Lemma destroy_notifies_nobody_witness :
  let engine := Engine.mkLipSyncEngine
                  (snd (on "destroyed" (Plain "bye") emitter0)) true false false in
  Engine._destroyed engine = false /\
  listenerCount "destroyed" (Engine.emitter engine) = 1%nat /\
  fst (Engine.destroy (arg := Z) engine) = [].
Proof.
  intros engine.
  assert (Hd : Engine._destroyed engine = false) by reflexivity.
  split; [exact Hd|]. split; [reflexivity|].
  pose proof (Engine.destroy_notifies_nobody (arg := Z) engine Hd) as H.
  destruct (Engine.destroy engine) as [calls engine']. destruct H as (Hcalls & _).
  exact Hcalls.
Defined.

(** *** Renderers *)

(** The frames of a loud and of a silent cycle. *)
Definition hiss : VisemeFrame (num := float) := fst (analyze_f fresh hiss_frame).
Definition vowel : VisemeFrame (num := float) :=
  mkVisemeFrame "aa" "D" (lit 0.8) (lit 0.7) (lit 0.3) zero_bands
    (mkShape (lit 0.9) (lit 0.6) (lit 0)) (mkTransition "sil" "aa" (lit 1)) 7.

(** A sheet of 512 by 256 pixels with cells of 128 by 128. *)
Definition sheet : Canvas.Image := Canvas.mkImage 512.

Definition canvas_options (cols : option Z) : Canvas.CanvasOptions :=
  Canvas.mkCanvasOptions 128 128 (list_to_map [("sil", 0%Z); ("aa", 5%Z)]) cols 0 0 1 true.

(** X26: ['aa'] has index 5, drawn from column 1 of row 1; before the
    sheet has loaded nothing is drawn. *)
Lemma render_draws_viseme_cell_witness :
  let this := Canvas.mkCanvasRenderer 300 150 (canvas_options (Some 4%Z)) (Some sheet) true in
  let loading := Canvas.mkCanvasRenderer 300 150 (canvas_options (Some 4%Z)) None false in
  viseme vowel ∈ EXTENDED_VISEME_KEYS /\
  Canvas.render loading vowel = [] /\
  Canvas.render this vowel =
    [Canvas.clearRect 0 0 300 150; Canvas.drawImage sheet 128 128 128 128 0 0 128 128].
Proof.
  intros this loading.
  assert (Hv : viseme vowel ∈ EXTENDED_VISEME_KEYS) by by_decide.
  split; [exact Hv|]. split.
  - exact (proj1 (Canvas.render_draws_viseme_cell loading vowel) (or_introl eq_refl)).
  - exact (proj1 (proj2 (proj2 (proj2 (Canvas.render_draws_viseme_cell this vowel)))
                    sheet Hv eq_refl eq_refl
                    ltac:(vm_compute; congruence) ltac:(reflexivity) ltac:(reflexivity)
                    ltac:(reflexivity))).
Defined.

(** X27: without a number of columns the sheet has [512 / 128 = 4]. *)
Lemma render_cell_within_sheet_witness :
  let this := Canvas.mkCanvasRenderer 300 150 (canvas_options None) None false in
  viseme vowel ∈ EXTENDED_VISEME_KEYS /\
  Canvas.columns (Canvas.canvas_opts (Canvas.loaded sheet this)) = Some 4%Z.
Proof.
  intros this.
  assert (Hv : viseme vowel ∈ EXTENDED_VISEME_KEYS) by by_decide.
  split; [exact Hv|].
  exact (proj1 (Canvas.render_cell_within_sheet this sheet vowel Hv (or_introl eq_refl)
                  ltac:(reflexivity) ltac:(vm_compute; congruence)
                  ltac:(vm_compute; congruence))).
Defined.

(** Options with a class prefix. *)
Definition css_options : CSS.CSSOptions :=
  CSS.mkCSSOptions "data-viseme" "mouth-" false "data-intensity" true None.

(** X29: a vowel frame after a silent one. *)
Lemma render_keeps_element_in_step_witness :
  let frames := [fst (analyze_f fresh silent_frame)] in
  let calls := fst (CSS.render_all (fun x => x) (frames ++ [vowel])
                      (CSS.new_CSSClassRenderer css_options)) in
  CSS.attribute css_options <> CSS.intensityAttribute css_options /\
  Forall (fun fr => viseme fr ∈ EXTENDED_VISEME_KEYS /\ simpleViseme fr ∈ SIMPLE_VISEME_KEYS)
         (frames ++ [vowel]) /\
  CSS.classes_after calls [] = ["mouth-aa"].
Proof.
  intros frames calls.
  assert (Hattr : CSS.attribute css_options <> CSS.intensityAttribute css_options)
    by discriminate.
  assert (Hfr : Forall (fun fr => viseme fr ∈ EXTENDED_VISEME_KEYS /\
                                  simpleViseme fr ∈ SIMPLE_VISEME_KEYS) (frames ++ [vowel]))
    by (repeat constructor; by_decide).
  split; [exact Hattr|]. split; [exact Hfr|].
  pose proof (CSS.render_keeps_element_in_step (fun x => x) css_options frames vowel
                Hattr Hfr) as H.
  subst calls.
  destruct (CSS.render_all (fun x => x) (frames ++ [vowel])
              (CSS.new_CSSClassRenderer css_options)) as [calls this].
  destruct H as (_ & _ & Hon & _).
  exact (proj1 (Hon ltac:(discriminate))).
Defined.

(** X30: [destroy()] after the same frames. *)
Lemma destroy_cleans_element_witness :
  let frames := [fst (analyze_f fresh silent_frame); vowel] in
  let rendered := CSS.render_all (fun x => x) frames (CSS.new_CSSClassRenderer css_options) in
  CSS.attribute css_options <> CSS.intensityAttribute css_options /\
  Forall (fun fr => viseme fr ∈ EXTENDED_VISEME_KEYS /\ simpleViseme fr ∈ SIMPLE_VISEME_KEYS)
         frames /\
  CSS.classes_after (fst rendered ++ fst (CSS.destroy (snd rendered))) [] = [].
Proof.
  intros frames rendered.
  assert (Hattr : CSS.attribute css_options <> CSS.intensityAttribute css_options)
    by discriminate.
  assert (Hfr : Forall (fun fr => viseme fr ∈ EXTENDED_VISEME_KEYS /\
                                  simpleViseme fr ∈ SIMPLE_VISEME_KEYS) frames)
    by (repeat constructor; by_decide).
  split; [exact Hattr|]. split; [exact Hfr|].
  pose proof (CSS.destroy_cleans_element (fun x => x) css_options frames Hattr Hfr) as H.
  subst rendered.
  destruct (CSS.render_all (fun x => x) frames (CSS.new_CSSClassRenderer css_options))
    as [calls this].
  cbn [fst snd]. destruct (CSS.destroy this) as [calls' this'].
  exact (proj1 H).
Defined.

End Cases.
